(** * gigobooks: the transaction / element core (core/Transaction.ts)

    A shallow embedding of [Transaction.ts]: the balance aggregator
    ([_getBalances], [isBalanced]), the merge of a candidate list into a
    transaction's elements ([mergeElements]), the commit ([save], [_save])
    and the navigation queries ([prevId], [nextId]).

    Conventions.
    - Amounts, ids and signs are JavaScript numbers; the ledger keeps amounts
      as integers in a currency's minor unit, so an element holds them as [Z].
      What the source computes from them is computed as JavaScript does:
      sums and products are those of IEEE 754 doubles ([JS.add], [JS.mul]),
      which are exact up to [2^53] and round beyond.
    - An optional field ([id?: number]) is an [option]; [None] is [undefined].
    - Element objects are shared by reference ([_parent] points at the parent
      object, and [_save] mutates objects that other objects point at), so
      objects live in a heap and arrays hold locations. *)

From stdpp Require Import gmap strings list fin_maps sorting.
From Stdlib Require Import ZArith Lia.

Local Open Scope Z_scope.

(** ** JavaScript values and built-ins used by the source *)

Module JS.

(** Truthiness of an optional number: [undefined] and [0] are falsy. *)
Definition truthy (x : option Z) : bool :=
  match x with
  | Some n => negb (n =? 0)
  | None => false
  end.

(** Truthiness of an optional string: [undefined] and [''] are falsy. *)
Definition truthy_str (x : option string) : bool :=
  match x with
  | Some s => negb (String.eqb s "")
  | None => false
  end.

(** [Array.prototype.sort(cmp)]: a stable sort; [x] goes before the first
    [y] for which [cmp x y <= 0]. *)
Fixpoint insert {A} (cmp : A → A → Z) (x : A) (l : list A) : list A :=
  match l with
  | [] => [x]
  | y :: l' => if cmp x y <=? 0 then x :: l else y :: insert cmp x l'
  end.

Definition sort {A} (cmp : A → A → Z) (l : list A) : list A :=
  foldr (insert cmp) [] l.

(** *** Numbers

    A JavaScript number is an IEEE 754 double. The numbers the source
    computes are sums and products of integers: integers again, an infinity
    or NaN. The sign of a zero is not kept: the source never divides, and it
    compares with [==] and [!=]. *)
Inductive number : Type :=
  | Finite (z : Z)
  | Infinity (negative : bool)
  | NaN.

(** The double nearest to the integer [z]: it keeps 53 significant bits, a
    tie goes to the even significand, and from [2^1024] on the result is
    an infinity. Integers up to [2^53] in absolute value are doubles. *)
Definition round (z : Z) : number :=
  let a := Z.abs z in
  if a <? 2 ^ 53 then Finite z
  else
    let e := Z.log2 a - 52 in
    let q := a / 2 ^ e in
    let r := a mod 2 ^ e in
    let q :=
      if 2 * r <? 2 ^ e then q
      else if 2 ^ e <? 2 * r then q + 1
      else if Z.even q then q else q + 1 in
    let v := q * 2 ^ e in
    if 2 ^ 1024 <=? v then Infinity (z <? 0) else Finite (Z.sgn z * v).

(** [x + y]: the exactOn sum, rounded. *)
Definition add (x y : number) : number :=
  match x, y with
  | NaN, _ | _, NaN => NaN
  | Infinity a, Infinity b => if Bool.eqb a b then Infinity a else NaN
  | Infinity a, Finite _ | Finite _, Infinity a => Infinity a
  | Finite a, Finite b => round (a + b)
  end.

(** [x * y]: the exact product, rounded. *)
Definition mul (x y : number) : number :=
  match x, y with
  | NaN, _ | _, NaN => NaN
  | Infinity a, Infinity b => Infinity (xorb a b)
  | Infinity a, Finite z | Finite z, Infinity a =>
      if z =? 0 then NaN else Infinity (xorb a (z <? 0))
  | Finite a, Finite b => round (a * b)
  end.

(** [-x] *)
Definition neg (x : number) : number :=
  match x with
  | Finite z => Finite (- z)
  | Infinity a => Infinity (negb a)
  | NaN => NaN
  end.

(** *** Values

    What a string made by [+=] starts with: the source text of a built-in
    function, or ['[object Object]']. Neither reads as a number. *)
Inductive origin : Type :=
  | SourceOf (name : string)
  | ObjectObject.

(** The primitive values the source stores in a record: a number, or a
    string, which is an origin followed by the decimal forms of the numbers
    that were appended to it. *)
Inductive prim : Type :=
  | Num (n : number)
  | Text (o : origin) (appended : list number).

(** What reading a property gives: [undefined], a primitive value, a
    built-in function of [Object.prototype], or [Object.prototype] itself. *)
Inductive value : Type :=
  | Undefined
  | Prim (p : prim)
  | Function (name : string)
  | Prototype.

(** A finite number, as a value. *)
Definition int (z : Z) : value := Prim (Num (Finite z)).

(** [v == undefined] ([null] does not occur). *)
Definition isUndefined (v : value) : bool :=
  match v with
  | Undefined => true
  | _ => false
  end.

(** [v == 0]: a string that starts with an origin converts to NaN, and so
    does a function or an object. *)
Definition isZero (v : value) : bool :=
  match v with
  | Prim (Num (Finite z)) => z =? 0
  | _ => false
  end.

(** [v + x] for a number [x], as [v += x] computes it: numbers add, anything
    else is converted to a string and [x] is appended. *)
Definition plus (v : value) (x : number) : prim :=
  match v with
  | Prim (Num n) => Num (add n x)
  | Prim (Text o appended) => Text o (appended ++ [x])
  | Function name => Text (SourceOf name) [x]
  | Prototype => Text ObjectObject [x]
  | Undefined => Num NaN
  end.

(** [-v]: what is not a number converts to NaN. *)
Definition negate (v : value) : number :=
  match v with
  | Prim (Num n) => neg n
  | _ => NaN
  end.

(** The integer a finite number holds. Elements hold integer amounts: a
    value that is not a finite number has no counterpart among them, and is
    read as 0. *)
Definition integer (v : value) : Z :=
  match v with
  | Prim (Num (Finite z)) => z
  | _ => 0
  end.

(** *** Records

    A [Record<string, number>] made by [{}] and built by assignment: its own
    properties, in insertion order. JavaScript lists integer-like keys
    first; [_getBalances] sorts the keys' entries afterwards, and
    [getBalances_keys_order] shows that the order in which the keys are
    listed does not reach the result. *)
Definition Rec : Type := list (string * prim).

(** The own property [k]; [None] when there is none. *)
Fixpoint get {A} (r : list (string * A)) (k : string) : option A :=
  match r with
  | [] => None
  | (k', v) :: r' => if decide (k' = k) then Some v else get r' k
  end.

(** Overwrite the own property where it stands, or add it last. *)
Fixpoint set {A} (r : list (string * A)) (k : string) (v : A)
  : list (string * A) :=
  match r with
  | [] => [(k, v)]
  | (k', v') :: r' =>
      if decide (k' = k) then (k, v) :: r' else (k', v') :: set r' k v
  end.

(** The function-valued properties of [Object.prototype], which every
    object made by [{}] inherits. *)
Definition prototypeFunctions : list string :=
  ["constructor"; "hasOwnProperty"; "isPrototypeOf"; "propertyIsEnumerable";
   "toLocaleString"; "toString"; "valueOf"; "__defineGetter__";
   "__defineSetter__"; "__lookupGetter__"; "__lookupSetter__"].

(** [r[k]]: the own property, or else what [Object.prototype] has under
    [k]; ['__proto__'] is an accessor there, which gives the prototype. *)
Definition read (r : Rec) (k : string) : value :=
  match get r k with
  | Some p => Prim p
  | None =>
      if decide (k = "__proto__") then Prototype
      else if decide (k ∈ prototypeFunctions) then Function k
      else Undefined
  end.

(** [r[k] = p] for a primitive value [p]: the setter of ['__proto__']
    ignores a primitive value; under any other key [p] becomes an own
    property. *)
Definition write (r : Rec) (k : string) (p : prim) : Rec :=
  if decide (k = "__proto__") then r else set r k p.

(** [Object.keys(r)] *)
Definition keys {A} (r : list (string * A)) : list string := r.*1.

End JS.

(** Modelled from the spec: [orderByField] of [util/util], whose source is
    not available.
    The Balance Aggregator's contract has the output "sorted by currency code
    ascending", so the comparator it builds orders two objects by the named
    field, ascending: negative when the first field is smaller, positive when
    it is greater, zero when they are equal. Strings compare by code unit. *)
Definition orderByField {A} (field : A → string) (a b : A) : Z :=
  match String.compare (field a) (field b) with
  | Lt => -1
  | Eq => 0
  | Gt => 1
  end.

(** ** Elements *)

(** Locations of objects in the heap. *)
Abbreviation loc := nat (only parsing).

Module Element.

(** Modelled from the spec: the interface [IElement] is declared in
    [./Element], whose source is not available. Its fields are those of the
    spec's Posting, under the names the callers give them ([drcr] is the
    sign). The source reads [drcr], [amount] and [currency] under a non-null
    assertion ([e.amount!]), so they are present here. *)
Record IElement : Type := mkIElement {
  id : option Z;
  transactionId : option Z;
  accountId : option Z;
  drcr : Z;
  amount : Z;
  currency : string;
  parentId : option Z;
  settleId : option Z;
  taxCode : option string;
  description : option string;
  useGross : option Z;
}.

(** Modelled from the spec: [Element.Debit] and [Element.Credit] are declared
    in the absent class; the spec's data model has "sign: Debit(+1) |
    Credit(-1)". *)
Definition Debit : Z := 1.
Definition Credit : Z := -1.

(** [type TElement = Element & { _parent?: TElement }] *)
Record TElement : Type := mkTElement {
  fields :> IElement;
  _parent : option loc;
}.

Definition with_id (v : option Z) (e : TElement) : TElement :=
  mkTElement
    (mkIElement v (transactionId e) (accountId e) (drcr e) (amount e)
       (currency e) (parentId e) (settleId e) (taxCode e) (description e)
       (useGross e))
    (_parent e).

Definition with_transactionId (v : option Z) (e : TElement) : TElement :=
  mkTElement
    (mkIElement (id e) v (accountId e) (drcr e) (amount e)
       (currency e) (parentId e) (settleId e) (taxCode e) (description e)
       (useGross e))
    (_parent e).

Definition with_parentId (v : option Z) (e : TElement) : TElement :=
  mkTElement
    (mkIElement (id e) (transactionId e) (accountId e) (drcr e) (amount e)
       (currency e) v (settleId e) (taxCode e) (description e)
       (useGross e))
    (_parent e).

Definition with_parent (p : option loc) (e : TElement) : TElement :=
  mkTElement (fields e) p.

(** Modelled from the spec: class [Element] ([./Element]), whose source is
    not available.
    The Merge/Reconciler of the spec appends, or puts in place, the candidate
    itself as the new posting, so [Element.construct(item)] is a new object
    that carries the fields of the plain object, with no [_parent] yet. *)
Definition construct (item : IElement) : TElement := mkTElement item None.

End Element.

Coercion Element.fields : Element.TElement >-> Element.IElement.

(** Modelled from the spec: the type [Money] is declared in [./currency],
    whose source is not available; the aggregator's contract has it as
    [{currency, amount}], which is what [_getBalances] builds. The amount is
    what the record holds under the currency. *)
Module Money.
Record t : Type := mk { amount : JS.value; currency : string }.
End Money.

Global Instance number_eq_dec : EqDecision JS.number.
Proof. solve_decision. Defined.
Global Instance origin_eq_dec : EqDecision JS.origin.
Proof. solve_decision. Defined.
Global Instance prim_eq_dec : EqDecision JS.prim.
Proof. solve_decision. Defined.
Global Instance value_eq_dec : EqDecision JS.value.
Proof. solve_decision. Defined.
Global Instance IElement_eq_dec : EqDecision Element.IElement.
Proof. solve_decision. Defined.
Global Instance TElement_eq_dec : EqDecision Element.TElement.
Proof. solve_decision. Defined.
Global Instance Money_eq_dec : EqDecision Money.t.
Proof. solve_decision. Defined.
Global Instance TElement_inhabited : Inhabited Element.TElement :=
  populate (Element.mkTElement
    (Element.mkIElement None None None 0 0 "" None None None None None) None).

(** ** The balance aggregator *)

(** The body of the [forEach] in [_getBalances]. [e.amount!] and [e.drcr!]
    are the doubles that hold the element's integers ([JS.round]). *)
Definition addBalance (sum : bool) (balances : JS.Rec) (e : Element.IElement)
  : JS.Rec :=
  let currency := Element.currency e in
  let balances :=
    if JS.isUndefined (JS.read balances currency)
    then JS.write balances currency (JS.Num (JS.Finite 0))
    else balances in
  JS.write balances currency
    (JS.plus (JS.read balances currency)
       (if sum then JS.round (Element.amount e)
        else JS.mul (JS.round (Element.drcr e)) (JS.round (Element.amount e)))).

Definition _getBalances (elements : list Element.IElement) (sum : bool)
  : list Money.t :=
  let balances := foldl (addBalance sum) [] elements in
  JS.sort (orderByField Money.currency)
    (map (λ currency, Money.mk (JS.read balances currency) currency)
       (JS.keys balances)).

Definition getSums (elements : list Element.IElement) : list Money.t :=
  _getBalances elements true.

Definition getDebitBalances (elements : list Element.IElement) : list Money.t :=
  _getBalances elements false.

Definition getCreditBalances (elements : list Element.IElement) : list Money.t :=
  (* Credit balances are negative so negate them to be positive *)
  map (λ balance,
         Money.mk (JS.Prim (JS.Num (JS.negate (Money.amount balance))))
           (Money.currency balance))
    (_getBalances elements false).

Definition isBalanced (elements : list Element.IElement) : bool :=
  forallb (λ balance, JS.isZero (Money.amount balance))
    (_getBalances elements false).


(** ** The object heap

    Element objects are allocated at the end of the heap; an array of
    elements is a list of locations. Reading a location is total: arrays only
    ever hold locations of allocated objects (see [heap_ok] below). *)

Abbreviation Heap := (list Element.TElement) (only parsing).

Definition deref (h : Heap) (l : loc) : Element.TElement := h !!! l.

(** The elements an array of references stands for, as [IElement]s. *)
Definition view (h : Heap) (elements : list loc) : list Element.IElement :=
  map (λ l, Element.fields (deref h l)) elements.

(** ** Transactions *)

Inductive TransactionType : Type :=
  | Raw | Contribution | Sale | Invoice | InvoicePayment
  | Purchase | Bill | BillPayment.

Global Instance TransactionType_eq_dec : EqDecision TransactionType.
Proof. solve_decision. Defined.

Module Transaction.

Record t : Type := mk {
  id : option Z;
  description : option string;
  type : option TransactionType;
  date : option string;
  due : option string;
  actorId : option Z;
  elements : option (list loc);
}.

Definition with_id (v : option Z) (this : t) : t :=
  mk v (description this) (type this) (date this) (due this) (actorId this)
    (elements this).

Definition with_elements (v : option (list loc)) (this : t) : t :=
  mk (id this) (description this) (type this) (date this) (due this)
    (actorId this) v.

End Transaction.

(** A promise that has settled: resolved, or rejected with an error. *)
Inductive Outcome (E : Type) : Type :=
  | Resolved
  | Rejected (err : E).
Global Arguments Resolved {E}.
Global Arguments Rejected {E} err.

(** ** mergeElements *)

(** The rejections of [mergeElements], in the order of the source:
    'No items', 'transactionId of item i does not match',
    'First element must be a non-child', 'Id k of item i not found.',
    'Not balanced'. *)
Inductive MergeError : Type :=
  | NoItems
  | TransactionIdMismatch (i : nat)
  | FirstMustBeNonChild
  | IdNotFound (k : Z) (i : nat)
  | NotBalanced.

(** [this.id && item.transactionId && item.transactionId != this.id] *)
Definition transactionIdMismatch (this : Transaction.t)
    (item : Element.IElement) : bool :=
  JS.truthy (Transaction.id this)
  && JS.truthy (Element.transactionId item)
  && negb (bool_decide (Element.transactionId item = Transaction.id this)).

(** What the loop does to the constructed object: a child ([parentId == -1])
    gets [_parent = parent], anything else gets [parentId = 0]. *)
Definition isChildMarker (e : Element.IElement) : bool :=
  bool_decide (Element.parentId e = Some (-1)).

Definition prepare (parent : option loc) (item : Element.IElement)
  : Element.TElement :=
  let e := Element.construct item in
  if isChildMarker e then Element.with_parent parent e
  else Element.with_parentId (Some 0) e.

(** The second loop of [mergeElements] from item [i] on. [elements] is the
    working copy, [parent] the most recent non-child object. Each item's
    object is allocated at the end of the heap. ([items] is the source's
    [list].) *)
Fixpoint mergeLoop (i : nat) (items : list Element.IElement) (h : Heap)
    (elements : list loc) (parent : option loc)
  : Heap * (MergeError + list loc) :=
  match items with
  | [] => (h, inr elements)
  | item :: rest =>
      let e := prepare parent item in
      let l := length h in
      let h := h ++ [e] in
      let parent := if isChildMarker e then parent else Some l in
      match Element.id e with
      | None => mergeLoop (S i) rest h (elements ++ [l]) parent
      | Some k =>
          match list_find (λ l', Element.id (deref h l') = Some k) elements with
          | Some (j, _) => mergeLoop (S i) rest h (<[j := l]> elements) parent
          | None => (h, inl (IdNotFound k i))
          end
      end
  end.

Definition mergeElements (h : Heap) (this : Transaction.t)
    (items : list Element.IElement)
  : Heap * Transaction.t * Outcome MergeError :=
  match items with
  | [] => (h, this, Rejected NoItems)
  | first :: _ =>
      match list_find (λ item, transactionIdMismatch this item = true) items with
      | Some (i, _) => (h, this, Rejected (TransactionIdMismatch i))
      | None =>
          if JS.truthy (Element.parentId first)
          then (h, this, Rejected FirstMustBeNonChild)
          else
            (* Don't assign or modify this.elements until after validation. *)
            let elements := default [] (Transaction.elements this) in
            match mergeLoop 0 items h elements None with
            | (h, inl err) => (h, this, Rejected err)
            | (h, inr elements) =>
                if negb (isBalanced (view h elements))
                then (h, this, Rejected NotBalanced)
                else
                  (* Now 'commit' the changes *)
                  (h, Transaction.with_elements (Some elements) this, Resolved)
            end
      end
  end.

(** [get balanced()] *)
Definition balanced (h : Heap) (this : Transaction.t) : bool :=
  match Transaction.elements this with
  | None => true
  | Some elements => isBalanced (view h elements)
  end.

(** ** The store

    The relational store behind objection/knex, reduced to what [_save],
    [prevId] and [nextId] use: the tables [txn] and [txnElement], keyed by
    their primary key [id], the id generators of the two tables, and the
    project variable [lastSavedDate]. Storage failures are not modelled: every
    statement succeeds. *)

Module Store.

(** A row of [txn]; its id is the key it is stored under. *)
Record TxnRow : Type := mkTxnRow {
  description : option string;
  type : option TransactionType;
  date : option string;
  due : option string;
  actorId : option Z;
}.

Record t : Type := mk {
  txn : gmap Z TxnRow;
  txnElement : gmap Z Element.IElement;
  txnSeq : Z;
  txnElementSeq : Z;
  lastSavedDate : option string;
}.

Definition with_txn (v : gmap Z TxnRow) (seq : Z) (s : t) : t :=
  mk v (txnElement s) seq (txnElementSeq s) (lastSavedDate s).

Definition with_txnElement (v : gmap Z Element.IElement) (seq : Z) (s : t) : t :=
  mk (txn s) v (txnSeq s) seq (lastSavedDate s).

Definition with_lastSavedDate (v : option string) (s : t) : t :=
  mk (txn s) (txnElement s) (txnSeq s) (txnElementSeq s) v.

(** [patch]: a column is written when the object defines the property. *)
Definition patched {A} (new old : option A) : option A :=
  match new with
  | Some _ => new
  | None => old
  end.

Definition patchTxnRow (new old : TxnRow) : TxnRow :=
  mkTxnRow (patched (description new) (description old))
    (patched (type new) (type old)) (patched (date new) (date old))
    (patched (due new) (due old)) (patched (actorId new) (actorId old)).

Definition patchElementRow (new old : Element.IElement) : Element.IElement :=
  Element.mkIElement (Element.id old)
    (patched (Element.transactionId new) (Element.transactionId old))
    (patched (Element.accountId new) (Element.accountId old))
    (Element.drcr new) (Element.amount new) (Element.currency new)
    (patched (Element.parentId new) (Element.parentId old))
    (patched (Element.settleId new) (Element.settleId old))
    (patched (Element.taxCode new) (Element.taxCode old))
    (patched (Element.description new) (Element.description old))
    (patched (Element.useGross new) (Element.useGross old)).

End Store.

Definition rowOf (this : Transaction.t) : Store.TxnRow :=
  Store.mkTxnRow (Transaction.description this) (Transaction.type this)
    (Transaction.date this) (Transaction.due this) (Transaction.actorId this).

(** Modelled from the spec: [Element.save] (class [Element] / [Base]), whose
    source is not available. The Persistence Committer saves a posting by
    "insert new / patch existing", over a store offering "row insert returning
    a generated id" and "row patch-by-id": an object without an id is inserted
    under a generated id, which is written back to the object; an object with
    an id patches the row of that id, if there is one. *)
Definition Element_save (h : Heap) (s : Store.t) (l : loc) : Heap * Store.t :=
  let e := deref h l in
  match Element.id e with
  | None =>
      let k := Store.txnElementSeq s in
      let e' := Element.with_id (Some k) e in
      (<[l := e']> h,
       Store.with_txnElement (<[k := Element.fields e']> (Store.txnElement s))
         (k + 1) s)
  | Some k =>
      (h,
       Store.with_txnElement
         (alter (Store.patchElementRow e) k (Store.txnElement s))
         (Store.txnElementSeq s) s)
  end.

(** Modelled from the spec: [Element.delete], whose source is not available.
    The store offers "row delete-by-id" and the committer has it "physically
    remove the row": the row stored under the object's id, if any, is
    removed. *)
Definition Element_delete (h : Heap) (s : Store.t) (l : loc) : Store.t :=
  match Element.id (deref h l) with
  | None => s
  | Some k =>
      Store.with_txnElement (delete k (Store.txnElement s))
        (Store.txnElementSeq s) s
  end.

(** ** _save *)

(** The three batches of [_save]. *)
Record Batches : Type := mkBatches {
  parents : list loc;
  children : list loc;
  deletes : list loc;
}.

(** [e.amount != 0 || e.taxCode] *)
Definition isKept (e : Element.IElement) : bool :=
  negb (Element.amount e =? 0) || JS.truthy_str (Element.taxCode e).

(** [e._parent || e.parentId] *)
Definition hasParent (e : Element.TElement) : bool :=
  bool_decide (is_Some (Element._parent e)) || JS.truthy (Element.parentId e).

(** The body of the first loop of [_save]. *)
Definition separate (this : Transaction.t) (acc : Heap * Batches) (l : loc)
  : Heap * Batches :=
  let '(h, b) := acc in
  let e := deref h l in
  if isKept e then
    let h := <[l := Element.with_transactionId (Transaction.id this) e]> h in
    if hasParent e
    then (h, mkBatches (parents b) (children b ++ [l]) (deletes b))
    else (h, mkBatches (parents b ++ [l]) (children b) (deletes b))
  else if JS.truthy (Element.id e)
  then (h, mkBatches (parents b) (children b) (deletes b ++ [l]))
  else (h, b).

(** The inner loop of the deletes: [if (c.parentId == e.id) c._parent = e]. *)
Definition repoint (e : loc) (h : Heap) (c : loc) : Heap :=
  if bool_decide (Element.parentId (deref h c) = Element.id (deref h e))
  then <[c := Element.with_parent (Some e) (deref h c)]> h
  else h.

(** The body of the deletes loop. *)
Definition deleteOne (children : list loc) (acc : Heap * Store.t) (e : loc)
  : Heap * Store.t :=
  let '(h, s) := acc in
  let h := foldl (repoint e) h children in
  let s := Element_delete h s e in
  (* Indicate to any children that their parent has been deleted *)
  let h := <[e := Element.with_id (Some 0) (deref h e)]> h in
  (h, s).

Definition saveOne (acc : Heap * Store.t) (e : loc) : Heap * Store.t :=
  let '(h, s) := acc in Element_save h s e.

(** The body of the children loop. *)
Definition saveChild (acc : Heap * Store.t) (l : loc) : Heap * Store.t :=
  let '(h, s) := acc in
  let e := deref h l in
  match Element._parent e with
  | Some p =>
      let pid := Element.id (deref h p) in
      let parentId := if JS.truthy pid then pid else Some 0 in
      let e := Element.with_parent None (Element.with_parentId parentId e) in
      let h := <[l := e]> h in
      if negb (JS.truthy (Element.parentId e)) && (Element.amount e =? 0)
      then (h, Element_delete h s l)
      else Element_save h s l
  | None => (h, s)
  end.

(** The first loop of [_save]: separate elements into three batches. *)
Definition separateElements (this : Transaction.t) (h : Heap)
    (elements : list loc) : Heap * Batches :=
  foldl (separate this) (h, mkBatches [] [] []) elements.

(** The three loops over the batches: deletes, then parents, then children. *)
Definition saveBatches (h : Heap) (s : Store.t) (b : Batches) : Heap * Store.t :=
  (* Do deletes first. *)
  let acc := foldl (deleteOne (children b)) (h, s) (deletes b) in
  (* Save parents *)
  let acc := foldl saveOne acc (parents b) in
  (* Fill in parentId of children and save *)
  foldl saveChild acc (children b).

(** The insert or patch of the transaction's own row. *)
Definition saveRow (s : Store.t) (this : Transaction.t) : Store.t * Transaction.t :=
  match Transaction.id this with
  | None =>
      let k := Store.txnSeq s in
      let this := Transaction.with_id (Some k) this in
      (Store.with_txn (<[k := rowOf this]> (Store.txn s)) (k + 1) s, this)
  | Some k =>
      (Store.with_txn (alter (Store.patchTxnRow (rowOf this)) k (Store.txn s))
         (Store.txnSeq s) s, this)
  end.

Definition _save (h : Heap) (s : Store.t) (this : Transaction.t)
  : Heap * Store.t * Transaction.t :=
  let '(s, this) := saveRow s this in
  let s := Store.with_lastSavedDate (Transaction.date this) s in
  match Transaction.elements this with
  | None => (h, s, this)
  | Some elements =>
      let '(h, b) := separateElements this h elements in
      let '(h, s) := saveBatches h s b in
      (h, s, this)
  end.

(** ** save *)

Inductive SaveError : Type :=
  | InvalidDate
  | ElementsDoNotBalance.

Section Save.

(** [isDateOnly] of [./date], whose source is not available: any predicate
    on strings. *)
Variable isDateOnly : string → bool.

(** [save(trx?)]. The [updatedAt] timestamp is not part of the model; with or
    without a caller's [trx], the work is [_save]. *)
Definition save (h : Heap) (s : Store.t) (this : Transaction.t)
  : Heap * Store.t * Transaction.t * Outcome SaveError :=
  if negb (JS.truthy_str (Transaction.date this))
     || negb (isDateOnly (default "" (Transaction.date this)))
  then (h, s, this, Rejected InvalidDate)
  else if negb (balanced h this)
  then (h, s, this, Rejected ElementsDoNotBalance)
  else (_save h s this, Resolved).

End Save.

(** ** prevId and nextId *)

(** The optional [type] argument: one type or an array of types. *)
Inductive TypeArg : Type :=
  | OneType (ty : TransactionType)
  | TypeArray (tys : list TransactionType).

(** The optional reference [t?: {id?: number, date?: string}]. *)
Module Ref.
Record t : Type := mk { id : option Z; date : option string }.
End Ref.

(** [where('type', ty)] / [whereIn('type', tys)]; a NULL type matches
    neither. No condition is added when [type] is absent. *)
Definition typeMatches (type : option TypeArg) (row : Z * Store.TxnRow) : bool :=
  match type with
  | None => true
  | Some (OneType ty) => bool_decide (Store.type row.2 = Some ty)
  | Some (TypeArray tys) =>
      existsb (λ ty, bool_decide (Store.type row.2 = Some ty)) tys
  end.

(** SQL comparison of the [date] column with a value: a NULL date satisfies
    no comparison. *)
Definition dateIs (c : comparison) (row : Z * Store.TxnRow) (d : string) : bool :=
  match Store.date row.2 with
  | Some x => bool_decide (String.compare x d = c)
  | None => false
  end.

(** [date < d OR (date = d AND id < i)] *)
Definition isBefore (d : string) (i : Z) (row : Z * Store.TxnRow) : bool :=
  dateIs Lt row d || (dateIs Eq row d && (row.1 <? i)).

(** [date > d OR (date = d AND id > i)] *)
Definition isAfter (d : string) (i : Z) (row : Z * Store.TxnRow) : bool :=
  dateIs Gt row d || (dateIs Eq row d && (i <? row.1)).

(** [if (t && t.id && t.date)]: the reference counts only when it is there
    with a truthy id and a truthy date. *)
Definition usable (t : option Ref.t) : option (string * Z) :=
  match t with
  | Some (Ref.mk (Some i) (Some d)) =>
      if JS.truthy (Some i) && JS.truthy_str (Some d) then Some (d, i) else None
  | _ => None
  end.

(** The order of [ORDER BY date, id]: NULL dates sort first (SQLite). *)
Definition compareDate (a b : option string) : comparison :=
  match a, b with
  | None, None => Eq
  | None, Some _ => Lt
  | Some _, None => Gt
  | Some x, Some y => String.compare x y
  end.

Definition compareRow (a b : Z * Store.TxnRow) : comparison :=
  match compareDate (Store.date a.2) (Store.date b.2) with
  | Eq => Z.compare a.1 b.1
  | c => c
  end.

Definition orderAsc (a b : Z * Store.TxnRow) : Z :=
  match compareRow a b with Lt => -1 | Eq => 0 | Gt => 1 end.

Definition orderDesc (a b : Z * Store.TxnRow) : Z := orderAsc b a.

(** [rows.length > 0 ? rows[0].id : 0] *)
Definition firstId (rows : list (Z * Store.TxnRow)) : Z :=
  match rows with
  | row :: _ => row.1
  | [] => 0
  end.

Definition prevId (s : Store.t) (t : option Ref.t) (type : option TypeArg) : Z :=
  let q := map_to_list (Store.txn s) in
  let q := List.filter (typeMatches type) q in
  let q :=
    match usable t with
    | Some (d, i) => List.filter (isBefore d i) q
    | None => q
    end in
  let rows := take 1 (JS.sort orderDesc q) in
  firstId rows.

Definition nextId (s : Store.t) (t : option Ref.t) (type : option TypeArg) : Z :=
  let q := map_to_list (Store.txn s) in
  let q := List.filter (typeMatches type) q in
  let q :=
    match usable t with
    | Some (d, i) => List.filter (isAfter d i) q
    | None => q
    end in
  let rows := take 1 (JS.sort orderAsc q) in
  firstId rows.

(** ** Reading and tidying the elements *)

(** [getFirstCrElement(drcr = Transaction.Credit)]: the first element of the
    given sign; an absent argument is [Transaction.Credit]. *)
Definition getFirstCrElement (h : Heap) (this : Transaction.t)
    (drcr : option Z) : option loc :=
  let drcr := default Element.Credit drcr in
  match Transaction.elements this with
  | Some elements =>
      snd <$> list_find (λ l, Element.drcr (deref h l) = drcr) elements
  | None => None
  end.

Definition getFirstDrElement (h : Heap) (this : Transaction.t) : option loc :=
  getFirstCrElement h this (Some Element.Debit).

(** [getCrElementIds(drcr = Transaction.Credit)]: [e.id!] of every element of
    the given sign, in order; an element without an id contributes
    [undefined]. *)
Definition getCrElementIds (h : Heap) (this : Transaction.t)
    (drcr : option Z) : list (option Z) :=
  let drcr := default Element.Credit drcr in
  match Transaction.elements this with
  | Some elements =>
      (λ l, Element.id (deref h l))
        <$> filter (λ l, Element.drcr (deref h l) = drcr) elements
  | None => []
  end.

Definition getDrElementIds (h : Heap) (this : Transaction.t) : list (option Z) :=
  getCrElementIds h this (Some Element.Debit).

(** [get singleCurrency(): string | false]; [None] is [false]. The project
    variables 'currency' and 'otherCurrencies' are read from [Project], whose
    source is not available: they are arguments here. *)
Definition singleCurrency (currency : string) (otherCurrencies : list string)
    (h : Heap) (this : Transaction.t) : option string :=
  if bool_decide (0 < length otherCurrencies)%nat then None
  else
    match Transaction.elements this with
    | Some elements =>
        if forallb (λ l, bool_decide (Element.currency (deref h l) = currency))
             elements
        then Some currency
        else None
    | None => Some currency
    end.

(** [(!e.parentId) || (e.parentId && !e.taxCode)] *)
Definition isRemovable (e : Element.IElement) : bool :=
  negb (JS.truthy (Element.parentId e))
  || (JS.truthy (Element.parentId e) && negb (JS.truthy_str (Element.taxCode e))).

(** The filter of [condenseElements]: [e.amount != 0 || !remove]. *)
Definition survives (e : Element.IElement) : bool :=
  negb (Element.amount e =? 0) || negb (isRemovable e).

(** [(a, b) => a.id! - b.id!]. With an id missing the difference is [NaN],
    which [sort] takes for [+0]; the comparator is then not consistent, and
    the order [sort] leaves is up to the engine: the theorems that depend on
    the order assume that the elements compared have ids. *)
Definition compareId (a b : Element.IElement) : Z :=
  match Element.id a, Element.id b with
  | Some x, Some y => x - y
  | _, _ => 0
  end.

(** [condenseElements()]: filter into a new array, then sort it by id. *)
Definition condenseElements (h : Heap) (this : Transaction.t) : Transaction.t :=
  match Transaction.elements this with
  | Some elements =>
      let elements := filter (λ l, survives (deref h l) = true) elements in
      Transaction.with_elements
        (Some (JS.sort (λ a b, compareId (deref h a) (deref h b)) elements))
        this
  | None => this
  end.

(** ** The forms: from candidates to a saved transaction

    The sale form (components/Sale.tsx) and the invoice payment form
    (components/InvoicePayment) end [saveFormData] alike: build the list of
    candidates, [mergeElements], [save], [condenseElements]. *)

Inductive FormError : Type :=
  | MergeRejected (err : MergeError)
  | SaveRejected (err : SaveError).

Section Forms.

Variable isDateOnly : string → bool.

(** [Account.Reserved.Cash] and [Account.Reserved.AccountsReceivable], of
    [Account], whose source is not available: any two account ids. *)
Variables Cash AccountsReceivable : Z.

(** [await transaction.mergeElements(elements); await transaction.save(trx);
    transaction.condenseElements()]: a rejected promise ends the function. *)
Definition mergeAndSave (h : Heap) (s : Store.t) (this : Transaction.t)
    (elements : list Element.IElement)
  : Heap * Store.t * Transaction.t * Outcome FormError :=
  match mergeElements h this elements with
  | (h, this, Rejected err) => (h, s, this, Rejected (MergeRejected err))
  | (h, this, Resolved) =>
      match save isDateOnly h s this with
      | (h, s, this, Rejected err) => (h, s, this, Rejected (SaveRejected err))
      | (h, s, this, Resolved) => (h, s, condenseElements h this, Resolved)
      end
  end.

(** Sale.tsx, [saveFormData]: a balancing element, made in the loop over
    [Transaction.getCreditBalances(elements)]. Its amount is the integer the
    balance holds ([JS.integer]). *)
Definition balancingElement (type : TransactionType) (id : option Z)
    (money : Money.t) : Element.IElement :=
  Element.mkIElement id None
    (Some (if decide (type = Sale) then Cash else AccountsReceivable))
    Element.Debit (JS.integer (Money.amount money)) (Money.currency money)
    None (Some 0)
    (Some "") (Some "") (Some 0).

(** The loop itself: each balance takes [ids.shift()], which is [undefined]
    once [ids] is empty. What is left of [ids] is returned with the
    elements. *)
Fixpoint balancingElements (type : TransactionType) (ids : list (option Z))
    (balances : list Money.t) : list Element.IElement * list (option Z) :=
  match balances with
  | [] => ([], ids)
  | money :: balances =>
      let id := mjoin (head ids) in
      let '(elements, ids) := balancingElements type (tail ids) balances in
      (balancingElement type id money :: elements, ids)
  end.

(** [{ id: id, drcr: Transaction.Debit, amount: 0, currency: '' }] *)
Definition zeroingElement (id : option Z) : Element.IElement :=
  Element.mkIElement id None None Element.Debit 0 "" None None None None None.

(** Sale.tsx, [saveFormData], from "Generate balancing elements" to the
    merge: [ids] is [transaction.getDrElementIds()], [elements] the elements
    converted from the form. *)
Definition balancedCandidates (type : TransactionType) (ids : list (option Z))
    (elements : list Element.IElement) : list Element.IElement :=
  let '(balancing, ids) :=
    balancingElements type ids (getCreditBalances elements) in
  (* If there are any remaining old IDs/elements, zero them out *)
  elements ++ balancing ++ (zeroingElement <$> ids).

(** InvoicePayment, [saveFormData]: the two candidates of a payment of
    [amount] settling the invoice [settleId]; [drId] and [crId] are the ids of
    the payment's first debit and first credit element when an existing
    payment is modified, and absent for a new payment. *)
Definition paymentElements (drId crId : option Z) (amount : Z)
    (currency : string) (settleId : option Z) : list Element.IElement :=
  [Element.mkIElement drId None (Some Cash) Element.Debit amount currency
     None None None None None;
   Element.mkIElement crId None (Some AccountsReceivable) Element.Credit amount
     currency None settleId None None None].

End Forms.

(** ** Queries over the elements table *)

(** The rows of [txnElement]. *)
Definition elementRows (s : Store.t) : list Element.IElement :=
  (map_to_list (Store.txnElement s)).*2.

(** [settlements()]: the condition [id IN (SELECT transactionId FROM
    txnElement WHERE settleId = self.id)] on a row of [txn]. The callers have
    [self] saved; with no id, no row is selected. *)
Definition settlements (s : Store.t) (self : Transaction.t)
    (row : Z * Store.TxnRow) : bool :=
  match Transaction.id self with
  | Some i =>
      existsb (λ r, bool_decide (Element.transactionId r = Some row.1)
                    && bool_decide (Element.settleId r = Some i))
        (elementRows s)
  | None => false
  end.

(** [(transaction_id = txn.id OR settle_id = txn.id) AND account_id = ?] *)
Definition linked (accountId : Z) (k : Z) (r : Element.IElement) : bool :=
  (bool_decide (Element.transactionId r = Some k)
   || bool_decide (Element.settleId r = Some k))
  && bool_decide (Element.accountId r = Some accountId).

(** [SELECT SUM(amount * drcr) AS balance ... GROUP BY currency]: one balance
    for each currency among the rows. *)
Definition groupBalances (rows : list Element.IElement) : list Z :=
  (λ c, foldr (λ r acc, Element.amount r * Element.drcr r + acc) 0
          (filter (λ r, Element.currency r = c) rows))
    <$> remove_dups (Element.currency <$> rows).

Section Queries.

(** [Account.Reserved.AccountsReceivable], of [Account], whose source is not
    available. *)
Variable AccountsReceivable : Z.

(** [static unpaidInvoices(builder, type = Transaction.Invoice, accountId =
    Account.Reserved.AccountsReceivable)]: the condition on a row of [txn]. *)
Definition unpaidInvoices (s : Store.t) (type : option TransactionType)
    (accountId : option Z) (row : Z * Store.TxnRow) : bool :=
  let type := default Invoice type in
  let accountId := default AccountsReceivable accountId in
  bool_decide (Store.type row.2 = Some type)
  && existsb (λ balance, negb (balance =? 0))
       (groupBalances
          (filter (λ r, linked accountId row.1 r = true) (elementRows s))).

End Queries.

(** ** The tax settings form (components/SettingsTax) *)

(** [[...new Set(xs)]]: the distinct members of [xs], in the order of their
    first occurrence. *)
Definition uniq (xs : list string) : list string :=
  foldl (λ acc x, if decide (x ∈ acc) then acc else acc ++ [x]) [] xs.

(** The comparison of [sort()] without a comparator, on strings: by code
    unit. *)
Definition compareStrings (a b : string) : Z :=
  match String.compare a b with
  | Lt => -1
  | Eq => 0
  | Gt => 1
  end.

(** [saveFormData] of the tax settings: the value of
    [data.otherTaxAuthorities] that is handed to
    [Project.variables.setMultiple]. *)
Definition SettingsTax_saveFormData (taxAuthority : string)
    (otherTaxAuthorities : option (list string)) : list string :=
  let otherTaxAuthorities := default [] otherTaxAuthorities in
  JS.sort compareStrings
    (uniq (filter (λ c : string, c ≠ taxAuthority ∧ c ≠ "none") otherTaxAuthorities)).

(** The rejections of the payment form: a rejected merge or save, 'No amount
    specified', and the [TypeError] of [payment.getFirstDrElement()!.id] on a
    payment that has no such element. *)
Inductive PaymentError : Type :=
  | PaymentRejected (err : FormError)
  | NoAmountSpecified
  | NoSuchElement.

Section InvoicePayment.

Variable isDateOnly : string → bool.
Variables Cash AccountsReceivable : Z.

(** InvoicePayment, [saveFormData]. The item [data.payments[data.index]] is
    given by its fields: [tId], [description], [date] for
    [toDateOnly(item.date)] and [amount] for [parseFormatted(item.amount,
    item.currency)], both of modules whose source is not available, and
    [currency]; [payment] is [settlements[data.index]], which is read when the
    item has a [tId]. [Transaction.construct], of the class [Base] whose
    source is not available, builds the object from the fields it is given.
    The payment that was merged and saved is returned with the outcome. *)
Definition InvoicePayment_saveFormData (h : list Element.TElement)
    (s : Store.t) (transaction payment : Transaction.t) (tId : option Z)
    (description : option string) (date : string) (amount : Z)
    (currency : string)
  : list Element.TElement * Store.t * option Transaction.t
    * Outcome PaymentError :=
  if JS.truthy tId then
    (* Modify an existing payment transaction *)
    let payment :=
      Transaction.mk (Transaction.id payment) description
        (Transaction.type payment) (Some date) (Transaction.due payment)
        (Transaction.actorId payment) (Transaction.elements payment) in
    match getFirstDrElement h payment, getFirstCrElement h payment None with
    | Some dr, Some cr =>
        let elements :=
          paymentElements Cash AccountsReceivable (Element.id (deref h dr))
            (Element.id (deref h cr)) amount currency
            (Transaction.id transaction) in
        match mergeAndSave isDateOnly h s payment elements with
        | (h, s, payment, Resolved) => (h, s, Some payment, Resolved)
        | (h, s, payment, Rejected err) =>
            (h, s, Some payment, Rejected (PaymentRejected err))
        end
    | _, _ => (h, s, Some payment, Rejected NoSuchElement)
    end
  else if 0 <? amount then
    (* Create a new payment transaction *)
    let payment :=
      Transaction.mk None description (Some InvoicePayment) (Some date) None
        (Transaction.actorId transaction) None in
    let elements :=
      paymentElements Cash AccountsReceivable None None amount currency
        (Transaction.id transaction) in
    match mergeAndSave isDateOnly h s payment elements with
    | (h, s, payment, Resolved) => (h, s, Some payment, Resolved)
    | (h, s, payment, Rejected err) =>
        (h, s, Some payment, Rejected (PaymentRejected err))
    end
  else (h, s, None, Rejected NoAmountSpecified).

End InvoicePayment.

(** Modelled from the spec: [loadElements] is [$relatedQuery('elements')] of
    objection, through the relation [elements] of [relationMappings]: the rows
    of [txnElement] whose [transactionId] is the transaction's id, passed
    through the modifier 'sortById' of [Element], whose source is not
    available. The spec has the postings "loaded as a full ordered set"; by
    its name the modifier orders them by id. A transaction without an id has
    no related rows. *)
Definition relatedElements (s : Store.t) (this : Transaction.t)
  : list (Z * Element.IElement) :=
  match Transaction.id this with
  | Some tid =>
      JS.sort (λ a b, a.1 - b.1)
        (filter (λ r, Element.transactionId r.2 = Some tid)
           (map_to_list (Store.txnElement s)))
  | None => []
  end.

(** [this.elements = await this.$relatedQuery('elements', trx)]: each row
    becomes a new object, whose id is the key of the row. *)
Definition loadElements (h : list Element.TElement) (s : Store.t)
    (this : Transaction.t) : list Element.TElement * Transaction.t :=
  let rows := relatedElements s this in
  (h ++ ((λ r, Element.with_id (Some r.1) (Element.construct r.2)) <$> rows),
   Transaction.with_elements (Some (seq (length h) (length rows))) this).

(** ** Examples: the scenarios of the spec, run on the model *)

Definition posting (currency : string) (drcr amount : Z) : Element.IElement :=
  Element.mkIElement None None (Some 1) drcr amount currency None None None None
    None.

Definition usd : Z → Z → Element.IElement := posting "USD".
Definition eur : Z → Z → Element.IElement := posting "EUR".

Definition emptyTransaction : Transaction.t :=
  Transaction.mk None None None (Some "2020-01-01") None None None.

Definition scenarioD : Store.t :=
  Store.mk
    (<[1 := Store.mkTxnRow None (Some Sale) (Some "2020-01-01") None None]>
     (<[2 := Store.mkTxnRow None (Some Sale) (Some "2020-01-02") None None]>
      (<[3 := Store.mkTxnRow None (Some Invoice) (Some "2020-01-02") None None]>
       ∅)))
    ∅ 4 1 None.

(** A stored posting: the plain object with the id the store gave it. *)
Definition stored (k : Z) (item : Element.IElement) : Element.TElement :=
  Element.with_id (Some k) (Element.construct item).

(** A persisted transaction of two postings, and an edit of it that changes
    the second posting and adds a third. *)
Definition ledgerHeap : list Element.TElement :=
  [stored 1 (usd Element.Debit 10); stored 2 (usd Element.Credit 10)].

Definition ledger : Transaction.t :=
  Transaction.mk (Some 1) None (Some Sale) (Some "2020-01-01") None None
    (Some [0; 1]%nat).

Definition ledgerEdit : list Element.IElement :=
  [Element.fields (stored 2 (usd Element.Credit 15)); usd Element.Debit 5].

(** A sale with two tax postings, as stored: the revenue posting R (id 1),
    its children A (id 2) and B (id 3), and the cash posting (id 4). The edit
    zeroes R, keeps A, zeroes B and clears its tax code, and adjusts cash; as
    the forms do, it lists each child after its parent with [parentId = -1]. *)
Definition item (id parentId : option Z) (taxCode : option string)
    (drcr amount : Z) : Element.IElement :=
  Element.mkIElement id (Some 1) (Some 400) drcr amount "USD" parentId None
    taxCode None (Some 0).

Definition saleHeap : list Element.TElement :=
  [Element.construct (item (Some 1) (Some 0) None Element.Credit 100);
   Element.construct (item (Some 2) (Some 1) (Some "GST") Element.Credit 10);
   Element.construct (item (Some 3) (Some 1) (Some "PST") Element.Credit 5);
   Element.construct (item (Some 4) (Some 0) None Element.Debit 115)].

Definition sale : Transaction.t :=
  Transaction.mk (Some 1) None (Some Sale) (Some "2020-01-01") None None
    (Some [0; 1; 2; 3]%nat).

Definition saleStore : Store.t :=
  Store.mk
    {[ 1 := Store.mkTxnRow None (Some Sale) (Some "2020-01-01") None None ]}
    (list_to_map
       ((λ e : Element.TElement, (default 0 (Element.id e), Element.fields e))
          <$> saleHeap))
    2 5 None.

Definition saleEdit : list Element.IElement :=
  [item (Some 1) None None Element.Credit 0;
   item (Some 2) (Some (-1)) (Some "GST") Element.Credit 10;
   item (Some 3) (Some (-1)) None Element.Credit 0;
   item (Some 4) None None Element.Debit 10].

(** The heap and the transaction after [mergeElements] of the edit. *)
Definition editedHeap : list Element.TElement :=
  (mergeElements saleHeap sale saleEdit).1.1.

Definition editedSale : Transaction.t :=
  (mergeElements saleHeap sale saleEdit).1.2.

(** A sale of which R (id 1, credit 100) and the cash posting (id 2) are
    stored, and two edits with no save between them. The first adds the tax
    children A (GST, 10) and B (PST, 0), which are then pending on the object
    of R; the second lists R with amount 0 and the cash, and not the
    children. *)
Definition pendingStore : Store.t :=
  Store.mk
    {[ 1 := Store.mkTxnRow None (Some Sale) (Some "2020-01-01") None None ]}
    (<[1 := item (Some 1) (Some 0) None Element.Credit 100]>
     (<[2 := item (Some 2) (Some 0) None Element.Debit 100]> ∅))
    2 3 None.

Definition storedSale : Transaction.t :=
  Transaction.mk (Some 1) None (Some Sale) (Some "2020-01-01") None None
    (Some [0; 1]%nat).

Definition storedHeap : list Element.TElement :=
  [Element.construct (item (Some 1) (Some 0) None Element.Credit 100);
   Element.construct (item (Some 2) (Some 0) None Element.Debit 100)].

Definition firstEdit : list Element.IElement :=
  [item (Some 1) None None Element.Credit 100;
   item None (Some (-1)) (Some "GST") Element.Credit 10;
   item None (Some (-1)) (Some "PST") Element.Credit 0;
   item (Some 2) None None Element.Debit 110].

Definition pendingHeap : list Element.TElement :=
  (mergeElements storedHeap storedSale firstEdit).1.1.

Definition pendingSale : Transaction.t :=
  (mergeElements storedHeap storedSale firstEdit).1.2.

Definition secondEdit : list Element.IElement :=
  [item (Some 1) None None Element.Credit 0;
   item (Some 2) None None Element.Debit 10].

(** A new payment of 50 USD that settles the invoice of [scenarioD] (id 3),
    with cash in account 100 and receivables in account 200, after
    [mergeElements]. *)
Definition newPayment : Transaction.t :=
  Transaction.mk None None (Some InvoicePayment) (Some "2020-01-03") None None
    None.

Definition paymentHeap : list Element.TElement :=
  (mergeElements [] newPayment
     (paymentElements 100 200 None None 50 "USD" (Some 3))).1.1.

Definition mergedPayment : Transaction.t :=
  (mergeElements [] newPayment
     (paymentElements 100 200 None None 50 "USD" (Some 3))).1.2.

Definition invoice3 : Transaction.t :=
  Transaction.mk (Some 3) None (Some Invoice) (Some "2020-01-02") None None None.

(** A new sale in USD, before its first save: revenue of 100 with a tax
    child of amount 0 that keeps its tax code and a child of amount 0
    without one, cash of 100, and a posting of amount 0. *)
Definition entry (parentId : option Z) (taxCode : option string)
    (drcr amount : Z) : Element.IElement :=
  Element.mkIElement None None (Some 400) drcr amount "USD" parentId None
    taxCode None (Some 0).

Definition newSaleItems : list Element.IElement :=
  [entry None None Element.Credit 100;
   entry (Some (-1)) (Some "GST") Element.Credit 0;
   entry (Some (-1)) None Element.Credit 0;
   entry None None Element.Debit 100;
   entry None None Element.Debit 0].

Definition newSaleHeap : list Element.TElement :=
  (mergeElements [] emptyTransaction newSaleItems).1.1.

Definition newSale : Transaction.t :=
  (mergeElements [] emptyTransaction newSaleItems).1.2.

(** ** Vocabulary of the specification *)

(** What one element adds to the balance of its currency: [drcr * amount] in
    net-balance mode, [amount] in sum mode. *)
Definition contribution (sum : bool) (e : Element.IElement) : Z :=
  if sum then Element.amount e else Element.drcr e * Element.amount e.

(** Σ of the contributions of the elements of currency [c]. *)
Definition balanceOf (sum : bool) (c : string) (elements : list Element.IElement)
  : Z :=
  foldr (λ e acc,
    if decide (Element.currency e = c) then contribution sum e + acc else acc)
    0 elements.

Definition currencies (elements : list Element.IElement) : list string :=
  map Element.currency elements.

(** A currency code that names no property every object inherits. *)
Definition ordinary (c : string) : Prop :=
  c ≠ "__proto__" ∧ c ∉ JS.prototypeFunctions.

(** An integer up to [2^53] in absolute value: a double holds it. *)
Definition within (z : Z) : Prop := Z.abs z ≤ 2 ^ 53.

(** Σ of the absolute values of the contributions of the elements. *)
Definition magnitude (sum : bool) (elements : list Element.IElement) : Z :=
  foldr (λ e acc, Z.abs (contribution sum e) + acc) 0 elements.

(** The elements on which the aggregator computes exactly: the currency
    codes are ordinary, every sign and amount is within [2^53], and so is the
    total of the absolute contributions, hence every sum met on the way,
    in whatever order. *)
Definition exactOn (sum : bool) (elements : list Element.IElement) : Prop :=
  Forall (λ e, ordinary (Element.currency e)
               ∧ within (Element.drcr e) ∧ within (Element.amount e)) elements
  ∧ magnitude sum elements ≤ 2 ^ 53.

Global Instance ordinary_dec c : Decision (ordinary c).
Proof. unfold ordinary. apply _. Defined.
Global Instance within_dec z : Decision (within z).
Proof. unfold within. apply _. Defined.
Global Instance exactOn_dec sum elements : Decision (exactOn sum elements).
Proof. unfold exactOn. apply _. Defined.

(** What the [forEach] of [_getBalances] adds for an element. *)
Definition term (sum : bool) (e : Element.IElement) : JS.number :=
  if sum then JS.round (Element.amount e)
  else JS.mul (JS.round (Element.drcr e)) (JS.round (Element.amount e)).

(** What [balances[currency]] holds when the addition starts: 0 where it was
    [undefined]. *)
Definition initial (v : JS.value) : JS.value :=
  if JS.isUndefined v then JS.int 0 else v.

(** A record as [_getBalances] builds it: ['__proto__'] is no own property,
    and under the name of an inherited function it holds a string. *)
Definition built (r : JS.Rec) : Prop :=
  ∀ c p, JS.get r c = Some p →
    c ≠ "__proto__"
    ∧ (c ∈ JS.prototypeFunctions → ∃ o appended, p = JS.Text o appended).

(** Two records that differ only where one holds 0 and the other nothing,
    under a key that reads as [undefined] when absent. *)
Definition sameButZeros (r r' : JS.Rec) : Prop :=
  ∀ c, JS.get r c = JS.get r' c
       ∨ (JS.get r c = Some (JS.Num (JS.Finite 0)) ∧ JS.get r' c = None
          ∧ ordinary c).

(** Strictly ascending currency codes. *)
Definition currencyBelow (a b : Money.t) : Prop :=
  String.compare (Money.currency a) (Money.currency b) = Lt.

(** Every location of an array is an allocated object. *)
Definition heap_ok (h : Heap) (elements : list loc) : Prop :=
  Forall (λ l, (l < length h)%nat) elements.

(** The ids along an array of elements. *)
Definition idsOf (h : Heap) (elements : list loc) : list (option Z) :=
  (λ l, Element.id (deref h l)) <$> elements.

(** The candidates without an id: the ones [mergeElements] appends. *)
Definition newItems (items : list Element.IElement) : list Element.IElement :=
  filter (λ item, Element.id item = None) items.

(** Item [n] is the last candidate carrying id [k]. *)
Definition lastWithId (k : Z) (n : nat) (items : list Element.IElement) : Prop :=
  ∀ m item, (n < m)%nat → items !! m = Some item → Element.id item ≠ Some k.

(** The position of the first element bearing id [k]. *)
Definition positionOf (k : Z) (ids : list (option Z)) : option nat :=
  fst <$> list_find (λ x, x = Some k) ids.

(** Why [mergeElements] rejected: what each rejection says of its input. *)
Definition rejectionCause (h : Heap) (this : Transaction.t)
    (items : list Element.IElement) (h' : Heap) (err : MergeError) : Prop :=
  match err with
  | NoItems => items = []
  | TransactionIdMismatch i =>
      ∃ item, items !! i = Some item ∧ transactionIdMismatch this item = true
  | FirstMustBeNonChild =>
      ∃ first, items !! 0%nat = Some first
        ∧ JS.truthy (Element.parentId first) = true
  | IdNotFound k i =>
      ∃ item, items !! i = Some item ∧ Element.id item = Some k
  | NotBalanced =>
      ∃ elements,
        mergeLoop 0 items h (default [] (Transaction.elements this)) None
        = (h', inr elements)
        ∧ isBalanced (view h' elements) = false
  end.

(** The (date, id) pair of a transaction, in lexicographic order. *)
Definition pairBelow (p q : string * Z) : Prop :=
  String.compare p.1 q.1 = Lt ∨ (p.1 = q.1 ∧ p.2 < q.2).

(** The rows the type filter lets through: every row when no type is given,
    else the rows that have the given type, or one of the given types. *)
Definition selected (type : option TypeArg) (row : Store.TxnRow) : Prop :=
  match type with
  | None => True
  | Some (OneType ty) => Store.type row = Some ty
  | Some (TypeArray tys) => ∃ ty, ty ∈ tys ∧ Store.type row = Some ty
  end.

(** Transaction [k] is stored and passes the type filter. *)
Definition matching (s : Store.t) (type : option TypeArg) (k : Z)
    (row : Store.TxnRow) : Prop :=
  Store.txn s !! k = Some row ∧ selected type row.

(** The rows in the order of (date, id): the rows without a date come
    first, by id, as SQLite orders NULL; then the rows with a date, by
    (date, id). *)
Definition rowBelow (a b : Z * Store.TxnRow) : Prop :=
  match Store.date a.2, Store.date b.2 with
  | None, None => a.1 < b.1
  | None, Some _ => True
  | Some _, None => False
  | Some x, Some y => pairBelow (x, a.1) (y, b.1)
  end.

(** [r] is the id of the matching transaction with the greatest (date, id)
    strictly below [ref]. *)
Definition greatestBelow (s : Store.t) (type : option TypeArg)
    (ref : string * Z) (r : Z) : Prop :=
  ∃ row x,
    matching s type r row ∧ Store.date row = Some x ∧ pairBelow (x, r) ref
    ∧ ∀ k' row' x',
        matching s type k' row' → Store.date row' = Some x' →
        pairBelow (x', k') ref →
        k' = r ∨ pairBelow (x', k') (x, r).

Definition noneBelow (s : Store.t) (type : option TypeArg) (ref : string * Z)
  : Prop :=
  ∀ k row x,
    matching s type k row → Store.date row = Some x → ¬ pairBelow (x, k) ref.

(** [r] is the id of the matching transaction with the least (date, id)
    strictly above [ref]. *)
Definition leastAbove (s : Store.t) (type : option TypeArg)
    (ref : string * Z) (r : Z) : Prop :=
  ∃ row x,
    matching s type r row ∧ Store.date row = Some x ∧ pairBelow ref (x, r)
    ∧ ∀ k' row' x',
        matching s type k' row' → Store.date row' = Some x' →
        pairBelow ref (x', k') →
        k' = r ∨ pairBelow (x, r) (x', k').

Definition noneAbove (s : Store.t) (type : option TypeArg) (ref : string * Z)
  : Prop :=
  ∀ k row x,
    matching s type k row → Store.date row = Some x → ¬ pairBelow ref (x, k).

(** [r] is the id of the last (first) matching transaction in the order of
    (date, id): every other matching transaction is below (above) it. *)
Definition lastRow (s : Store.t) (type : option TypeArg) (r : Z) : Prop :=
  ∃ row,
    matching s type r row
    ∧ ∀ k' row', matching s type k' row' →
        k' = r ∨ rowBelow (k', row') (r, row).

Definition firstRow (s : Store.t) (type : option TypeArg) (r : Z) : Prop :=
  ∃ row,
    matching s type r row
    ∧ ∀ k' row', matching s type k' row' →
        k' = r ∨ rowBelow (r, row) (k', row').

Definition noRow (s : Store.t) (type : option TypeArg) : Prop :=
  ∀ k row, ¬ matching s type k row.

(** An element with amount 0 and no tax code: the deletion marker. *)
Definition zeroed (e : Element.IElement) : Prop :=
  Element.amount e = 0 ∧ JS.truthy_str (Element.taxCode e) = false.

(** An element with a parent reference: a pending in-memory parent, or a
    resolved [parentId]. *)
Definition parented (e : Element.TElement) : Prop :=
  is_Some (Element._parent e) ∨ JS.truthy (Element.parentId e) = true.

Global Instance zeroed_dec e : Decision (zeroed e).
Proof. unfold zeroed. apply _. Defined.
Global Instance parented_dec e : Decision (parented e).
Proof. unfold parented. apply _. Defined.

(** The partition of C3 in the spec's words: deleted are exactly the elements
    with amount 0, no taxCode and no pending-child relation; every element
    with a parent reference is in the children batch; everything else is in
    the parents batch. *)
Definition claimedBatches (h : Heap) (elements : list loc) (b : Batches) : Prop :=
  ∀ l, l ∈ elements →
    (l ∈ deletes b ↔ zeroed (deref h l) ∧ Element._parent (deref h l) = None)
    ∧ (parented (deref h l) → l ∈ children b)
    ∧ (l ∈ parents b
       ↔ ¬ (zeroed (deref h l) ∧ Element._parent (deref h l) = None)
         ∧ ¬ parented (deref h l)).


(** The in-memory elements and the store agree: the array has no repeated
    object, holds allocated objects only, no two of them carry the same id,
    and every id in use is below the id generator. *)
Definition store_ok (h : Heap) (s : Store.t) (elements : list loc) : Prop :=
  NoDup elements
  ∧ heap_ok h elements
  ∧ NoDup (omap (λ l, Element.id (deref h l)) elements)
  ∧ Forall (λ l, ∀ k, Element.id (deref h l) = Some k →
                 k < Store.txnElementSeq s) elements.

(** Two objects that differ at most in [transactionId]. *)
Definition sameButTransactionId (e e' : Element.TElement) : Prop :=
  Element.with_transactionId None e = Element.with_transactionId None e'.

(** ** Vocabulary of the further properties *)

(** The amount a list of balances gives for currency [c]. *)
Definition amountIn (c : string) (balances : list Money.t) : Z :=
  foldr (λ m acc, if decide (Money.currency m = c)
                  then JS.integer (Money.amount m) + acc else acc) 0 balances.

(** The ids of the survivors, when each has one. *)
Definition idOf (h : list Element.TElement) (l : nat) : Z :=
  default 0 (Element.id (deref h l)).

(** The objects the loop of [mergeElements] allocates for [items], the
    first of them at location [n], with [parent] the most recent non-child
    object so far. *)
Fixpoint prepared (n : nat) (parent : option nat)
    (items : list Element.IElement) : list Element.TElement :=
  match items with
  | [] => []
  | item :: rest =>
      let e := prepare parent item in
      e :: prepared (S n) (if isChildMarker e then parent else Some n) rest
  end.

(** The index of the most recent non-child candidate before candidate [n]. *)
Fixpoint lastNonChild (items : list Element.IElement) (n : nat) : option nat :=
  match n with
  | O => None
  | S m =>
      match items !! m with
      | Some item => if isChildMarker item then lastNonChild items m else Some m
      | None => lastNonChild items m
      end
  end.

(** Every id a candidate carries is the id of an element of the array. *)
Definition idsKnown (h : list Element.TElement) (elements : list nat)
    (items : list Element.IElement) : Prop :=
  Forall (λ item, ∀ k, Element.id item = Some k → Some k ∈ idsOf h elements)
    items.

(** No two of the objects [ls] carry the same id, and every id in use
    among them is below the id generator. *)
Definition ids_ok (h : list Element.TElement) (s : Store.t) (ls : list nat)
  : Prop :=
  (∀ l1 l2 k, l1 ∈ ls → l2 ∈ ls →
     Element.id (deref h l1) = Some k → Element.id (deref h l2) = Some k →
     l1 = l2)
  ∧ (∀ l k, l ∈ ls → Element.id (deref h l) = Some k →
       k < Store.txnElementSeq s).

(** A step on [l] that leaves the ids as they are, or gives [l] the next
    generated id, keeps [ids_ok]. *)
Definition idStep (h : list Element.TElement) (s : Store.t) (l : nat)
    (h' : list Element.TElement) (s' : Store.t) : Prop :=
  length h' = length h
  ∧ (∀ l', l' ≠ l → Element.id (deref h' l') = Element.id (deref h l'))
  ∧ ((Element.id (deref h' l) = Element.id (deref h l)
      ∧ Store.txnElementSeq s' = Store.txnElementSeq s)
     ∨ (Element.id (deref h l) = None
        ∧ Element.id (deref h' l) = Some (Store.txnElementSeq s)
        ∧ Store.txnElementSeq s' = Store.txnElementSeq s + 1)).

(** An element without what [_save] writes to it: its id, its
    [transactionId] and its [parentId]. *)
Definition blank (e : Element.IElement) : Element.IElement :=
  Element.mkIElement None None (Element.accountId e) (Element.drcr e)
    (Element.amount e) (Element.currency e) None (Element.settleId e)
    (Element.taxCode e) (Element.description e) (Element.useGross e).

(** [_save] changes nothing else of an element. *)
Definition sameKept (h h' : list Element.TElement) : Prop :=
  ∀ l, blank (deref h' l) = blank (deref h l).

(** The row carries a value wherever the object defines one. *)
Definition defines {A} (x y : option A) : Prop := ∀ v, x = Some v → y = Some v.

(** The row [row] is what saving the object [e] leaves in the store: the
    sign, the amount and the currency of [e], and every optional field that
    [e] defines. *)
Definition storedAs (e row : Element.IElement) : Prop :=
  Element.drcr row = Element.drcr e
  ∧ Element.amount row = Element.amount e
  ∧ Element.currency row = Element.currency e
  ∧ defines (Element.transactionId e) (Element.transactionId row)
  ∧ defines (Element.accountId e) (Element.accountId row)
  ∧ defines (Element.parentId e) (Element.parentId row)
  ∧ defines (Element.settleId e) (Element.settleId row)
  ∧ defines (Element.taxCode e) (Element.taxCode row)
  ∧ defines (Element.description e) (Element.description row)
  ∧ defines (Element.useGross e) (Element.useGross row).

(** Every id carried by an element of the array has a row. *)
Definition rows_ok (h : list Element.TElement) (s : Store.t)
    (elements : list nat) : Prop :=
  ∀ l k, l ∈ elements → Element.id (deref h l) = Some k →
    is_Some (Store.txnElement s !! k).

(** No row is stored at or above the id generator. *)
Definition seq_fresh (s : Store.t) : Prop :=
  ∀ k, Store.txnElementSeq s ≤ k → Store.txnElement s !! k = None.

(** The net balance, in currency [c], of the rows of account [accountId]
    that belong to transaction [k] or settle it. *)
Definition receivable (accountId : Z) (s : Store.t) (k : Z) (c : string) : Z :=
  balanceOf false c (filter (λ r, linked accountId k r = true) (elementRows s)).

(** The rows of a new payment: the debit of [Cash] and the credit of
    [AccountsReceivable] that settles transaction [i]. *)
Definition cashRow (Cash id tid amount : Z) (currency : string)
  : Element.IElement :=
  Element.mkIElement (Some id) (Some tid) (Some Cash) Element.Debit amount
    currency (Some 0) None None None None.

Definition dueRow (AccountsReceivable id tid amount : Z) (currency : string)
    (i : Z) : Element.IElement :=
  Element.mkIElement (Some id) (Some tid) (Some AccountsReceivable)
    Element.Credit amount currency (Some 0) (Some i) None None None.

(** The element loops of [_save] leave the rest of the store alone. *)
Definition sameTxn (s s' : Store.t) : Prop :=
  Store.txn s' = Store.txn s
  ∧ Store.txnSeq s' = Store.txnSeq s
  ∧ Store.lastSavedDate s' = Store.lastSavedDate s.

(** The elements that have an id are stored as they are, under ids from
    [seq0] on, and nothing else is stored from [seq0] on. *)
Definition freshly (seq0 : Z) (elements : list nat)
    (h : list Element.TElement) (s : Store.t) : Prop :=
  (∀ l k, l ∈ elements → Element.id (deref h l) = Some k →
     seq0 ≤ k < Store.txnElementSeq s
     ∧ Store.txnElement s !! k = Some (Element.fields (deref h l)))
  ∧ (∀ k, seq0 ≤ k → is_Some (Store.txnElement s !! k) →
       ∃ l, l ∈ elements ∧ Element.id (deref h l) = Some k).

(** A step on an element without an id: it changes this object only, and
    either leaves it without an id and the store as it is, or inserts it
    under the next id. *)
Definition freshStep (h : list Element.TElement) (s : Store.t) (l : nat)
    (h' : list Element.TElement) (s' : Store.t) : Prop :=
  length h' = length h
  ∧ (∀ l', l' ≠ l → deref h' l' = deref h l')
  ∧ ((Element.id (deref h' l) = None ∧ s' = s)
     ∨ (Element.id (deref h' l) = Some (Store.txnElementSeq s)
        ∧ Store.txnElement s'
          = <[Store.txnElementSeq s := Element.fields (deref h' l)]>
              (Store.txnElement s)
        ∧ Store.txnElementSeq s' = Store.txnElementSeq s + 1)).

(** What the children loop of [_save] requires of a child before it saves
    it: not [!e.parentId && e.amount == 0]. *)
Definition stays (e : Element.IElement) : Prop :=
  JS.truthy (Element.parentId e) = true ∨ Element.amount e ≠ 0.

(** The row an element with an id stands for. *)
Definition rowOfElement (h : list Element.TElement) (l : nat)
  : Z * Element.IElement :=
  (idOf h l, Element.fields (deref h l)).

(** * Theorems *)

(** ** Records built by assignment *)

Lemma get_set_eq {A} (r : list (string * A)) k v :
  JS.get (JS.set r k v) k = Some v.
Proof.
  induction r as [|[k' v'] r IH]; simpl.
  - by rewrite decide_True.
  - destruct (decide (k' = k)) as [->|Hne]; simpl.
    + by rewrite decide_True.
    + by rewrite decide_False.
Qed.

Lemma get_set_ne {A} (r : list (string * A)) k k' v :
  k ≠ k' → JS.get (JS.set r k v) k' = JS.get r k'.
Proof.
  intros Hne. induction r as [|[k0 v0] r IH]; simpl.
  - by rewrite decide_False.
  - destruct (decide (k0 = k)) as [->|Hne0]; simpl.
    + by rewrite !decide_False.
    + by rewrite IH.
Qed.

Lemma get_None_keys {A} (r : list (string * A)) k :
  JS.get r k = None ↔ k ∉ JS.keys r.
Proof.
  unfold JS.keys. induction r as [|[k0 v0] r IH]; simpl.
  - split; [intros _; apply not_elem_of_nil | done].
  - rewrite not_elem_of_cons. destruct (decide (k0 = k)) as [->|Hne].
    + split; [done | by intros [? _]].
    + rewrite IH. split; [by intros ?; split; [congruence|] | by intros [_ ?]].
Qed.

Lemma get_Some_keys {A} (r : list (string * A)) k :
  is_Some (JS.get r k) ↔ k ∈ JS.keys r.
Proof.
  destruct (JS.get r k) eqn:E.
  - split; [intros _ | by eauto].
    destruct (decide (k ∈ JS.keys r)) as [|Hn]; [done|].
    apply get_None_keys in Hn. congruence.
  - apply get_None_keys in E. split; [by intros [? ?] | done].
Qed.

Lemma keys_set {A} (r : list (string * A)) k v :
  JS.keys (JS.set r k v)
  = match JS.get r k with
    | Some _ => JS.keys r
    | None => JS.keys r ++ [k]
    end.
Proof.
  unfold JS.keys. induction r as [|[k0 v0] r IH]; [done|].
  cbn [JS.set JS.get]. destruct (decide (k0 = k)) as [->|Hne]; [done|].
  rewrite !fmap_cons, IH. by destruct (JS.get r k).
Qed.

Lemma keys_set_NoDup {A} (r : list (string * A)) k v :
  NoDup (JS.keys r) → NoDup (JS.keys (JS.set r k v)).
Proof.
  intros Hnd. rewrite keys_set. destruct (JS.get r k) eqn:E; [done|].
  apply NoDup_app. split_and!; [done| |apply NoDup_singleton].
  intros x Hx ->%list_elem_of_singleton. by apply get_None_keys in E.
Qed.

Lemma keys_write_NoDup r k p :
  NoDup (JS.keys r) → NoDup (JS.keys (JS.write r k p)).
Proof.
  unfold JS.write. destruct (decide (k = "__proto__")); [done|].
  apply keys_set_NoDup.
Qed.

Lemma get_write r k p c :
  JS.get (JS.write r k p) c
  = if decide (k = c ∧ c ≠ "__proto__") then Some p else JS.get r c.
Proof.
  unfold JS.write. destruct (decide (k = "__proto__")) as [->|Hk].
  - destruct (decide ("__proto__" = c ∧ c ≠ "__proto__")) as [[<- ?]|]; done.
  - destruct (decide (k = c)) as [<-|Hne].
    + rewrite get_set_eq. by rewrite decide_True.
    + rewrite get_set_ne by done. rewrite decide_False; [done|]. by intros [? _].
Qed.

Lemma read_write_eq r k p :
  k ≠ "__proto__" → JS.read (JS.write r k p) k = JS.Prim p.
Proof.
  intros Hk. unfold JS.read. rewrite get_write. by rewrite decide_True.
Qed.

(** Reading an ordinary key: the own property, or [undefined]. *)
Lemma read_ordinary r c :
  ordinary c →
  JS.read r c = match JS.get r c with
                | Some p => JS.Prim p
                | None => JS.Undefined
                end.
Proof.
  intros [Hp Hf]. unfold JS.read. destruct (JS.get r c); [done|].
  rewrite decide_False by done. by rewrite decide_False.
Qed.

(** ** Numbers *)

Lemma round_within z : within z → JS.round z = JS.Finite z.
Proof.
  unfold within, JS.round. intros Hz.
  destruct (Z.ltb_spec (Z.abs z) (2 ^ 53)) as [|Hge]; [done|].
  assert (z = 2 ^ 53 ∨ z = - 2 ^ 53) as [->| ->] by lia; reflexivity.
Qed.

Lemma add_within a b :
  within (a + b) → JS.add (JS.Finite a) (JS.Finite b) = JS.Finite (a + b).
Proof. apply round_within. Qed.

Lemma mul_within a b :
  within (a * b) → JS.mul (JS.Finite a) (JS.Finite b) = JS.Finite (a * b).
Proof. apply round_within. Qed.

Lemma within_0 : within 0.
Proof. unfold within. simpl. lia. Qed.

Lemma term_within sum e :
  within (Element.drcr e) → within (Element.amount e) →
  within (contribution sum e) →
  term sum e = JS.Finite (contribution sum e).
Proof.
  intros Hd Ha Hc. unfold term, contribution in *. destruct sum.
  - by apply round_within.
  - rewrite !round_within by done. by apply mul_within.
Qed.

(** ** Sums of contributions *)

Lemma balanceOf_cons sum c e l :
  balanceOf sum c (e :: l)
  = if decide (Element.currency e = c) then contribution sum e + balanceOf sum c l
    else balanceOf sum c l.
Proof. done. Qed.

Lemma currencies_cons e l :
  currencies (e :: l) = Element.currency e :: currencies l.
Proof. done. Qed.

Lemma balanceOf_app sum c a b :
  balanceOf sum c (a ++ b) = balanceOf sum c a + balanceOf sum c b.
Proof.
  induction a as [|e a IH]; [done|].
  rewrite <- app_comm_cons, !balanceOf_cons, IH.
  destruct (decide (Element.currency e = c)); lia.
Qed.

Lemma balanceOf_absent sum c l : c ∉ currencies l → balanceOf sum c l = 0.
Proof.
  induction l as [|e l IH]; [done|].
  rewrite currencies_cons, not_elem_of_cons, balanceOf_cons. intros [Hne Hnin].
  destruct (decide (Element.currency e = c)); [congruence|]. by apply IH.
Qed.

Lemma currencies_app a b : currencies (a ++ b) = currencies a ++ currencies b.
Proof. unfold currencies. apply map_app. Qed.

Lemma magnitude_cons sum e l :
  magnitude sum (e :: l) = Z.abs (contribution sum e) + magnitude sum l.
Proof. done. Qed.

Lemma magnitude_app sum a b :
  magnitude sum (a ++ b) = magnitude sum a + magnitude sum b.
Proof.
  induction a as [|e a IH]; [done|].
  rewrite <- app_comm_cons, !magnitude_cons, IH. lia.
Qed.

Lemma magnitude_nonneg sum l : 0 ≤ magnitude sum l.
Proof.
  induction l as [|e l IH]; [done|]. rewrite magnitude_cons. lia.
Qed.

Lemma balanceOf_magnitude sum c l : Z.abs (balanceOf sum c l) ≤ magnitude sum l.
Proof.
  induction l as [|e l IH]; [done|].
  rewrite balanceOf_cons, magnitude_cons.
  destruct (decide (Element.currency e = c)); lia.
Qed.

Lemma magnitude_Permutation sum l l' :
  l ≡ₚ l' → magnitude sum l = magnitude sum l'.
Proof.
  induction 1 as [|x l l' _ IH|x y l|l1 l2 l3 _ IH1 _ IH2].
  - done.
  - by rewrite !magnitude_cons, IH.
  - rewrite !magnitude_cons. lia.
  - congruence.
Qed.

Lemma exactOn_Permutation sum l l' : l ≡ₚ l' → exactOn sum l → exactOn sum l'.
Proof.
  intros Hperm [Hall Hm]. split.
  - by rewrite <- Hperm.
  - by rewrite <- (magnitude_Permutation sum l l').
Qed.

Lemma exactOn_app sum a b : exactOn sum (a ++ b) → exactOn sum a ∧ exactOn sum b.
Proof.
  intros [[Ha Hb]%Forall_app Hm]. rewrite magnitude_app in Hm.
  pose proof (magnitude_nonneg sum a). pose proof (magnitude_nonneg sum b).
  split; (split; [done|lia]).
Qed.

(** ** The balances record after the [forEach] *)

Lemma addBalance_get sum b e c :
  JS.get (addBalance sum b e) c
  = if decide (Element.currency e = c ∧ c ≠ "__proto__")
    then Some (JS.plus (initial (JS.read b c)) (term sum e))
    else JS.get b c.
Proof.
  unfold addBalance. fold (term sum e). rewrite get_write.
  destruct (decide (Element.currency e = c ∧ c ≠ "__proto__")) as [[<- Hp]|Hne].
  - f_equal. f_equal. unfold initial.
    destruct (JS.isUndefined (JS.read b (Element.currency e))); [|done].
    by apply read_write_eq.
  - destruct (JS.isUndefined (JS.read b (Element.currency e))); [|done].
    rewrite get_write. by rewrite decide_False.
Qed.

Lemma addBalance_NoDup sum b e :
  NoDup (JS.keys b) → NoDup (JS.keys (addBalance sum b e)).
Proof.
  intros Hnd. unfold addBalance. apply keys_write_NoDup.
  destruct (JS.isUndefined _); [|done]. by apply keys_write_NoDup.
Qed.

Lemma foldl_addBalance_NoDup sum elements b :
  NoDup (JS.keys b) → NoDup (JS.keys (foldl (addBalance sum) b elements)).
Proof.
  revert b. induction elements as [|e l IH]; intros b Hnd; simpl; [done|].
  by apply IH, addBalance_NoDup.
Qed.

(** The own keys: those there were, and the currencies of the elements
    other than ['__proto__']. *)
Lemma addBalance_keys sum b e c :
  c ∈ JS.keys (addBalance sum b e)
  ↔ c ∈ JS.keys b ∨ (Element.currency e = c ∧ c ≠ "__proto__").
Proof.
  rewrite <- !get_Some_keys, addBalance_get.
  destruct (decide (Element.currency e = c ∧ c ≠ "__proto__")) as [H|H].
  - split; [by right|by eauto].
  - split; [by left|]. by intros [?|?].
Qed.

Lemma foldl_addBalance_keys sum elements : ∀ b c,
  c ∈ JS.keys (foldl (addBalance sum) b elements)
  ↔ c ∈ JS.keys b ∨ (c ∈ currencies elements ∧ c ≠ "__proto__").
Proof.
  induction elements as [|e l IH]; intros b c.
  - cbn [foldl]. split; [by left|]. by intros [?|[?%elem_of_nil _]].
  - cbn [foldl]. rewrite IH, addBalance_keys, currencies_cons, elem_of_cons.
    split.
    + intros [[?|[<- ?]]|[? ?]]; [by left|right|right]; split; auto.
    + intros [?|[[->|?] ?]]; [by left; left|left; right|right]; auto.
Qed.

Lemma balances_keys elements sum c :
  c ∈ JS.keys (foldl (addBalance sum) [] elements)
  ↔ c ∈ currencies elements ∧ c ≠ "__proto__".
Proof.
  rewrite foldl_addBalance_keys. split; [|by right].
  by intros [?%elem_of_nil|?].
Qed.

(** On exact elements the record holds, for each currency, the Σ of the
    contributions. *)
Lemma foldl_addBalance_exactOn sum elements :
  exactOn sum elements →
  ∀ c, JS.get (foldl (addBalance sum) [] elements) c
       = if decide (c ∈ currencies elements)
         then Some (JS.Num (JS.Finite (balanceOf sum c elements)))
         else None.
Proof.
  induction elements as [|e l IH] using rev_ind; intros Hexact c.
  - cbn [foldl]. rewrite decide_False; [done|]. apply not_elem_of_nil.
  - destruct (exactOn_app _ _ _ Hexact) as [Hl [He _]].
    apply Forall_singleton in He as (Hord & Hd & Ha).
    destruct Hexact as [_ Hm]. rewrite magnitude_app, magnitude_cons in Hm.
    cbn [magnitude foldr] in Hm. fold (magnitude sum l) in Hm.
    pose proof (magnitude_nonneg sum l) as Hl0.
    pose proof (balanceOf_magnitude sum (Element.currency e) l) as Hb.
    rewrite foldl_app. cbn [foldl]. rewrite addBalance_get.
    rewrite currencies_app, balanceOf_app, balanceOf_cons.
    cbn [currencies map balanceOf foldr].
    destruct (decide (Element.currency e = c ∧ c ≠ "__proto__")) as [[<- _]|Hne].
    + rewrite decide_True by (apply elem_of_app; right; apply list_elem_of_here).
      rewrite decide_True by done. f_equal.
      rewrite read_ordinary, (IH Hl) by done.
      rewrite term_within by (done || unfold within; lia).
      destruct (decide (Element.currency e ∈ currencies l)) as [Hin|Hin];
        unfold initial, JS.int; cbn [JS.isUndefined JS.plus].
      * f_equal. rewrite add_within by (unfold within; lia). f_equal. lia.
      * rewrite (balanceOf_absent _ _ _ Hin) in *.
        f_equal. rewrite add_within by (unfold within; lia). f_equal. lia.
    + assert (Element.currency e ≠ c) as Hc.
      { intros <-. apply Hne. split; [done|]. by destruct Hord. }
      rewrite (decide_False (P := Element.currency e = c)) by done.
      rewrite (IH Hl), Z.add_0_r.
      destruct (decide (c ∈ currencies l)) as [Hin|Hin].
      * rewrite decide_True; [done|]. apply elem_of_app. by left.
      * rewrite decide_False; [done|].
        intros [?|?%list_elem_of_singleton]%elem_of_app; done.
Qed.

(** The record [_getBalances] builds is [built]. *)
Lemma addBalance_built sum b e : built b → built (addBalance sum b e).
Proof.
  intros Hb c p. rewrite addBalance_get.
  destruct (decide (Element.currency e = c ∧ c ≠ "__proto__")) as [[<- Hp]|Hne];
    [|apply Hb].
  intros [= <-]. split; [done|]. intros Hf. unfold JS.read.
  destruct (JS.get b (Element.currency e)) as [p|] eqn:E.
  - destruct (Hb _ _ E) as [_ Ht]. destruct (Ht Hf) as (o & l & ->).
    cbn. eauto.
  - rewrite decide_False by done. rewrite decide_True by done. cbn. eauto.
Qed.

Lemma foldl_addBalance_built sum elements : ∀ b,
  built b → built (foldl (addBalance sum) b elements).
Proof.
  induction elements as [|e l IH]; intros b Hb; [done|].
  cbn [foldl]. by apply IH, addBalance_built.
Qed.

Lemma built_nil : built [].
Proof. by intros c p. Qed.

(** Only the currency, the sign and the amount of an element reach the
    record. *)
Lemma addBalance_ext sum b e e' :
  Element.currency e' = Element.currency e →
  Element.drcr e' = Element.drcr e →
  Element.amount e' = Element.amount e →
  addBalance sum b e' = addBalance sum b e.
Proof. unfold addBalance. by intros -> -> ->. Qed.

Lemma foldl_addBalance_ext sum (f : Element.IElement → Element.IElement) l :
  (∀ e, Element.currency (f e) = Element.currency e
        ∧ Element.drcr (f e) = Element.drcr e
        ∧ Element.amount (f e) = Element.amount e) →
  ∀ b, foldl (addBalance sum) b (f <$> l) = foldl (addBalance sum) b l.
Proof.
  intros Hf. induction l as [|e l IH]; intros b; [done|].
  rewrite fmap_cons. cbn [foldl]. rewrite IH. f_equal.
  destruct (Hf e) as (? & ? & ?). by apply addBalance_ext.
Qed.

(** Records that differ only by zeros stay so. *)
Lemma addBalance_sameButZeros sum r r' e :
  sameButZeros r r' →
  sameButZeros (addBalance sum r e) (addBalance sum r' e).
Proof.
  intros Hsame c. rewrite !addBalance_get.
  destruct (decide (Element.currency e = c ∧ c ≠ "__proto__")) as [[<- Hp]|Hne];
    [|apply Hsame].
  left. f_equal. f_equal.
  destruct (Hsame (Element.currency e)) as [Heq|(Hz & Hn & Hord)].
  - unfold JS.read. by rewrite Heq.
  - rewrite !read_ordinary by done. by rewrite Hz, Hn.
Qed.

Lemma foldl_sameButZeros sum elements : ∀ r r',
  sameButZeros r r' →
  sameButZeros (foldl (addBalance sum) r elements)
    (foldl (addBalance sum) r' elements).
Proof.
  induction elements as [|e l IH]; intros r r' Hsame; [done|].
  cbn [foldl]. by apply IH, addBalance_sameButZeros.
Qed.

(** ** Sorting with a comparator *)

Section sort.
Context {A : Type} (cmp : A → A → Z).

Lemma insert_Permutation x l : JS.insert cmp x l ≡ₚ x :: l.
Proof.
  induction l as [|y l IH]; simpl; [done|].
  destruct (cmp x y <=? 0); [done|]. by rewrite IH, Permutation_swap.
Qed.

Lemma sort_Permutation l : JS.sort cmp l ≡ₚ l.
Proof.
  induction l as [|x l IH]; simpl; [done|].
  by rewrite insert_Permutation, IH.
Qed.

(** The comparator is consistent when "not after" is a total preorder [R]. *)
Context (R : relation A) `{!Total R, !Transitive R}.
Hypothesis cmp_spec : ∀ a b, cmp a b <= 0 ↔ R a b.

Lemma insert_StronglySorted x l :
  StronglySorted R l → StronglySorted R (JS.insert cmp x l).
Proof.
  induction 1 as [|y l Hs IH Hy]; simpl; [repeat constructor|].
  destruct (Z.leb_spec (cmp x y) 0) as [Hle|Hgt].
  - apply cmp_spec in Hle. constructor; [by constructor|]. constructor; [done|].
    eapply Forall_impl; [exact Hy|]. intros z Hz. by etrans.
  - constructor; [done|]. rewrite insert_Permutation. constructor; [|done].
    destruct (total R x y) as [Hxy|Hyx]; [|done].
    apply cmp_spec in Hxy. lia.
Qed.

Lemma sort_StronglySorted l : StronglySorted R (JS.sort cmp l).
Proof.
  induction l as [|x l IH]; simpl; [constructor|].
  by apply insert_StronglySorted.
Qed.

End sort.

Lemma orderByField_le {A} (field : A → string) a b :
  orderByField field a b <= 0 ↔ String.le (field a) (field b).
Proof.
  unfold orderByField, String.le, String.leb.
  destruct (String.compare (field a) (field b)); simpl; split; try done; lia.
Qed.

Lemma sort_orderByField_sorted {A} (field : A → string) l :
  StronglySorted (λ a b, String.le (field a) (field b))
    (JS.sort (orderByField field) l).
Proof.
  apply sort_StronglySorted.
  - intros a b. apply (total String.le).
  - intros a b c. apply (transitivity (R := String.le)).
  - intros a b. apply orderByField_le.
Qed.

(** ** What [_getBalances] returns *)

Lemma balanceOf_Permutation sum c l l' :
  l ≡ₚ l' → balanceOf sum c l = balanceOf sum c l'.
Proof.
  induction 1 as [|x l l' _ IH|x y l|l1 l2 l3 _ IH1 _ IH2].
  - done.
  - rewrite !balanceOf_cons, IH. done.
  - rewrite !balanceOf_cons. repeat case_decide; lia.
  - congruence.
Qed.


Lemma getBalances_Permutation_keys elements sum :
  _getBalances elements sum
  ≡ₚ (λ c, Money.mk (JS.read (foldl (addBalance sum) [] elements) c) c)
     <$> JS.keys (foldl (addBalance sum) [] elements).
Proof. unfold _getBalances. by rewrite sort_Permutation. Qed.

(** The entries of the result: one for each own property of the record. *)
Lemma getBalances_elem_of elements sum x :
  x ∈ _getBalances elements sum
  ↔ ∃ p, JS.get (foldl (addBalance sum) [] elements) (Money.currency x) = Some p
         ∧ Money.amount x = JS.Prim p.
Proof.
  rewrite getBalances_Permutation_keys, list_elem_of_fmap. split.
  - intros (c & -> & [p Hp]%get_Some_keys). exists p. split; [done|].
    cbn. unfold JS.read. by rewrite Hp.
  - intros (p & Hp & Ha). exists (Money.currency x). split.
    + destruct x as [a c]. cbn in *. subst a. unfold JS.read. by rewrite Hp.
    + apply get_Some_keys. by eexists.
Qed.

(** On exact elements: one entry for each currency, with the Σ of the
    contributions. *)
Lemma getBalances_exactOn_elem_of elements sum x :
  exactOn sum elements →
  x ∈ _getBalances elements sum
  ↔ Money.currency x ∈ currencies elements
    ∧ Money.amount x = JS.int (balanceOf sum (Money.currency x) elements).
Proof.
  intros Hexact. rewrite getBalances_elem_of.
  setoid_rewrite (foldl_addBalance_exactOn _ _ Hexact).
  destruct (decide (Money.currency x ∈ currencies elements)) as [Hin|Hin].
  - split; [by intros (p & [= <-] & ->)|]. intros [_ ->]. by eexists.
  - split; [by intros (p & ? & _)|by intros [? _]].
Qed.

Lemma getBalances_currencies sum elements c :
  c ∈ Money.currency <$> _getBalances elements sum
  ↔ c ∈ currencies elements ∧ c ≠ "__proto__".
Proof.
  rewrite getBalances_Permutation_keys, <- list_fmap_compose, <- balances_keys.
  rewrite !list_elem_of_fmap. split.
  - by intros (k & -> & Hk).
  - intros Hc. by exists c.
Qed.

Lemma getBalances_currencies_NoDup elements sum :
  NoDup (Money.currency <$> _getBalances elements sum).
Proof.
  rewrite getBalances_Permutation_keys, <- list_fmap_compose.
  generalize (foldl_addBalance_NoDup sum elements [] NoDup_nil_2).
  generalize (foldl (addBalance sum) [] elements). intros b.
  generalize (JS.keys b). intros ks Hks.
  replace (_ <$> ks) with ks; [done|].
  clear Hks. induction ks as [|k ks IH]; csimpl; by f_equal.
Qed.

Lemma StronglySorted_strict {A} (field : A → string) l :
  StronglySorted (λ a b, String.le (field a) (field b)) l →
  NoDup (field <$> l) →
  StronglySorted (λ a b, String.compare (field a) (field b) = Lt) l.
Proof.
  induction 1 as [|x l Hs IH Hx]; [constructor|].
  rewrite fmap_cons, NoDup_cons. intros [Hnotin Hnd].
  constructor; [by apply IH|].
  apply Forall_forall. intros y Hy.
  rewrite Forall_forall in Hx. specialize (Hx y Hy).
  unfold String.le, String.leb in Hx.
  destruct (String.compare (field x) (field y)) eqn:E; [|done..].
  apply String.compare_eq_iff in E. exfalso. apply Hnotin. rewrite E.
  by apply list_elem_of_fmap_2.
Qed.

Lemma getBalances_sorted elements sum :
  StronglySorted currencyBelow (_getBalances elements sum).
Proof.
  apply (StronglySorted_strict Money.currency).
  - apply sort_orderByField_sorted.
  - apply getBalances_currencies_NoDup.
Qed.

Lemma currencyBelow_asym a b : currencyBelow a b → currencyBelow b a → False.
Proof.
  unfold currencyBelow. intros H1 H2.
  rewrite String.compare_antisym, H2 in H1. done.
Qed.

(** In whatever order the keys of the balances are listed, sorting their
    entries gives the result of [_getBalances]. *)
Lemma getBalances_keys_order elements sum keys :
  keys ≡ₚ JS.keys (foldl (addBalance sum) [] elements) →
  JS.sort (orderByField Money.currency)
    ((λ c, Money.mk (JS.read (foldl (addBalance sum) [] elements) c) c)
       <$> keys)
  = _getBalances elements sum.
Proof.
  intros Hkeys.
  assert (JS.sort (orderByField Money.currency)
            ((λ c, Money.mk (JS.read (foldl (addBalance sum) [] elements) c) c)
               <$> keys)
          ≡ₚ _getBalances elements sum) as Hperm.
  { by rewrite sort_Permutation, getBalances_Permutation_keys, Hkeys. }
  apply (StronglySorted_unique_strong currencyBelow); [| | |done].
  - intros x1 x2 _ _ H1 H2. destruct (currencyBelow_asym _ _ H1 H2).
  - apply (StronglySorted_strict Money.currency).
    + apply sort_orderByField_sorted.
    + rewrite Hperm. apply getBalances_currencies_NoDup.
  - apply getBalances_sorted.
Qed.




Example getBalances_two_currencies :
  _getBalances [usd 1 10; eur (-1) 7; usd (-1) 4] false
  = [Money.mk (JS.int (-7)) "EUR"; Money.mk (JS.int 6) "USD"]
  ∧ getSums [usd 1 10; eur (-1) 7; usd (-1) 4]
    = [Money.mk (JS.int 7) "EUR"; Money.mk (JS.int 14) "USD"].
Proof. split; reflexivity. Qed.

(** A currency code that names an inherited function collects a string, and
    the elements of currency ['__proto__'] leave no entry. *)
Example getBalances_inherited :
  _getBalances
    [posting "constructor" 1 5; posting "constructor" (-1) 5;
     posting "__proto__" 1 7; eur 1 3] false
  = [Money.mk (JS.int 3) "EUR";
     Money.mk
       (JS.Prim (JS.Text (JS.SourceOf "constructor")
                   [JS.Finite 5; JS.Finite (-5)]))
       "constructor"].
Proof. reflexivity. Qed.

(** ** isBalanced *)

Lemma isZero_Prim p : JS.isZero (JS.Prim p) = true ↔ p = JS.Num (JS.Finite 0).
Proof.
  destruct p as [[z| |]|]; cbn; try (split; [done|by intros [=]]).
  rewrite Z.eqb_eq. split; [by intros ->|by intros [= ->]].
Qed.

(** [isBalanced] holds when every own property of the record is the number
    0. *)
Lemma isBalanced_record elements :
  isBalanced elements = true
  ↔ ∀ c p, JS.get (foldl (addBalance false) [] elements) c = Some p →
           p = JS.Num (JS.Finite 0).
Proof.
  unfold isBalanced. rewrite forallb_forall. split.
  - intros H c p Hp. apply isZero_Prim.
    apply (H (Money.mk (JS.Prim p) c)), list_elem_of_In, getBalances_elem_of.
    by exists p.
  - intros H x (p & Hp & Hx)%list_elem_of_In%getBalances_elem_of.
    rewrite Hx. apply isZero_Prim. by eapply H.
Qed.

(** On exact elements [isBalanced] is the balance invariant: every currency
    that appears among the elements has Σ drcr × amount = 0. *)
Lemma isBalanced_spec elements :
  exactOn false elements →
  isBalanced elements = true
  ↔ ∀ c, c ∈ currencies elements → balanceOf false c elements = 0.
Proof.
  intros Hexact. rewrite isBalanced_record.
  setoid_rewrite (foldl_addBalance_exactOn _ _ Hexact). split.
  - intros H c Hc. specialize (H c). rewrite decide_True in H by done.
    by specialize (H _ eq_refl) as [= ->].
  - intros H c p. destruct (decide (c ∈ currencies elements)); [|done].
    intros [= <-]. by rewrite H.
Qed.

(** A list is balanced when every currency nets to zero, present or not. *)
Lemma isBalanced_all elements :
  exactOn false elements →
  isBalanced elements = true ↔ ∀ c, balanceOf false c elements = 0.
Proof.
  intros Hexact. rewrite isBalanced_spec by done. split; [|by auto].
  intros H c. destruct (decide (c ∈ currencies elements)); [by apply H|].
  by apply balanceOf_absent.
Qed.

Lemma isBalanced_ext a b :
  exactOn false a → exactOn false b →
  (∀ c, balanceOf false c a = balanceOf false c b) → isBalanced a = isBalanced b.
Proof.
  intros Ha Hb H. apply eq_true_iff_eq. rewrite !isBalanced_all by done.
  split; intros Hz c; [rewrite <- H | rewrite H]; done.
Qed.

(** Only the currency, the sign and the amount of the elements reach
    [isBalanced]. *)
Lemma isBalanced_fields (f : Element.IElement → Element.IElement) l :
  (∀ e, Element.currency (f e) = Element.currency e
        ∧ Element.drcr (f e) = Element.drcr e
        ∧ Element.amount (f e) = Element.amount e) →
  isBalanced (f <$> l) = isBalanced l.
Proof.
  intros Hf. unfold isBalanced, _getBalances.
  by rewrite (foldl_addBalance_ext _ f l Hf).
Qed.

(** After a balanced list the record holds zeros only, under ordinary
    keys. *)
Lemma balanced_sameButZeros a :
  isBalanced a = true → sameButZeros (foldl (addBalance false) [] a) [].
Proof.
  intros Ha c. destruct (JS.get (foldl (addBalance false) [] a) c) as [p|] eqn:E;
    [|by left].
  right. pose proof E as ->%(proj1 (isBalanced_record a) Ha).
  split_and!; [done..|].
  destruct (foldl_addBalance_built false a [] built_nil _ _ E) as [Hp Hf].
  split; [done|]. intros (o & l & [=])%Hf.
Qed.

Lemma sameButZeros_balanced r r' :
  sameButZeros r r' →
  (∀ c p, JS.get r c = Some p → p = JS.Num (JS.Finite 0))
  ↔ (∀ c p, JS.get r' c = Some p → p = JS.Num (JS.Finite 0)).
Proof.
  intros Hsame. split; intros H c p Hp.
  - destruct (Hsame c) as [Heq|(_ & Hn & _)]; [|congruence].
    apply (H c). by rewrite Heq.
  - destruct (Hsame c) as [Heq|(Hz & _ & _)]; [|congruence].
    apply (H c). by rewrite <- Heq.
Qed.


(** ** The heap *)

Lemma deref_app_l (h hs : Heap) l : (l < length h)%nat → deref (h ++ hs) l = deref h l.
Proof. intros Hl. unfold deref. by rewrite lookup_total_app_l. Qed.

Lemma deref_app_new (h : Heap) e : deref (h ++ [e]) (length h) = e.
Proof.
  unfold deref. rewrite lookup_total_app_r by lia.
  by rewrite Nat.sub_diag.
Qed.

Lemma heap_ok_app h hs elements : heap_ok h elements → heap_ok (h ++ hs) elements.
Proof.
  unfold heap_ok. intros Hok. eapply Forall_impl; [exact Hok|].
  intros l Hl. simpl in *. rewrite length_app. lia.
Qed.

Lemma idsOf_app_heap h hs elements :
  heap_ok h elements → idsOf (h ++ hs) elements = idsOf h elements.
Proof.
  unfold heap_ok, idsOf. intros Hok. apply Forall_fmap_ext.
  eapply Forall_impl; [exact Hok|]. intros l Hl. simpl. by rewrite deref_app_l.
Qed.

Lemma view_app_heap h hs elements :
  heap_ok h elements → view (h ++ hs) elements = view h elements.
Proof.
  unfold heap_ok, view. intros Hok. apply Forall_fmap_ext.
  eapply Forall_impl; [exact Hok|]. intros l Hl. simpl. by rewrite deref_app_l.
Qed.

(** ** The loop of [mergeElements] *)

Lemma prepare_id parent item : Element.id (prepare parent item) = Element.id item.
Proof. unfold prepare. by destruct (isChildMarker _). Qed.

Lemma prepare_amount parent item :
  Element.amount (prepare parent item) = Element.amount item.
Proof. unfold prepare. by destruct (isChildMarker _). Qed.

(** One step of the loop, by cases on the candidate's id. *)
Lemma mergeLoop_cons i item rest h elements parent :
  mergeLoop i (item :: rest) h elements parent
  = let e := prepare parent item in
    let h1 := h ++ [e] in
    let parent1 := if isChildMarker e then parent else Some (length h) in
    match Element.id item with
    | None => mergeLoop (S i) rest h1 (elements ++ [length h]) parent1
    | Some k =>
        match list_find (λ l', Element.id (deref h1 l') = Some k) elements with
        | Some (j, _) => mergeLoop (S i) rest h1 (<[j := length h]> elements) parent1
        | None => (h1, inl (IdNotFound k i))
        end
    end.
Proof. cbn [mergeLoop]. by rewrite prepare_id. Qed.

Lemma positionOf_find h k elements :
  positionOf k (idsOf h elements)
  = fst <$> list_find (λ l', Element.id (deref h l') = Some k) elements.
Proof.
  unfold positionOf, idsOf. rewrite list_find_fmap.
  by destruct (list_find _ elements) as [[j l]|].
Qed.

Lemma positionOf_Some k ids j :
  positionOf k ids = Some j →
  ids !! j = Some (Some k) ∧ ∀ j', (j' < j)%nat → ids !! j' ≠ Some (Some k).
Proof.
  unfold positionOf. destruct (list_find _ ids) as [[j0 x]|] eqn:E; [|done].
  intros [= <-]. apply list_find_Some in E as (Hj & -> & Hlt). split; [done|].
  intros j' Hj' Hk. by eapply Hlt.
Qed.

Lemma positionOf_app_None k ids n :
  positionOf k (ids ++ replicate n None) = positionOf k ids.
Proof.
  unfold positionOf.
  assert (list_find (λ x : option Z, x = Some k) (replicate n None) = None) as Hn.
  { apply list_find_None, Forall_forall. by intros x [-> _]%elem_of_replicate. }
  destruct (list_find _ ids) as [[j x]|] eqn:E.
  - by rewrite (list_find_app_l _ _ _ _ _ E).
  - by rewrite list_find_app_r, Hn.
Qed.

Lemma mergeLoop_step i item rest h elements parent :
  heap_ok h elements →
  mergeLoop i (item :: rest) h elements parent
  = let e := prepare parent item in
    let h1 := h ++ [e] in
    let parent1 := if isChildMarker e then parent else Some (length h) in
    match Element.id item with
    | None => mergeLoop (S i) rest h1 (elements ++ [length h]) parent1
    | Some k =>
        match positionOf k (idsOf h elements) with
        | Some j => mergeLoop (S i) rest h1 (<[j := length h]> elements) parent1
        | None => (h1, inl (IdNotFound k i))
        end
    end.
Proof.
  intros Hok. rewrite mergeLoop_cons. cbv zeta.
  destruct (Element.id item) as [k|]; [|done].
  rewrite <- (idsOf_app_heap h [prepare parent item]) by done.
  rewrite positionOf_find.
  by destruct (list_find _ elements) as [[j l]|].
Qed.

Lemma heap_ok_push h e elements :
  heap_ok h elements → heap_ok (h ++ [e]) (elements ++ [length h]).
Proof.
  intros Hok. apply Forall_app. split; [by apply heap_ok_app|].
  apply Forall_singleton. rewrite length_app. simpl. lia.
Qed.

Lemma heap_ok_replace h e elements j :
  heap_ok h elements → heap_ok (h ++ [e]) (<[j := length h]> elements).
Proof.
  intros Hok. apply Forall_insert; [by apply heap_ok_app|].
  rewrite length_app. simpl. lia.
Qed.

Lemma idsOf_push h (e : Element.TElement) elements :
  heap_ok h elements →
  idsOf (h ++ [e]) (elements ++ [length h]) = idsOf h elements ++ [Element.id e].
Proof.
  intros Hok. unfold idsOf at 1. rewrite fmap_app. fold (idsOf (h ++ [e]) elements).
  rewrite idsOf_app_heap by done. simpl. by rewrite deref_app_new.
Qed.

Lemma idsOf_replace h (e : Element.TElement) elements j k :
  heap_ok h elements →
  positionOf k (idsOf h elements) = Some j →
  Element.id e = Some k →
  idsOf (h ++ [e]) (<[j := length h]> elements) = idsOf h elements.
Proof.
  intros Hok [Hj _]%positionOf_Some He. unfold idsOf at 1.
  rewrite list_fmap_insert. fold (idsOf (h ++ [e]) elements).
  rewrite idsOf_app_heap, deref_app_new, He by done.
  by apply list_insert_id.
Qed.

(** The ids along the working copy never move: a replacement keeps the id of
    its position, and what is appended has no id. *)
Lemma mergeLoop_ids items : ∀ i h elements parent h' elements',
  heap_ok h elements →
  mergeLoop i items h elements parent = (h', inr elements') →
  heap_ok h' elements'
  ∧ idsOf h' elements'
    = idsOf h elements ++ replicate (length (newItems items)) None.
Proof.
  induction items as [|item rest IH]; intros i h elements parent h' elements' Hok.
  - intros [= <- <-]. split; [done|]. simpl. by rewrite app_nil_r.
  - rewrite mergeLoop_step by done. cbv zeta. unfold newItems.
    destruct (Element.id item) as [k|] eqn:Hid.
    + rewrite filter_cons_False by (rewrite Hid; done).
      destruct (positionOf k (idsOf h elements)) as [j|] eqn:Hpos; [|done].
      intros Hrun. apply IH in Hrun as [Hok' Hids];
        [|by apply heap_ok_replace].
      split; [done|]. rewrite Hids. f_equal.
      eapply idsOf_replace; [done..|]. by rewrite prepare_id.
    + rewrite filter_cons_True by done.
      intros Hrun. apply IH in Hrun as [Hok' Hids]; [|by apply heap_ok_push].
      split; [done|]. rewrite Hids, idsOf_push, prepare_id, Hid by done.
      by rewrite <- app_assoc.
Qed.

(** The loop only allocates: the heap it returns is the heap it was given
    followed by the objects of the items it went through, in order. *)
Lemma mergeLoop_heap items : ∀ i h elements parent h' r,
  mergeLoop i items h elements parent = (h', r) →
  ∃ objs, h' = h ++ objs
    ∧ (∀ n e, objs !! n = Some e →
         ∃ p item, items !! n = Some item ∧ e = prepare p item)
    ∧ (∀ elements', r = inr elements' → length objs = length items).
Proof.
  induction items as [|item rest IH]; intros i h elements parent h' r.
  - intros [= <- <-]. exists []. rewrite app_nil_r. split_and!; [done| |done].
    intros n e. by rewrite lookup_nil.
  - rewrite mergeLoop_cons. cbv zeta.
    assert (∀ i' els' p',
      mergeLoop i' rest (h ++ [prepare parent item]) els' p' = (h', r) →
      ∃ objs, h' = h ++ objs
        ∧ (∀ n e, objs !! n = Some e →
             ∃ p item0, (item :: rest) !! n = Some item0 ∧ e = prepare p item0)
        ∧ (∀ elements', r = inr elements' → length objs = length (item :: rest)))
      as Hrest.
    { intros i' els' p' (objs & -> & Hobjs & Hlen)%IH.
      exists (prepare parent item :: objs). rewrite <- app_assoc.
      split_and!; [done| |].
      - intros [|n] e; simpl; [intros [= <-]; eauto|]. apply Hobjs.
      - intros els Hr. simpl. f_equal. by eapply Hlen. }
    destruct (Element.id item) as [k|]; [|by apply Hrest].
    destruct (list_find _ elements) as [[j l]|]; [by apply Hrest|].
    intros [= <- <-]. exists [prepare parent item]. split_and!; [done| |done].
    intros [|n] e; simpl; [intros [= <-]; eauto|]. by rewrite lookup_nil.
Qed.

(** A position whose id no later candidate carries is left alone. *)
Lemma mergeLoop_keep items : ∀ i h elements parent h' elements' j l,
  heap_ok h elements →
  mergeLoop i items h elements parent = (h', inr elements') →
  elements !! j = Some l →
  (∀ item k, item ∈ items → Element.id item = Some k →
     Element.id (deref h l) ≠ Some k) →
  elements' !! j = Some l.
Proof.
  induction items as [|item rest IH];
    intros i h elements parent h' elements' j l Hok.
  - by intros [= <- <-].
  - rewrite mergeLoop_step by done. cbv zeta. intros Hrun Hj Hids.
    assert (l < length h)%nat as Hl.
    { eapply Forall_lookup_1 in Hok; [|exact Hj]. done. }
    assert (∀ item0 k, item0 ∈ rest → Element.id item0 = Some k →
      Element.id (deref (h ++ [prepare parent item]) l) ≠ Some k) as Hids'.
    { intros item0 k Hin Hk. rewrite deref_app_l by done.
      eapply Hids; [|done]. by apply list_elem_of_further. }
    destruct (Element.id item) as [k|] eqn:Hid.
    + destruct (positionOf k (idsOf h elements)) as [j0|] eqn:Hpos; [|done].
      eapply IH; [|exact Hrun| |exact Hids']; [by apply heap_ok_replace|].
      rewrite list_lookup_insert_ne; [done|]. intros ->.
      apply positionOf_Some in Hpos as [Hpos _].
      unfold idsOf in Hpos. rewrite list_lookup_fmap, Hj in Hpos.
      simpl in Hpos. injection Hpos as Hpos.
      eapply Hids; [apply list_elem_of_here|exact Hid|exact Hpos].
    + eapply IH; [|exact Hrun| |exact Hids']; [by apply heap_ok_push|].
      by apply lookup_app_l_Some.
Qed.

(** A candidate with an id lands on the first position bearing that id, and
    stays there unless a later candidate carries the same id. *)
Lemma mergeLoop_replace items : ∀ i h elements parent h' elements' n item k,
  heap_ok h elements →
  mergeLoop i items h elements parent = (h', inr elements') →
  items !! n = Some item →
  Element.id item = Some k →
  ∃ j, positionOf k (idsOf h elements) = Some j
    ∧ (lastWithId k n items → elements' !! j = Some (length h + n)%nat).
Proof.
  induction items as [|item0 rest IH];
    intros i h elements parent h' elements' n item k Hok; [done|].
  rewrite mergeLoop_step by done. cbv zeta. intros Hrun Hn Hk.
  destruct n as [|n]; simpl in Hn.
  - injection Hn as ->. rewrite Hk in Hrun.
    destruct (positionOf k (idsOf h elements)) as [j|] eqn:Hpos; [|done].
    exists j. split; [done|]. intros Hlast. rewrite Nat.add_0_r.
    eapply mergeLoop_keep; [|exact Hrun| |]; [by apply heap_ok_replace| |].
    + apply list_lookup_insert_eq.
      apply positionOf_Some in Hpos as [Hpos _]. unfold idsOf in Hpos.
      apply lookup_lt_Some in Hpos. by rewrite length_fmap in Hpos.
    + intros item' k' [m Hm]%list_elem_of_lookup Hk'.
      rewrite deref_app_new, prepare_id, Hk. intros [= <-].
      by eapply (Hlast (S m)); [lia|exact Hm|].
  - assert (∀ i' els' p',
      heap_ok (h ++ [prepare parent item0]) els' →
      idsOf (h ++ [prepare parent item0]) els'
        = idsOf h elements ++ replicate (length (newItems [item0])) None →
      mergeLoop i' rest (h ++ [prepare parent item0]) els' p'
        = (h', inr elements') →
      ∃ j, positionOf k (idsOf h elements) = Some j
        ∧ (lastWithId k (S n) (item0 :: rest) →
           elements' !! j = Some (length h + S n)%nat)) as Hrest.
    { intros i' els' p' Hok' Hids' Hrun'.
      destruct (IH _ _ _ _ _ _ _ _ _ Hok' Hrun' Hn Hk) as (j & Hpos & Hlast).
      rewrite Hids', positionOf_app_None in Hpos.
      exists j. split; [done|]. intros Hl.
      rewrite length_app in Hlast. simpl in Hlast.
      replace (length h + S n)%nat with (length h + 1 + n)%nat by lia.
      apply Hlast. intros m item' Hm Hitem'.
      by eapply (Hl (S m)); [lia|exact Hitem']. }
    unfold newItems in Hrest.
    destruct (Element.id item0) as [k0|] eqn:Hid0.
    + destruct (positionOf k0 (idsOf h elements)) as [j0|] eqn:Hpos0; [|done].
      eapply Hrest; [| |exact Hrun]; [by apply heap_ok_replace|].
      rewrite filter_cons_False by (rewrite Hid0; done). simpl.
      rewrite app_nil_r. eapply idsOf_replace; [done..|].
      by rewrite prepare_id.
    + eapply Hrest; [| |exact Hrun]; [by apply heap_ok_push|].
      rewrite filter_cons_True by done. simpl.
      by rewrite idsOf_push, prepare_id, Hid0.
Qed.

Lemma mergeLoop_IdNotFound items : ∀ i h elements parent h' k n,
  mergeLoop i items h elements parent = (h', inl (IdNotFound k n)) →
  ∃ item, items !! (n - i)%nat = Some item ∧ Element.id item = Some k ∧ (i ≤ n)%nat.
Proof.
  induction items as [|item rest IH]; intros i h elements parent h' k n; [done|].
  rewrite mergeLoop_cons. cbv zeta.
  assert (∀ els' p',
    mergeLoop (S i) rest (h ++ [prepare parent item]) els' p'
      = (h', inl (IdNotFound k n)) →
    ∃ item0, (item :: rest) !! (n - i)%nat = Some item0
      ∧ Element.id item0 = Some k ∧ (i ≤ n)%nat) as Hrest.
  { intros els' p' (item0 & Hn & Hk & Hle)%IH. exists item0.
    replace (n - i)%nat with (S (n - S i)) by lia. split_and!; [done..|lia]. }
  destruct (Element.id item) as [k0|] eqn:Hid; [|by apply Hrest].
  destruct (list_find _ elements) as [[j l]|]; [by apply Hrest|].
  intros [= <- <- <-]. exists item. by rewrite Nat.sub_diag.
Qed.

Lemma mergeLoop_error_kind items : ∀ i h elements parent h' err,
  mergeLoop i items h elements parent = (h', inl err) → ∃ k n, err = IdNotFound k n.
Proof.
  induction items as [|item rest IH]; intros i h elements parent h' err; [done|].
  rewrite mergeLoop_cons. cbv zeta.
  destruct (Element.id item) as [k0|]; [|by apply IH].
  destruct (list_find _ elements) as [[j l]|]; [by apply IH|].
  intros [= <- <-]. eauto.
Qed.

(** ** mergeElements *)

(** What a settled [mergeElements] did, by outcome. *)
Lemma mergeElements_inv h this items h' this' out :
  mergeElements h this items = (h', this', out) →
  match out with
  | Resolved =>
      ∃ elements,
        mergeLoop 0 items h (default [] (Transaction.elements this)) None
        = (h', inr elements)
        ∧ isBalanced (view h' elements) = true
        ∧ this' = Transaction.with_elements (Some elements) this
  | Rejected err => this' = this ∧ rejectionCause h this items h' err
  end.
Proof.
  unfold mergeElements. destruct items as [|first rest].
  { by intros [= <- <- <-]. }
  destruct (list_find _ (first :: rest)) as [[i item]|] eqn:Hfind.
  { intros [= <- <- <-]. split; [done|].
    apply list_find_Some in Hfind as (Hi & Hitem & _). simpl. eauto. }
  destruct (JS.truthy (Element.parentId first)) eqn:Hfirst.
  { intros [= <- <- <-]. split; [done|]. simpl. eauto. }
  destruct (mergeLoop 0 (first :: rest) h _ None) as [h1 [err|elements]] eqn:Hloop.
  { intros [= <- <- <-]. split; [done|].
    destruct (mergeLoop_error_kind _ _ _ _ _ _ _ Hloop) as (k & n & ->).
    apply mergeLoop_IdNotFound in Hloop as (item & Hn & Hk & _).
    rewrite Nat.sub_0_r in Hn. simpl. eauto. }
  destruct (isBalanced (view h1 elements)) eqn:Hbal; simpl.
  - intros [= <- <- <-]. eauto.
  - intros [= <- <- <-]. split; [done|]. simpl. eauto.
Qed.

(** C1, as the code has it. When [mergeElements] succeeds, the transaction's
    resulting elements satisfy [isBalanced]; and when the aggregator computes
    exactly on them (no currency code names a property every object
    inherits, signs and amounts are within [2^53], and the absolute values of
    drcr × amount total at most [2^53]), then for every currency appearing
    among them the sum of drcr × amount over the elements of that currency
    is 0. *)
Theorem mergeElements_balanced h this items h' this' :
  mergeElements h this items = (h', this', Resolved) →
  ∃ elements,
    Transaction.elements this' = Some elements
    ∧ isBalanced (view h' elements) = true
    ∧ (exactOn false (view h' elements) →
       ∀ c, c ∈ currencies (view h' elements) →
         balanceOf false c (view h' elements) = 0).
Proof.
  intros (elements & _ & Hbal & ->)%mergeElements_inv.
  exists elements. split_and!; [done..|]. intros Hexact.
  by apply isBalanced_spec.
Qed.

Lemma mergeElements_balanced_witness :
  mergeElements [] emptyTransaction [usd 1 10; usd (-1) 10]
  = ([prepare None (usd 1 10); prepare None (usd (-1) 10)],
     Transaction.with_elements (Some [0; 1]%nat) emptyTransaction, Resolved)
  ∧ exactOn false
      (view [prepare None (usd 1 10); prepare None (usd (-1) 10)] [0; 1]%nat)
  ∧ isBalanced
      (view [prepare None (usd 1 10); prepare None (usd (-1) 10)] [0; 1]%nat)
    = true
  ∧ ∀ c,
      c ∈ currencies
        (view [prepare None (usd 1 10); prepare None (usd (-1) 10)]
           [0; 1]%nat) →
      balanceOf false c
        (view [prepare None (usd 1 10); prepare None (usd (-1) 10)]
           [0; 1]%nat) = 0.
Proof.
  assert (exactOn false
    (view [prepare None (usd 1 10); prepare None (usd (-1) 10)] [0; 1]%nat))
    as Hexact by compute_done.
  split; [reflexivity|]. split; [exact Hexact|].
  destruct (mergeElements_balanced [] emptyTransaction
              [usd 1 10; usd (-1) 10]
              [prepare None (usd 1 10); prepare None (usd (-1) 10)]
              (Transaction.with_elements (Some [0; 1]%nat) emptyTransaction)
              eq_refl) as (elements & [= <-] & Hbal & Hsum).
  split; [exact Hbal|]. exact (Hsum Hexact).
Defined.

(** C1, as the spec words it, fails from [2^53] on, where the sum of two
    doubles is rounded: with a debit of 2^53, a debit of 1 and a credit of
    2^53 the running balance is 2^53, 2^53 again, then 0, so the candidates
    are accepted, and the sum of drcr × amount is 1. *)
Lemma mergeElements_balanced_counterexample :
  ∃ h' this' elements,
    mergeElements [] emptyTransaction
      [usd 1 (2 ^ 53); usd 1 1; usd (-1) (2 ^ 53)]
    = (h', this', Resolved)
    ∧ Transaction.elements this' = Some elements
    ∧ "USD" ∈ currencies (view h' elements)
    ∧ balanceOf false "USD" (view h' elements) = 1.
Proof.
  eexists _, _, _. split; [by vm_compute|].
  split; [reflexivity|]. split; [compute_done|]. by vm_compute.
Qed.

(** It fails as well on a currency code that names an inherited property:
    an element of currency ['__proto__'] never reaches the balances. *)
Example mergeElements_inherited_key :
  ∃ h' this',
    mergeElements [] emptyTransaction [posting "__proto__" 1 5]
    = (h', this', Resolved).
Proof. eexists _, _. by vm_compute. Qed.

(** C2. When [mergeElements] fails (no items, a transactionId mismatch, a
    child in first place, an unknown id, or an unbalanced working copy), the
    transaction is left as it was, its [elements] field included, and no
    existing object is touched; only on full success is [elements] replaced by
    the working copy. *)
Theorem mergeElements_fail_closed h this items h' this' out :
  mergeElements h this items = (h', this', out) →
  (∀ l e, h !! l = Some e → h' !! l = Some e)
  ∧ match out with
    | Rejected err =>
        this' = this
        ∧ Transaction.elements this' = Transaction.elements this
        ∧ rejectionCause h this items h' err
    | Resolved =>
        ∃ elements,
          mergeLoop 0 items h (default [] (Transaction.elements this)) None
          = (h', inr elements)
          ∧ Transaction.elements this' = Some elements
    end.
Proof.
  intros Hrun. split.
  - assert (∃ objs, h' = h ++ objs) as [objs ->].
    { revert Hrun. unfold mergeElements. destruct items as [|first rest].
      { intros [= <- _ _]. exists []. by rewrite app_nil_r. }
      destruct (list_find _ (first :: rest)) as [[i item]|].
      { intros [= <- _ _]. exists []. by rewrite app_nil_r. }
      destruct (JS.truthy (Element.parentId first)).
      { intros [= <- _ _]. exists []. by rewrite app_nil_r. }
      destruct (mergeLoop 0 (first :: rest) h _ None) as [h1 r] eqn:Hloop.
      apply mergeLoop_heap in Hloop as (objs & -> & _).
      destruct r as [err|elements]; [by intros [= <- _ _]; eauto|].
      destruct (negb _); intros [= <- _ _]; eauto. }
    intros l e Hl. by apply lookup_app_l_Some.
  - apply mergeElements_inv in Hrun. destruct out as [|err].
    + destruct Hrun as (elements & Hloop & _ & ->). eauto.
    + destruct Hrun as [-> Hcause]. done.
Qed.

Lemma mergeElements_fail_closed_witness :
  mergeElements [] emptyTransaction [usd 1 10]
  = ([prepare None (usd 1 10)], emptyTransaction, Rejected NotBalanced)
  ∧ (∀ l e, ([] : Heap) !! l = Some e → [prepare None (usd 1 10)] !! l = Some e)
  ∧ emptyTransaction = emptyTransaction
  ∧ Transaction.elements emptyTransaction = Transaction.elements emptyTransaction
  ∧ rejectionCause [] emptyTransaction [usd 1 10] [prepare None (usd 1 10)]
      NotBalanced.
Proof.
  split; [reflexivity|].
  apply (mergeElements_fail_closed [] emptyTransaction [usd 1 10]
           [prepare None (usd 1 10)] emptyTransaction (Rejected NotBalanced)).
  reflexivity.
Defined.

(** C6. After a successful [mergeElements], the element list has the length
    of the previous list plus the number of candidates without an id, the ids
    of the previous positions are where they were, and each candidate
    carrying an id [k] took the place of the existing element bearing [k] (the
    first one): that position still bears [k], and it holds the candidate's
    own object when no later candidate carries the same id. *)
Theorem mergeElements_in_place h this items h' this' :
  heap_ok h (default [] (Transaction.elements this)) →
  mergeElements h this items = (h', this', Resolved) →
  ∃ elements,
    Transaction.elements this' = Some elements
    ∧ length elements
      = (length (default [] (Transaction.elements this))
         + length (newItems items))%nat
    ∧ idsOf h' (take (length (default [] (Transaction.elements this))) elements)
      = idsOf h (default [] (Transaction.elements this))
    ∧ ∀ n item k,
        items !! n = Some item →
        Element.id item = Some k →
        ∃ j,
          positionOf k (idsOf h (default [] (Transaction.elements this))) = Some j
          ∧ idsOf h' elements !! j = Some (Some k)
          ∧ (lastWithId k n items →
             elements !! j = Some (length h + n)%nat
             ∧ ∃ parent, h' !! (length h + n)%nat = Some (prepare parent item)).
Proof.
  intros Hok (elements & Hloop & _ & ->)%mergeElements_inv.
  set (old := default [] (Transaction.elements this)) in *.
  exists elements. split; [done|].
  destruct (mergeLoop_ids _ _ _ _ _ _ _ Hok Hloop) as [Hok' Hids].
  assert (length elements = (length old + length (newItems items))%nat) as Hlen.
  { apply (f_equal length) in Hids. unfold idsOf in Hids.
    by rewrite length_app, !length_fmap, length_replicate in Hids. }
  split; [done|]. split.
  { unfold idsOf in *. rewrite fmap_take, Hids.
    rewrite take_app_length'; [done|]. by rewrite length_fmap. }
  intros n item k Hn Hk.
  destruct (mergeLoop_replace _ _ _ _ _ _ _ _ _ _ Hok Hloop Hn Hk)
    as (j & Hpos & Hlast).
  exists j. split; [done|]. split.
  { rewrite Hids. apply lookup_app_l_Some.
    by apply positionOf_Some in Hpos as [? _]. }
  intros Hl. split; [by apply Hlast|].
  destruct (mergeLoop_heap _ _ _ _ _ _ _ Hloop) as (objs & -> & Hobjs & Hlen').
  specialize (Hlen' _ eq_refl).
  assert (is_Some (objs !! n)) as [e He].
  { apply lookup_lt_is_Some. rewrite Hlen'. by eapply lookup_lt_Some. }
  destruct (Hobjs _ _ He) as (p & item' & Hn' & ->).
  rewrite Hn in Hn'. injection Hn' as <-. exists p.
  rewrite lookup_app_r by lia. by replace (length h + n - length h)%nat with n by lia.
Qed.

Lemma mergeElements_in_place_witness :
  heap_ok ledgerHeap (default [] (Transaction.elements ledger))
  ∧ ∃ elements,
      Transaction.elements (mergeElements ledgerHeap ledger ledgerEdit).1.2
      = Some elements
      ∧ length elements
        = (length (default [] (Transaction.elements ledger))
           + length (newItems ledgerEdit))%nat
      ∧ idsOf (mergeElements ledgerHeap ledger ledgerEdit).1.1
          (take (length (default [] (Transaction.elements ledger))) elements)
        = idsOf ledgerHeap (default [] (Transaction.elements ledger))
      ∧ ∀ n item k,
          ledgerEdit !! n = Some item →
          Element.id item = Some k →
          ∃ j,
            positionOf k
              (idsOf ledgerHeap (default [] (Transaction.elements ledger)))
            = Some j
            ∧ idsOf (mergeElements ledgerHeap ledger ledgerEdit).1.1 elements
                !! j = Some (Some k)
            ∧ (lastWithId k n ledgerEdit →
               elements !! j = Some (length ledgerHeap + n)%nat
               ∧ ∃ parent,
                   (mergeElements ledgerHeap ledger ledgerEdit).1.1
                     !! (length ledgerHeap + n)%nat
                   = Some (prepare parent item)).
Proof.
  assert (heap_ok ledgerHeap (default [] (Transaction.elements ledger))) as Hok.
  { repeat constructor. }
  split; [exact Hok|].
  apply (mergeElements_in_place ledgerHeap ledger ledgerEdit
           (mergeElements ledgerHeap ledger ledgerEdit).1.1
           (mergeElements ledgerHeap ledger ledgerEdit).1.2 Hok).
  reflexivity.
Defined.

Example mergeElements_ledgerEdit :
  (mergeElements ledgerHeap ledger ledgerEdit).2 = Resolved
  ∧ Transaction.elements (mergeElements ledgerHeap ledger ledgerEdit).1.2
    = Some [0; 2; 3]%nat
  ∧ view (mergeElements ledgerHeap ledger ledgerEdit).1.1 [0; 2; 3]%nat
    = [Element.fields (stored 1 (usd Element.Debit 10));
       Element.fields
         (Element.with_parentId (Some 0) (stored 2 (usd Element.Credit 15)));
       Element.fields
         (Element.with_parentId (Some 0)
            (Element.construct (usd Element.Debit 5)))].
Proof. split_and!; reflexivity. Qed.

(** C10. [mergeElements] makes no check of the sign of an amount: the
    candidates Debit -5 and Credit -5 of one currency are accepted, and the
    negative amounts are stored in the transaction's element list as they
    are. *)
Theorem mergeElements_negative_amounts :
  ∃ h' this' elements,
    mergeElements [] emptyTransaction
      [usd Element.Debit (-5); usd Element.Credit (-5)]
    = (h', this', Resolved)
    ∧ Transaction.elements this' = Some elements
    ∧ Element.amount <$> view h' elements = [-5; -5]
    ∧ Element.drcr <$> view h' elements = [Element.Debit; Element.Credit].
Proof. do 3 eexists. split_and!; reflexivity. Qed.

(** Whatever the amounts are, the object built for a candidate carries the
    candidate's amount. *)
Lemma mergeElements_amount h this items h' this' n item :
  mergeElements h this items = (h', this', Resolved) →
  items !! n = Some item →
  Element.amount (deref h' (length h + n)) = Element.amount item.
Proof.
  intros (elements & Hloop & _)%mergeElements_inv Hn.
  destruct (mergeLoop_heap _ _ _ _ _ _ _ Hloop) as (objs & -> & Hobjs & Hlen).
  specialize (Hlen _ eq_refl).
  assert (is_Some (objs !! n)) as [e He].
  { apply lookup_lt_is_Some. rewrite Hlen. by eapply lookup_lt_Some. }
  destruct (Hobjs _ _ He) as (p & item' & Hn' & ->).
  rewrite Hn in Hn'. injection Hn' as <-.
  unfold deref. rewrite lookup_total_app_r by lia.
  replace (length h + n - length h)%nat with n by lia.
  by rewrite (list_lookup_total_correct _ _ _ He), prepare_amount.
Qed.

(** ** save *)

(** The not-balanced rejection needs an element list that does not balance. *)
Lemma save_not_balanced_inv isDateOnly h s this :
  (save isDateOnly h s this).2 = Rejected ElementsDoNotBalance →
  ∃ elements,
    Transaction.elements this = Some elements
    ∧ isBalanced (view h elements) = false.
Proof.
  unfold save. destruct (negb _ || negb _); [done|].
  unfold balanced. destruct (Transaction.elements this) as [elements|]; [|done].
  destruct (isBalanced (view h elements)) eqn:Hbal; [done|]. eauto.
Qed.

(** C8. A transaction whose [elements] field is undefined is [balanced], so
    [save] does not reject it with the not-balanced error (with a valid date
    it resolves); the balance precondition is only enforced on a transaction
    that has an element list. *)
Theorem save_without_elements (isDateOnly : string → bool) h s this :
  Transaction.elements this = None →
  balanced h this = true
  ∧ (save isDateOnly h s this).2 ≠ Rejected ElementsDoNotBalance
  ∧ (∀ d, Transaction.date this = Some d → d ≠ "" → isDateOnly d = true →
       (save isDateOnly h s this).2 = Resolved)
  ∧ (∀ this0,
       (save isDateOnly h s this0).2 = Rejected ElementsDoNotBalance →
       is_Some (Transaction.elements this0)).
Proof.
  intros Hnone. unfold balanced. rewrite Hnone. split_and!.
  - done.
  - intros (elements & He & _)%save_not_balanced_inv. congruence.
  - intros d Hd Hne Hvalid. unfold save, balanced. rewrite Hd, Hnone. simpl.
    rewrite Hvalid. destruct (String.eqb_spec d ""); done.
  - intros this0 (elements & -> & _)%save_not_balanced_inv. eauto.
Qed.

Lemma save_without_elements_witness :
  Transaction.elements emptyTransaction = None
  ∧ balanced [] emptyTransaction = true
  ∧ (save (λ _, true) [] scenarioD emptyTransaction).2
    ≠ Rejected ElementsDoNotBalance
  ∧ (∀ d, Transaction.date emptyTransaction = Some d → d ≠ "" →
       (λ _ : string, true) d = true →
       (save (λ _, true) [] scenarioD emptyTransaction).2 = Resolved)
  ∧ (∀ this0,
       (save (λ _, true) [] scenarioD this0).2 = Rejected ElementsDoNotBalance →
       is_Some (Transaction.elements this0)).
Proof.
  split; [reflexivity|].
  apply (save_without_elements (λ _, true) [] scenarioD emptyTransaction).
  reflexivity.
Defined.

(** ** The order of (date, id) *)

Lemma String_compare_refl x : String.compare x x = Eq.
Proof.
  induction x as [|a x IH]; simpl; [done|].
  unfold Ascii.compare. by rewrite N.compare_refl.
Qed.

Lemma String_compare_lt_trans x y z :
  String.compare x y = Lt → String.compare y z = Lt → String.compare x z = Lt.
Proof.
  intros Hxy Hyz.
  assert (String.le x z) as Hle.
  { trans y; unfold String.le, String.leb; [by rewrite Hxy | by rewrite Hyz]. }
  unfold String.le, String.leb in Hle.
  destruct (String.compare x z) eqn:Hxz; [|done..].
  apply String.compare_eq_iff in Hxz as ->.
  rewrite String.compare_antisym, Hxy in Hyz. done.
Qed.

Lemma compareDate_antisym a b : compareDate a b = CompOpp (compareDate b a).
Proof. destruct a, b; simpl; try done. apply String.compare_antisym. Qed.

Lemma compareDate_eq a b : compareDate a b = Eq → a = b.
Proof.
  destruct a, b; simpl; try done. by intros ->%String.compare_eq_iff.
Qed.

Lemma compareDate_refl a : compareDate a a = Eq.
Proof. destruct a; simpl; [apply String_compare_refl | done]. Qed.

Lemma compareDate_lt_trans a b c :
  compareDate a b = Lt → compareDate b c = Lt → compareDate a c = Lt.
Proof. destruct a, b, c; simpl; try done. apply String_compare_lt_trans. Qed.

Lemma compareRow_antisym a b : compareRow a b = CompOpp (compareRow b a).
Proof.
  unfold compareRow. rewrite (compareDate_antisym (Store.date a.2)).
  destruct (compareDate (Store.date b.2) (Store.date a.2)); simpl; try done.
  apply Z.compare_antisym.
Qed.

Lemma compareRow_Lt a b :
  compareRow a b = Lt
  ↔ compareDate (Store.date a.2) (Store.date b.2) = Lt
    ∨ (Store.date a.2 = Store.date b.2 ∧ a.1 < b.1).
Proof.
  unfold compareRow.
  destruct (compareDate _ _) eqn:E.
  - apply compareDate_eq in E. rewrite Z.compare_lt_iff.
    split; [by intros ?; right | by intros [?|[_ ?]]].
  - split; [by left | done].
  - split; [done|]. intros [?|[Heq _]]; [done|].
    rewrite Heq, compareDate_refl in E. done.
Qed.

Lemma compareRow_Eq a b :
  compareRow a b = Eq ↔ Store.date a.2 = Store.date b.2 ∧ a.1 = b.1.
Proof.
  unfold compareRow.
  destruct (compareDate _ _) eqn:E.
  - apply compareDate_eq in E. rewrite Z.compare_eq_iff.
    split; [done | by intros [_ ?]].
  - split; [done|]. intros [Heq _]. rewrite Heq, compareDate_refl in E. done.
  - split; [done|]. intros [Heq _]. rewrite Heq, compareDate_refl in E. done.
Qed.

Lemma compareRow_le_trans a b c :
  compareRow a b ≠ Gt → compareRow b c ≠ Gt → compareRow a c ≠ Gt.
Proof.
  intros Hab Hbc.
  assert (∀ x y, compareRow x y ≠ Gt →
    compareRow x y = Lt ∨ (Store.date x.2 = Store.date y.2 ∧ x.1 = y.1)) as Hcases.
  { intros x y H. destruct (compareRow x y) eqn:E; [|by left|done].
    right. by apply compareRow_Eq. }
  apply Hcases in Hab, Hbc.
  assert (compareRow a c = Lt ∨ compareRow a c = Eq) as [->| ->]; [|done..].
  rewrite compareRow_Lt, compareRow_Eq.
  rewrite !compareRow_Lt in Hab, Hbc.
  destruct Hab as [[Hab|[Hab1 Hab2]]|[Hab1 Hab2]],
           Hbc as [[Hbc|[Hbc1 Hbc2]]|[Hbc1 Hbc2]].
  - left. left. by eapply compareDate_lt_trans.
  - left. left. by rewrite <- Hbc1.
  - left. left. by rewrite <- Hbc1.
  - left. left. by rewrite Hab1.
  - left. right. split; [congruence | lia].
  - left. right. split; [congruence | lia].
  - left. left. by rewrite Hab1.
  - left. right. split; [congruence | lia].
  - right. split; [congruence | lia].
Qed.

Lemma compareRow_le_total a b : compareRow a b ≠ Gt ∨ compareRow b a ≠ Gt.
Proof.
  rewrite (compareRow_antisym b a).
  destruct (compareRow a b); simpl; auto.
Qed.

Lemma orderAsc_le a b : orderAsc a b <= 0 ↔ compareRow a b ≠ Gt.
Proof. unfold orderAsc. destruct (compareRow a b); split; try done; lia. Qed.

(** ** The first row of an ordered query *)

Lemma firstId_sorted (cmp : Z * Store.TxnRow → Z * Store.TxnRow → Z)
    (R : relation (Z * Store.TxnRow))
    (R_total : ∀ a b, R a b ∨ R b a)
    (R_trans : ∀ a b c, R a b → R b c → R a c)
    (cmp_spec : ∀ a b, cmp a b <= 0 ↔ R a b) (q : list (Z * Store.TxnRow)) :
  (q = [] ∧ firstId (take 1 (JS.sort cmp q)) = 0)
  ∨ (∃ x, x ∈ q ∧ firstId (take 1 (JS.sort cmp q)) = x.1 ∧ ∀ y, y ∈ q → R x y).
Proof.
  pose proof (sort_Permutation cmp q) as Hperm.
  pose proof (@sort_StronglySorted _ cmp R R_total R_trans cmp_spec q)
    as Hsorted.
  destruct (JS.sort cmp q) as [|x rest].
  - left. split; [|done]. by apply Permutation_nil_l in Hperm.
  - right. exists x. split; [|split; [done|]].
    + rewrite <- Hperm. apply list_elem_of_here.
    + intros y Hy. rewrite <- Hperm in Hy.
      apply StronglySorted_cons in Hsorted as [Hx _].
      apply elem_of_cons in Hy as [->|Hy].
      * by destruct (R_total x x).
      * rewrite Forall_forall in Hx. by apply Hx.
Qed.

(** ** prevId and nextId *)

Lemma usable_Some i d :
  i ≠ 0 → d ≠ "" → usable (Some (Ref.mk (Some i) (Some d))) = Some (d, i).
Proof.
  intros Hi Hd. simpl. destruct (Z.eqb_spec i 0); [done|].
  by destruct (String.eqb_spec d "").
Qed.

Lemma isBefore_spec d i k row :
  isBefore d i (k, row) = true
  ↔ ∃ x, Store.date row = Some x ∧ pairBelow (x, k) (d, i).
Proof.
  unfold isBefore, dateIs, pairBelow. simpl.
  destruct (Store.date row) as [x|]; [|split; [done | by intros (? & ? & _)]].
  rewrite orb_true_iff, andb_true_iff, !bool_decide_eq_true, Z.ltb_lt. split.
  - intros [Hlt|[Heq Hlt]]; exists x; split; try done; [by left|].
    right. split; [|done]. by apply String.compare_eq_iff.
  - intros (x' & [= <-] & [Hlt|[-> Hlt]]); [by left|].
    right. split; [apply String_compare_refl | done].
Qed.

Lemma isAfter_spec d i k row :
  isAfter d i (k, row) = true
  ↔ ∃ x, Store.date row = Some x ∧ pairBelow (d, i) (x, k).
Proof.
  unfold isAfter, dateIs, pairBelow. simpl.
  destruct (Store.date row) as [x|]; [|split; [done | by intros (? & ? & _)]].
  rewrite orb_true_iff, andb_true_iff, !bool_decide_eq_true, Z.ltb_lt.
  rewrite (String.compare_antisym x d).
  destruct (String.compare d x) eqn:E; simpl; split.
  - intros [?|[_ Hlt]]; [done|]. exists x. split; [done|]. right.
    split; [|done]. by apply String.compare_eq_iff.
  - intros (x' & [= <-] & [?|[_ Hlt]]); [congruence | by right].
  - intros _. exists x. split; [done | by left].
  - intros _. by left.
  - by intros [?|[? _]].
  - intros (x' & [= <-] & [?|[-> _]]); [congruence|].
    by rewrite String_compare_refl in E.
Qed.

(** The filter of the query lets through the selected rows. *)
Lemma typeMatches_selected type k row :
  typeMatches type (k, row) = true ↔ selected type row.
Proof.
  destruct type as [[ty|tys]|]; cbn.
  - apply bool_decide_eq_true.
  - rewrite existsb_exists. split.
    + intros (ty & Hty%list_elem_of_In & H%bool_decide_eq_true). eauto.
    + intros (ty & Hty & H). exists ty. split; [by apply list_elem_of_In|].
      by apply bool_decide_eq_true.
  - done.
Qed.

Lemma elem_of_typed_rows s type k row :
  (k, row) ∈ List.filter (typeMatches type) (map_to_list (Store.txn s))
  ↔ matching s type k row.
Proof.
  rewrite list_elem_of_In, filter_In, <- list_elem_of_In, elem_of_map_to_list.
  by rewrite typeMatches_selected.
Qed.

(** The comparison of [ORDER BY date, id] orders two rows as [rowBelow]
    does. *)
Lemma compareRow_rowBelow a b :
  compareRow a b ≠ Gt → a.1 = b.1 ∨ rowBelow a b.
Proof.
  intros Hle. destruct (compareRow a b) eqn:E; [| |done].
  - apply compareRow_Eq in E as [_ E]. by left.
  - right. apply compareRow_Lt in E. unfold rowBelow.
    destruct (Store.date a.2) as [x|], (Store.date b.2) as [y|]; cbn in E.
    + destruct E as [E|[[= ->] E]]; [by left|by right].
    + by destruct E as [?|[? _]].
    + done.
    + by destruct E as [?|[_ ?]].
Qed.

Lemma pairBelow_compareRow k row x k' row' x' :
  Store.date row = Some x → Store.date row' = Some x' →
  compareRow (k, row) (k', row') ≠ Gt →
  k = k' ∨ pairBelow (x, k) (x', k').
Proof.
  intros Hx Hx' Hle. destruct (compareRow (k, row) (k', row')) eqn:E; [| |done].
  - apply compareRow_Eq in E as [_ E]. by left.
  - apply compareRow_Lt in E. simpl in E. rewrite Hx, Hx' in E. right.
    destruct E as [E|[[= ->] E]]; [by left | by right].
Qed.

(** C5. For a reference carrying an id and a date (both truthy), [prevId]
    returns the id of the matching transaction with the greatest (date, id)
    pair strictly below the reference's, and [nextId] that with the least
    strictly above, each 0 when there is none. On three transactions dated
    2020-01-01, 2020-01-02, 2020-01-02 with ids 1, 2, 3, from the reference
    (id 2, date 2020-01-02), [prevId] is 1 and [nextId] is 3. *)
Theorem prevId_nextId_adjacent s i d type :
  i ≠ 0 → d ≠ "" →
  (greatestBelow s type (d, i) (prevId s (Some (Ref.mk (Some i) (Some d))) type)
   ∨ (noneBelow s type (d, i)
      ∧ prevId s (Some (Ref.mk (Some i) (Some d))) type = 0))
  ∧ (leastAbove s type (d, i) (nextId s (Some (Ref.mk (Some i) (Some d))) type)
     ∨ (noneAbove s type (d, i)
        ∧ nextId s (Some (Ref.mk (Some i) (Some d))) type = 0))
  ∧ prevId scenarioD (Some (Ref.mk (Some 2) (Some "2020-01-02"))) None = 1
  ∧ nextId scenarioD (Some (Ref.mk (Some 2) (Some "2020-01-02"))) None = 3.
Proof.
  intros Hi Hd. split_and!; [| |reflexivity..].
  - unfold prevId. rewrite usable_Some by done.
    set (q := List.filter (isBefore d i) _).
    assert (∀ k row, (k, row) ∈ q ↔
      matching s type k row
      ∧ ∃ x, Store.date row = Some x ∧ pairBelow (x, k) (d, i)) as Hq.
    { intros k row. unfold q.
      rewrite list_elem_of_In, filter_In, <- list_elem_of_In.
      rewrite elem_of_typed_rows, isBefore_spec. done. }
    destruct (firstId_sorted orderDesc (λ a b, compareRow b a ≠ Gt)
                (λ a b, compareRow_le_total b a)
                (λ a b c Hab Hbc, compareRow_le_trans c b a Hbc Hab)
                (λ a b, orderAsc_le b a) q)
      as [[Hnil ->]|([k row] & Hin & -> & Hmax)].
    + right. split; [|done]. intros k row x Hm Hx Hbelow.
      assert ((k, row) ∈ q) as Hin by (apply Hq; eauto).
      rewrite Hnil in Hin. by apply elem_of_nil in Hin.
    + left. apply Hq in Hin as (Hm & x & Hx & Hbelow).
      exists row, x. split_and!; [done..|].
      intros k' row' x' Hm' Hx' Hbelow'.
      eapply pairBelow_compareRow; [done..|].
      apply Hmax, Hq. eauto.
  - unfold nextId. rewrite usable_Some by done.
    set (q := List.filter (isAfter d i) _).
    assert (∀ k row, (k, row) ∈ q ↔
      matching s type k row
      ∧ ∃ x, Store.date row = Some x ∧ pairBelow (d, i) (x, k)) as Hq.
    { intros k row. unfold q.
      rewrite list_elem_of_In, filter_In, <- list_elem_of_In.
      rewrite elem_of_typed_rows, isAfter_spec. done. }
    destruct (firstId_sorted orderAsc (λ a b, compareRow a b ≠ Gt)
                compareRow_le_total compareRow_le_trans orderAsc_le q)
      as [[Hnil ->]|([k row] & Hin & -> & Hmin)].
    + right. split; [|done]. intros k row x Hm Hx Habove.
      assert ((k, row) ∈ q) as Hin by (apply Hq; eauto).
      rewrite Hnil in Hin. by apply elem_of_nil in Hin.
    + left. apply Hq in Hin as (Hm & x & Hx & Habove).
      exists row, x. split_and!; [done..|].
      intros k' row' x' Hm' Hx' Habove'.
      destruct (pairBelow_compareRow k row x k' row' x' Hx Hx') as [->|?];
        [|by left|by right].
      apply Hmin, Hq. eauto.
Qed.

Lemma prevId_nextId_adjacent_witness :
  (2 ≠ 0 ∧ "2020-01-02" ≠ "")
  ∧ (greatestBelow scenarioD (Some (OneType Sale)) ("2020-01-02", 2)
       (prevId scenarioD (Some (Ref.mk (Some 2) (Some "2020-01-02")))
          (Some (OneType Sale)))
     ∨ (noneBelow scenarioD (Some (OneType Sale)) ("2020-01-02", 2)
        ∧ prevId scenarioD (Some (Ref.mk (Some 2) (Some "2020-01-02")))
            (Some (OneType Sale)) = 0))
  ∧ (leastAbove scenarioD (Some (OneType Sale)) ("2020-01-02", 2)
       (nextId scenarioD (Some (Ref.mk (Some 2) (Some "2020-01-02")))
          (Some (OneType Sale)))
     ∨ (noneAbove scenarioD (Some (OneType Sale)) ("2020-01-02", 2)
        ∧ nextId scenarioD (Some (Ref.mk (Some 2) (Some "2020-01-02")))
            (Some (OneType Sale)) = 0))
  ∧ prevId scenarioD (Some (Ref.mk (Some 2) (Some "2020-01-02"))) None = 1
  ∧ nextId scenarioD (Some (Ref.mk (Some 2) (Some "2020-01-02"))) None = 3.
Proof.
  split; [split; [lia | discriminate]|].
  apply (prevId_nextId_adjacent scenarioD 2 "2020-01-02"
           (Some (OneType Sale))); [lia | discriminate].
Defined.

(** The type filter at work on the three transactions: the third is an
    invoice, so among the sales nothing follows the second, and among the
    invoices nothing precedes it. *)
Example scenarioD_filtered :
  prevId scenarioD (Some (Ref.mk (Some 2) (Some "2020-01-02")))
    (Some (OneType Sale)) = 1
  ∧ nextId scenarioD (Some (Ref.mk (Some 2) (Some "2020-01-02")))
      (Some (OneType Sale)) = 0
  ∧ prevId scenarioD (Some (Ref.mk (Some 2) (Some "2020-01-02")))
      (Some (TypeArray [Invoice])) = 0
  ∧ nextId scenarioD (Some (Ref.mk (Some 2) (Some "2020-01-02")))
      (Some (TypeArray [Invoice])) = 3.
Proof. split_and!; reflexivity. Qed.

(** C9. A reference whose id is 0 or undefined, or whose date is undefined,
    is ignored: [prevId] and [nextId] answer as with no reference at all, that
    is with the last, respectively the first, matching row in the order of
    (date, id) over the whole filtered set (0 when no row matches). *)
Theorem prevId_nextId_reference_ignored s t type :
  Ref.id t = None ∨ Ref.id t = Some 0 ∨ Ref.date t = None →
  prevId s (Some t) type = prevId s None type
  ∧ nextId s (Some t) type = nextId s None type
  ∧ (lastRow s type (prevId s (Some t) type)
     ∨ (noRow s type ∧ prevId s (Some t) type = 0))
  ∧ (firstRow s type (nextId s (Some t) type)
     ∨ (noRow s type ∧ nextId s (Some t) type = 0)).
Proof.
  intros Ht.
  assert (usable (Some t) = None) as Hu.
  { destruct t as [[i|] [d|]]; simpl in *; try done.
    destruct Ht as [?|[[= ->]|?]]; done. }
  unfold prevId, nextId. rewrite Hu. simpl. split_and!; [done..| |].
  - destruct (firstId_sorted orderDesc (λ a b, compareRow b a ≠ Gt)
                (λ a b, compareRow_le_total b a)
                (λ a b c Hab Hbc, compareRow_le_trans c b a Hbc Hab)
                (λ a b, orderAsc_le b a)
                (List.filter (typeMatches type) (map_to_list (Store.txn s))))
      as [[Hnil ->]|([k row] & Hin & -> & Hmax)].
    + right. split; [|done]. intros k row Hm%elem_of_typed_rows.
      rewrite Hnil in Hm. by apply elem_of_nil in Hm.
    + left. exists row. split; [by apply elem_of_typed_rows|].
      intros k' row' Hm'.
      apply (compareRow_rowBelow (k', row') (k, row)).
      by apply Hmax, elem_of_typed_rows.
  - destruct (firstId_sorted orderAsc (λ a b, compareRow a b ≠ Gt)
                compareRow_le_total compareRow_le_trans orderAsc_le
                (List.filter (typeMatches type) (map_to_list (Store.txn s))))
      as [[Hnil ->]|([k row] & Hin & -> & Hmin)].
    + right. split; [|done]. intros k row Hm%elem_of_typed_rows.
      rewrite Hnil in Hm. by apply elem_of_nil in Hm.
    + left. exists row. split; [by apply elem_of_typed_rows|].
      intros k' row' Hm'.
      destruct (compareRow_rowBelow (k, row) (k', row')) as [Heq|?];
        [|by left|by right].
      by apply Hmin, elem_of_typed_rows.
Qed.

Lemma prevId_nextId_reference_ignored_witness :
  (Ref.id (Ref.mk (Some 0) (Some "2020-01-02")) = None
   ∨ Ref.id (Ref.mk (Some 0) (Some "2020-01-02")) = Some 0
   ∨ Ref.date (Ref.mk (Some 0) (Some "2020-01-02")) = None)
  ∧ prevId scenarioD (Some (Ref.mk (Some 0) (Some "2020-01-02")))
      (Some (OneType Sale))
    = prevId scenarioD None (Some (OneType Sale))
  ∧ nextId scenarioD (Some (Ref.mk (Some 0) (Some "2020-01-02")))
      (Some (OneType Sale))
    = nextId scenarioD None (Some (OneType Sale))
  ∧ (lastRow scenarioD (Some (OneType Sale))
       (prevId scenarioD (Some (Ref.mk (Some 0) (Some "2020-01-02")))
          (Some (OneType Sale)))
     ∨ (noRow scenarioD (Some (OneType Sale))
        ∧ prevId scenarioD (Some (Ref.mk (Some 0) (Some "2020-01-02")))
            (Some (OneType Sale)) = 0))
  ∧ (firstRow scenarioD (Some (OneType Sale))
       (nextId scenarioD (Some (Ref.mk (Some 0) (Some "2020-01-02")))
          (Some (OneType Sale)))
     ∨ (noRow scenarioD (Some (OneType Sale))
        ∧ nextId scenarioD (Some (Ref.mk (Some 0) (Some "2020-01-02")))
            (Some (OneType Sale)) = 0)).
Proof.
  split; [right; left; reflexivity|].
  apply (prevId_nextId_reference_ignored scenarioD
           (Ref.mk (Some 0) (Some "2020-01-02")) (Some (OneType Sale))).
  right; left; reflexivity.
Defined.

Example scenarioD_without_reference :
  prevId scenarioD (Some (Ref.mk (Some 0) (Some "2020-01-02"))) None = 3
  ∧ nextId scenarioD (Some (Ref.mk (Some 0) (Some "2020-01-02"))) None = 1
  ∧ prevId scenarioD (Some (Ref.mk (Some 2) None)) (Some (OneType Sale)) = 2
  ∧ nextId scenarioD (Some (Ref.mk None (Some "2020-01-02")))
      (Some (TypeArray [Invoice])) = 3.
Proof. split_and!; reflexivity. Qed.

(** ** _save: the batches *)

Lemma deref_insert_ne (h : Heap) l l' e :
  l ≠ l' → deref (<[l := e]> h) l' = deref h l'.
Proof. intros Hne. unfold deref. by rewrite list_lookup_total_insert_ne. Qed.

Lemma deref_insert_eq (h : Heap) l e :
  (l < length h)%nat → deref (<[l := e]> h) l = e.
Proof. intros Hl. unfold deref. by rewrite list_lookup_total_insert_eq. Qed.

Lemma sameButTransactionId_refl e : sameButTransactionId e e.
Proof. done. Qed.

Lemma sameButTransactionId_trans e1 e2 e3 :
  sameButTransactionId e1 e2 → sameButTransactionId e2 e3 →
  sameButTransactionId e1 e3.
Proof. unfold sameButTransactionId. congruence. Qed.

Lemma sameButTransactionId_set v e :
  sameButTransactionId e (Element.with_transactionId v e).
Proof. done. Qed.

(** What the batches look at is not the [transactionId]. *)
Lemma sameButTransactionId_fields e e' :
  sameButTransactionId e e' →
  Element.id e = Element.id e'
  ∧ Element.amount e = Element.amount e'
  ∧ Element.taxCode e = Element.taxCode e'
  ∧ Element.parentId e = Element.parentId e'
  ∧ Element._parent e = Element._parent e'.
Proof.
  destruct e as [[] ?], e' as [[] ?]. unfold sameButTransactionId. simpl.
  intros [= -> -> -> -> -> -> -> -> -> -> ->]. done.
Qed.

Lemma sameButTransactionId_isKept e e' :
  sameButTransactionId e e' → isKept e = isKept e'.
Proof.
  intros (_ & Ha & Ht & _)%sameButTransactionId_fields.
  unfold isKept. by rewrite Ha, Ht.
Qed.

Lemma sameButTransactionId_hasParent e e' :
  sameButTransactionId e e' → hasParent e = hasParent e'.
Proof.
  intros (_ & _ & _ & Hp & Hr)%sameButTransactionId_fields.
  unfold hasParent. by rewrite Hp, Hr.
Qed.

(** One step of the first loop leaves every object as it was, up to the
    [transactionId]. *)
Lemma separate_heap this h b l h' b' :
  separate this (h, b) l = (h', b') →
  length h' = length h
  ∧ ∀ l', sameButTransactionId (deref h l') (deref h' l').
Proof.
  unfold separate.
  assert (length (<[l := Element.with_transactionId (Transaction.id this)
                          (deref h l)]> h) = length h
    ∧ ∀ l', sameButTransactionId (deref h l')
              (deref (<[l := Element.with_transactionId (Transaction.id this)
                              (deref h l)]> h) l')) as Hset.
  { split; [apply length_insert|]. intros l'.
    destruct (decide (l = l')) as [<-|Hne]; [|by rewrite deref_insert_ne].
    destruct (decide (l < length h)%nat) as [Hl|Hl].
    - rewrite deref_insert_eq by done. apply sameButTransactionId_set.
    - rewrite list_insert_ge by lia. done. }
  destruct (isKept (deref h l)).
  - destruct (hasParent (deref h l)); by intros [= <- <-].
  - destruct (JS.truthy _); by intros [= <- <-].
Qed.

(** The batches are three filters of the element list. *)
Lemma separate_foldl this elements : ∀ h b h' b',
  foldl (separate this) (h, b) elements = (h', b') →
  (length h' = length h ∧ ∀ l, sameButTransactionId (deref h l) (deref h' l))
  ∧ parents b'
    = parents b
      ++ filter (λ l, isKept (deref h l) = true ∧ hasParent (deref h l) = false)
           elements
  ∧ children b'
    = children b
      ++ filter (λ l, isKept (deref h l) = true ∧ hasParent (deref h l) = true)
           elements
  ∧ deletes b'
    = deletes b
      ++ filter (λ l, isKept (deref h l) = false
                      ∧ JS.truthy (Element.id (deref h l)) = true) elements.
Proof.
  induction elements as [|l elements IH]; intros h b h' b'.
  - intros [= <- <-]. rewrite !filter_nil, !app_nil_r. done.
  - cbn [foldl]. destruct (separate this (h, b) l) as [h1 b1] eqn:Hstep.
    intros Hrun. destruct (separate_heap _ _ _ _ _ _ Hstep) as [Hlen Hsame].
    apply IH in Hrun as ((Hlen' & Hsame') & Hp & Hc & Hd).
    split.
    { split; [congruence|]. intros l'.
      eapply sameButTransactionId_trans; [apply Hsame | apply Hsame']. }
    assert (∀ l', isKept (deref h1 l') = isKept (deref h l')
      ∧ hasParent (deref h1 l') = hasParent (deref h l')
      ∧ Element.id (deref h1 l') = Element.id (deref h l')) as Hsame1.
    { intros l'. specialize (Hsame l').
      rewrite (sameButTransactionId_isKept _ _ Hsame),
        (sameButTransactionId_hasParent _ _ Hsame).
      by destruct (sameButTransactionId_fields _ _ Hsame) as (-> & _). }
    rewrite Hp, Hc, Hd. clear Hp Hc Hd IH.
    rewrite (list_filter_iff
               (λ l, isKept (deref h1 l) = true ∧ hasParent (deref h1 l) = false)
               (λ l, isKept (deref h l) = true ∧ hasParent (deref h l) = false))
      by (intros l'; destruct (Hsame1 l') as (-> & -> & _); done).
    rewrite (list_filter_iff
               (λ l, isKept (deref h1 l) = true ∧ hasParent (deref h1 l) = true)
               (λ l, isKept (deref h l) = true ∧ hasParent (deref h l) = true))
      by (intros l'; destruct (Hsame1 l') as (-> & -> & _); done).
    rewrite (list_filter_iff
               (λ l, isKept (deref h1 l) = false
                     ∧ JS.truthy (Element.id (deref h1 l)) = true)
               (λ l, isKept (deref h l) = false
                     ∧ JS.truthy (Element.id (deref h l)) = true))
      by (intros l'; destruct (Hsame1 l') as (-> & _ & ->); done).
    clear Hsame1. unfold separate in Hstep.
    destruct (isKept (deref h l)) eqn:Hk.
    + destruct (hasParent (deref h l)) eqn:Hpar; injection Hstep as <- <-;
        cbn [parents children deletes].
      * rewrite (filter_cons_False _ l), (filter_cons_True _ l),
          (filter_cons_False _ l);
          [|rewrite ?Hk, ?Hpar; first [done | by intros [? ?]]..].
        rewrite <- ?app_assoc. done.
      * rewrite (filter_cons_True _ l), (filter_cons_False _ l),
          (filter_cons_False _ l);
          [|rewrite ?Hk, ?Hpar; first [done | by intros [? ?]]..].
        rewrite <- ?app_assoc. done.
    + destruct (JS.truthy (Element.id (deref h l))) eqn:Hid;
        injection Hstep as <- <-; cbn [parents children deletes].
      * rewrite (filter_cons_False _ l), (filter_cons_False _ l),
          (filter_cons_True _ l);
          [|rewrite ?Hk, ?Hid; first [done | by intros [? ?]]..].
        rewrite <- ?app_assoc. done.
      * rewrite (filter_cons_False _ l), (filter_cons_False _ l),
          (filter_cons_False _ l);
          [|rewrite ?Hk, ?Hid; first [done | by intros [? ?]]..].
        done.
Qed.

(** ** _save: rows and ids *)

Lemma Element_delete_store h s l :
  Store.txnElementSeq (Element_delete h s l) = Store.txnElementSeq s
  ∧ (∀ k, Element.id (deref h l) ≠ Some k →
       Store.txnElement (Element_delete h s l) !! k = Store.txnElement s !! k)
  ∧ (∀ k, Element.id (deref h l) = Some k →
       Store.txnElement (Element_delete h s l) !! k = None)
  ∧ (∀ k, Store.txnElement s !! k = None →
       Store.txnElement (Element_delete h s l) !! k = None).
Proof.
  unfold Element_delete. destruct (Element.id (deref h l)) as [k0|]; simpl.
  - split_and!; [done| | |].
    + intros k Hk. apply lookup_delete_ne. congruence.
    + intros k [= ->]. apply lookup_delete_eq.
    + intros k Hk. destruct (decide (k0 = k)) as [->|Hne].
      * apply lookup_delete_eq.
      * by rewrite lookup_delete_ne.
  - done.
Qed.

Lemma Element_save_store h s l h' s' :
  Element_save h s l = (h', s') →
  length h' = length h
  ∧ (∀ l', l' ≠ l → deref h' l' = deref h l')
  ∧ Store.txnElementSeq s ≤ Store.txnElementSeq s'
  ∧ (∀ k, k < Store.txnElementSeq s → Element.id (deref h l) ≠ Some k →
       Store.txnElement s' !! k = Store.txnElement s !! k)
  ∧ (∀ k, k < Store.txnElementSeq s → Store.txnElement s !! k = None →
       Store.txnElement s' !! k = None).
Proof.
  unfold Element_save. destruct (Element.id (deref h l)) as [k0|] eqn:Hid.
  - intros [= <- <-]. simpl. split_and!; [done..|lia| |].
    + intros k _ Hk. apply lookup_alter_ne. congruence.
    + intros k _ Hk. destruct (decide (k0 = k)) as [->|Hne].
      * by rewrite lookup_alter_eq, Hk.
      * by rewrite lookup_alter_ne.
  - intros [= <- <-]. simpl. split_and!; [apply length_insert| |lia| |].
    + intros l' Hne. by apply deref_insert_ne.
    + intros k Hk _. apply lookup_insert_ne. lia.
    + intros k Hk Hnone. rewrite lookup_insert_ne by lia. done.
Qed.

(** What [Element_save] writes for an allocated object. *)
Lemma Element_save_row h s l h' s' :
  (l < length h)%nat →
  Element_save h s l = (h', s') →
  match Element.id (deref h l) with
  | None =>
      deref h' l = Element.with_id (Some (Store.txnElementSeq s)) (deref h l)
      ∧ Store.txnElement s' !! Store.txnElementSeq s
        = Some (Element.fields
                  (Element.with_id (Some (Store.txnElementSeq s)) (deref h l)))
      ∧ Store.txnElementSeq s' = Store.txnElementSeq s + 1
  | Some k =>
      h' = h
      ∧ Store.txnElement s' !! k
        = Store.patchElementRow (deref h l) <$> Store.txnElement s !! k
      ∧ Store.txnElementSeq s' = Store.txnElementSeq s
  end.
Proof.
  intros Hl. unfold Element_save.
  destruct (Element.id (deref h l)) as [k0|] eqn:Hid; intros [= <- <-]; simpl.
  - split_and!; [done| |done]. apply lookup_alter_eq.
  - split_and!; [by apply deref_insert_eq| |done]. apply lookup_insert_eq.
Qed.

(** Steps that touch the row of the object they are given, or a fresh row,
    and the id of no other object. *)
Section local_steps.

Variable step : list Element.TElement * Store.t → nat
                → list Element.TElement * Store.t.

Hypothesis step_local : ∀ h s l h' s',
  step (h, s) l = (h', s') →
  length h' = length h
  ∧ (∀ l', l' ≠ l → Element.id (deref h' l') = Element.id (deref h l'))
  ∧ Store.txnElementSeq s ≤ Store.txnElementSeq s'
  ∧ (∀ k, k < Store.txnElementSeq s → Element.id (deref h l) ≠ Some k →
       Store.txnElement s' !! k = Store.txnElement s !! k)
  ∧ (∀ k, k < Store.txnElementSeq s → Store.txnElement s !! k = None →
       Store.txnElement s' !! k = None).

Lemma foldl_local ls : ∀ h s h' s',
  NoDup ls →
  foldl step (h, s) ls = (h', s') →
  length h' = length h
  ∧ (∀ l', l' ∉ ls → Element.id (deref h' l') = Element.id (deref h l'))
  ∧ Store.txnElementSeq s ≤ Store.txnElementSeq s'
  ∧ (∀ k, k < Store.txnElementSeq s →
       Forall (λ l, Element.id (deref h l) ≠ Some k) ls →
       Store.txnElement s' !! k = Store.txnElement s !! k)
  ∧ (∀ k, k < Store.txnElementSeq s → Store.txnElement s !! k = None →
       Store.txnElement s' !! k = None).
Proof.
  induction ls as [|l ls IH]; intros h s h' s' Hnd.
  - intros [= <- <-]. split_and!; [done..|lia|done|done].
  - cbn [foldl]. destruct (step (h, s) l) as [h1 s1] eqn:Hstep.
    apply NoDup_cons in Hnd as [Hl Hnd]. intros Hrun.
    destruct (step_local _ _ _ _ _ Hstep) as (Hlen1 & Hid1 & Hseq1 & Hrow1 & Habs1).
    destruct (IH _ _ _ _ Hnd Hrun) as (Hlen & Hid & Hseq & Hrow & Habs).
    split_and!.
    + congruence.
    + intros l' [Hne Hnin]%not_elem_of_cons. rewrite Hid by done. by apply Hid1.
    + lia.
    + intros k Hk [Hkl Hkls]%Forall_cons. rewrite Hrow; [by apply Hrow1|lia|].
      rewrite Forall_forall in Hkls. apply Forall_forall. intros l' Hl'.
      rewrite Hid1; [by apply Hkls|]. intros ->. done.
    + intros k Hk Hnone. apply Habs; [lia|]. by apply Habs1.
Qed.

End local_steps.

(** Steps that change no object but the one they are given. *)
Section heap_local_steps.

Variable step : list Element.TElement * Store.t → nat
                → list Element.TElement * Store.t.

Hypothesis step_heap : ∀ h s l h' s',
  step (h, s) l = (h', s') → ∀ l', l' ≠ l → deref h' l' = deref h l'.

Lemma foldl_heap_local ls : ∀ h s h' s',
  foldl step (h, s) ls = (h', s') →
  ∀ l', l' ∉ ls → deref h' l' = deref h l'.
Proof.
  induction ls as [|l ls IH]; intros h s h' s'.
  - by intros [= <- <-].
  - cbn [foldl]. destruct (step (h, s) l) as [h1 s1] eqn:Hstep.
    intros Hrun l' [Hne Hnin]%not_elem_of_cons.
    rewrite (IH _ _ _ _ Hrun) by done. by eapply step_heap.
Qed.

End heap_local_steps.

Lemma saveOne_heap h s l h' s' :
  saveOne (h, s) l = (h', s') → ∀ l', l' ≠ l → deref h' l' = deref h l'.
Proof. intros Hstep. by apply Element_save_store in Hstep as (_ & ? & _). Qed.

Lemma saveOne_local h s l h' s' :
  saveOne (h, s) l = (h', s') →
  length h' = length h
  ∧ (∀ l', l' ≠ l → Element.id (deref h' l') = Element.id (deref h l'))
  ∧ Store.txnElementSeq s ≤ Store.txnElementSeq s'
  ∧ (∀ k, k < Store.txnElementSeq s → Element.id (deref h l) ≠ Some k →
       Store.txnElement s' !! k = Store.txnElement s !! k)
  ∧ (∀ k, k < Store.txnElementSeq s → Store.txnElement s !! k = None →
       Store.txnElement s' !! k = None).
Proof.
  intros (Hlen & Hheap & Hseq & Hrow & Habs)%Element_save_store.
  split_and!; [done| |done..]. intros l' Hne. by rewrite Hheap.
Qed.

(** Rewriting an object in place, keeping its id. *)
Lemma deref_update_id (h : Heap) l (f : Element.TElement → Element.TElement) :
  (∀ e, Element.id (f e) = Element.id e) →
  Element.id (deref (<[l := f (deref h l)]> h) l) = Element.id (deref h l).
Proof.
  intros Hf. destruct (decide (l < length h)%nat) as [Hl|Hl].
  - by rewrite deref_insert_eq.
  - by rewrite list_insert_ge by lia.
Qed.

Lemma saveChild_heap h s l h' s' :
  saveChild (h, s) l = (h', s') →
  length h' = length h ∧ ∀ l', l' ≠ l → deref h' l' = deref h l'.
Proof.
  unfold saveChild. destruct (Element._parent (deref h l)) as [p|];
    [|by intros [= <- <-]].
  set (e' := Element.with_parent None _).
  destruct (negb _ && _).
  - intros [= <- _]. split; [apply length_insert|].
    intros l' Hne. by apply deref_insert_ne.
  - intros (Hlen & Hheap & _)%Element_save_store.
    rewrite length_insert in Hlen. split; [done|].
    intros l' Hne. rewrite Hheap by done. by apply deref_insert_ne.
Qed.

Lemma saveChild_local h s l h' s' :
  saveChild (h, s) l = (h', s') →
  length h' = length h
  ∧ (∀ l', l' ≠ l → Element.id (deref h' l') = Element.id (deref h l'))
  ∧ Store.txnElementSeq s ≤ Store.txnElementSeq s'
  ∧ (∀ k, k < Store.txnElementSeq s → Element.id (deref h l) ≠ Some k →
       Store.txnElement s' !! k = Store.txnElement s !! k)
  ∧ (∀ k, k < Store.txnElementSeq s → Store.txnElement s !! k = None →
       Store.txnElement s' !! k = None).
Proof.
  intros Hstep. destruct (saveChild_heap _ _ _ _ _ Hstep) as [Hlen Hheap].
  split; [done|]. split; [by intros l' Hne; rewrite Hheap|].
  revert Hstep. unfold saveChild.
  destruct (Element._parent (deref h l)) as [p|];
    [|by intros [= <- <-]; split_and!; [lia|done..]].
  set (v := if JS.truthy _ then _ else _).
  pose proof (deref_update_id h l
    (λ e, Element.with_parent None (Element.with_parentId v e))
    (λ e, eq_refl)) as Hid. simpl in Hid.
  destruct (negb _ && _).
  - intros [= _ <-].
    destruct (Element_delete_store
                (<[l := Element.with_parent None
                          (Element.with_parentId v (deref h l))]> h) s l)
      as (Hseq & Hrow & _ & Habs).
    rewrite Hid in Hrow. split_and!; [lia| |]; intros k _ ?; auto.
  - intros (_ & _ & Hseq & Hrow & Habs)%Element_save_store.
    rewrite Hid in Hrow. done.
Qed.

(** The inner loop of the deletes changes [_parent]s only, and only to the
    element being deleted. *)
Lemma repoint_foldl e cs : ∀ h,
  length (foldl (repoint e) h cs) = length h
  ∧ ∀ l,
      Element.fields (deref (foldl (repoint e) h cs) l)
      = Element.fields (deref h l)
      ∧ (Element._parent (deref (foldl (repoint e) h cs) l)
         = Element._parent (deref h l)
         ∨ Element._parent (deref (foldl (repoint e) h cs) l) = Some e).
Proof.
  induction cs as [|c cs IH]; intros h; [by auto|].
  cbn [foldl]. destruct (IH (repoint e h c)) as [Hlen Hobj].
  assert (length (repoint e h c) = length h
    ∧ ∀ l, Element.fields (deref (repoint e h c) l) = Element.fields (deref h l)
        ∧ (Element._parent (deref (repoint e h c) l)
             = Element._parent (deref h l)
           ∨ Element._parent (deref (repoint e h c) l) = Some e)) as [Hlen1 Hobj1].
  { unfold repoint. destruct (bool_decide _); [|by auto].
    split; [apply length_insert|]. intros l.
    destruct (decide (c = l)) as [<-|Hne]; [|by rewrite deref_insert_ne; auto].
    destruct (decide (c < length h)%nat) as [Hc|Hc].
    - rewrite deref_insert_eq by done. simpl. auto.
    - rewrite list_insert_ge by lia. auto. }
  split; [congruence|]. intros l.
  destruct (Hobj l) as [Hf Hp], (Hobj1 l) as [Hf1 Hp1].
  split; [congruence|]. destruct Hp as [Hp|Hp]; [|by right].
  rewrite Hp. done.
Qed.

Lemma deleteOne_heap cs h s e h' s' :
  deleteOne cs (h, s) e = (h', s') →
  length h' = length h
  ∧ (∀ l, l ≠ e → Element.fields (deref h' l) = Element.fields (deref h l))
  ∧ ((e < length h)%nat → Element.id (deref h' e) = Some 0)
  ∧ (∀ l, Element._parent (deref h' l) = Element._parent (deref h l)
          ∨ Element._parent (deref h' l) = Some e)
  ∧ s' = Element_delete (foldl (repoint e) h cs) s e
  ∧ Element.id (deref (foldl (repoint e) h cs) e) = Element.id (deref h e).
Proof.
  unfold deleteOne. intros [= <- <-].
  destruct (repoint_foldl e cs h) as [Hlen Hobj].
  split_and!.
  - by rewrite length_insert.
  - intros l Hne. rewrite deref_insert_ne by done. apply Hobj.
  - intros He. rewrite deref_insert_eq by lia. done.
  - intros l. destruct (decide (e = l)) as [<-|Hne].
    + destruct (decide (e < length h)%nat) as [He|He].
      * rewrite deref_insert_eq by lia. simpl. apply Hobj.
      * rewrite list_insert_ge by lia. apply Hobj.
    + rewrite deref_insert_ne by done. apply Hobj.
  - done.
  - by destruct (Hobj e) as [-> _].
Qed.

Lemma deleteOne_local cs h s l h' s' :
  deleteOne cs (h, s) l = (h', s') →
  length h' = length h
  ∧ (∀ l', l' ≠ l → Element.id (deref h' l') = Element.id (deref h l'))
  ∧ Store.txnElementSeq s ≤ Store.txnElementSeq s'
  ∧ (∀ k, k < Store.txnElementSeq s → Element.id (deref h l) ≠ Some k →
       Store.txnElement s' !! k = Store.txnElement s !! k)
  ∧ (∀ k, k < Store.txnElementSeq s → Store.txnElement s !! k = None →
       Store.txnElement s' !! k = None).
Proof.
  intros (Hlen & Hf & _ & _ & -> & Hid)%deleteOne_heap.
  destruct (Element_delete_store (foldl (repoint l) h cs) s l)
    as (Hseq & Hrow & _ & Habs).
  rewrite Hid in Hrow.
  split_and!; [done| |lia| |]; [|intros k _ ?; auto..].
  intros l' Hne. by rewrite Hf.
Qed.

(** The deletes loop. *)
Lemma deletes_foldl cs ds : ∀ h s h' s',
  foldl (deleteOne cs) (h, s) ds = (h', s') →
  length h' = length h
  ∧ (∀ l, l ∉ ds → Element.fields (deref h' l) = Element.fields (deref h l))
  ∧ (∀ l, l ∈ ds → (l < length h)%nat → Element.id (deref h' l) = Some 0)
  ∧ (∀ l, Element._parent (deref h' l) = Element._parent (deref h l)
          ∨ ∃ e, e ∈ ds ∧ Element._parent (deref h' l) = Some e).
Proof.
  induction ds as [|e ds IH]; intros h s h' s'.
  - intros [= <- <-]. split_and!; [done..| |by auto].
    by intros l ?%elem_of_nil.
  - cbn [foldl]. destruct (deleteOne cs (h, s) e) as [h1 s1] eqn:Hstep.
    intros Hrun.
    destruct (deleteOne_heap _ _ _ _ _ _ Hstep) as (Hlen1 & Hf1 & Hid1 & Hp1 & _).
    destruct (IH _ _ _ _ Hrun) as (Hlen & Hf & Hid & Hp).
    split_and!.
    + congruence.
    + intros l [Hne Hnin]%not_elem_of_cons. rewrite Hf by done. by apply Hf1.
    + intros l Hin Hl. destruct (decide (l ∈ ds)) as [Hds|Hds].
      * apply Hid; [done|lia].
      * apply elem_of_cons in Hin as [->|?]; [|done].
        rewrite Hf by done. by apply Hid1.
    + intros l. destruct (Hp l) as [Hpl|(e' & He' & Hpl)].
      * rewrite Hpl. destruct (Hp1 l) as [?|?]; [by left|].
        right. exists e. split; [apply list_elem_of_here | done].
      * right. exists e'. split; [by apply list_elem_of_further | done].
Qed.

(** ** _save: from the batches to the children loop *)

(** Membership in the batches, and their being duplicate-free. *)
Lemma separateElements_elem_of this h elements h0 b :
  separateElements this h elements = (h0, b) →
  (length h0 = length h ∧ ∀ l, sameButTransactionId (deref h l) (deref h0 l))
  ∧ (∀ l, l ∈ parents b ↔
       l ∈ elements ∧ isKept (deref h l) = true ∧ hasParent (deref h l) = false)
  ∧ (∀ l, l ∈ children b ↔
       l ∈ elements ∧ isKept (deref h l) = true ∧ hasParent (deref h l) = true)
  ∧ (∀ l, l ∈ deletes b ↔
       l ∈ elements ∧ isKept (deref h l) = false
       ∧ JS.truthy (Element.id (deref h l)) = true)
  ∧ (NoDup elements →
       NoDup (parents b) ∧ NoDup (children b) ∧ NoDup (deletes b)).
Proof.
  intros (Hheap & Hp & Hc & Hd)%separate_foldl. simpl in Hp, Hc, Hd.
  rewrite Hp, Hc, Hd. split; [done|].
  split_and!; try (intros l; rewrite list_elem_of_filter; tauto).
  intros Hnd. split_and!; by apply NoDup_filter.
Qed.

Lemma ids_distinct (f : nat → option Z) (elements : list nat) l1 l2 k :
  NoDup (omap f elements) →
  l1 ∈ elements → l2 ∈ elements → f l1 = Some k → f l2 = Some k → l1 = l2.
Proof.
  induction elements as [|l elements IH]; [by intros _ ?%elem_of_nil|].
  intros Hnd H1 H2 Hk1 Hk2.
  assert (∀ l', l' ∈ elements → f l' = Some k → k ∈ omap f elements) as Hin.
  { intros l' Hl' Hk. apply list_elem_of_omap. eauto. }
  cbn [omap list_omap] in Hnd.
  apply elem_of_cons in H1 as [->|H1], H2 as [->|H2]; [done| | |].
  - rewrite Hk1 in Hnd. apply NoDup_cons in Hnd as [Hnotin _].
    destruct Hnotin. by eapply Hin.
  - rewrite Hk2 in Hnd. apply NoDup_cons in Hnd as [Hnotin _].
    destruct Hnotin. by eapply Hin.
  - apply IH; [|done..]. destruct (f l); [by apply NoDup_cons in Hnd as [_ ?]|done].
Qed.

(** A row deleted in the deletes loop is gone when the loop ends. *)
Lemma deletes_rows cs ds : ∀ h s h' s' l k,
  NoDup ds →
  foldl (deleteOne cs) (h, s) ds = (h', s') →
  l ∈ ds → Element.id (deref h l) = Some k → k < Store.txnElementSeq s →
  Store.txnElement s' !! k = None.
Proof.
  induction ds as [|e ds IH]; intros h s h' s' l k Hnd; [by intros _ ?%elem_of_nil|].
  cbn [foldl]. destruct (deleteOne cs (h, s) e) as [h1 s1] eqn:Hstep.
  apply NoDup_cons in Hnd as [He Hnd]. intros Hrun Hl Hk Hseq.
  destruct (deleteOne_local _ _ _ _ _ _ Hstep) as (_ & Hid1 & Hseq1 & _).
  apply elem_of_cons in Hl as [->|Hl].
  - destruct (foldl_local _ (deleteOne_local cs) _ _ _ _ _ Hnd Hrun)
      as (_ & _ & _ & _ & Habs).
    apply Habs; [lia|].
    apply deleteOne_heap in Hstep as (_ & _ & _ & _ & -> & Hid).
    destruct (Element_delete_store (foldl (repoint e) h cs) s e)
      as (_ & _ & Hgone & _).
    apply Hgone. congruence.
  - eapply IH; [done..| |lia]. rewrite Hid1; [done|]. by intros ->.
Qed.

(** The state in which the children loop starts. *)
Lemma before_children this h s elements h0 b h1 s1 h2 s2 :
  store_ok h s elements →
  separateElements this h elements = (h0, b) →
  foldl (deleteOne (children b)) (h0, s) (deletes b) = (h1, s1) →
  foldl saveOne (h1, s1) (parents b) = (h2, s2) →
  length h2 = length h
  ∧ (∀ l, l ∉ deletes b → l ∉ parents b →
       Element.id (deref h2 l) = Element.id (deref h l)
       ∧ Element.amount (deref h2 l) = Element.amount (deref h l)
       ∧ (Element._parent (deref h2 l) = Element._parent (deref h l)
          ∨ ∃ e, e ∈ deletes b ∧ Element._parent (deref h2 l) = Some e))
  ∧ (∀ p, p ∈ deletes b → Element.id (deref h2 p) = Some 0)
  ∧ Store.txnElementSeq s ≤ Store.txnElementSeq s2
  ∧ (∀ k, k < Store.txnElementSeq s →
       (∀ l, l ∈ deletes b ∨ l ∈ parents b → Element.id (deref h l) ≠ Some k) →
       Store.txnElement s2 !! k = Store.txnElement s !! k)
  ∧ (∀ l k, l ∈ deletes b → Element.id (deref h l) = Some k →
       Store.txnElement s2 !! k = None)
  ∧ (∀ k, k < Store.txnElementSeq s → Store.txnElement s !! k = None →
       Store.txnElement s2 !! k = None).
Proof.
  intros (Hnd & Hok & Hids & Hbelow) Hsep Hdel Hpar.
  destruct (separateElements_elem_of _ _ _ _ _ Hsep)
    as ((Hlen0 & Hsame) & Hinp & Hinc & Hind & Hnds).
  destruct (Hnds Hnd) as (Hndp & Hndc & Hndd). clear Hnds.
  assert (∀ l, Element.id (deref h0 l) = Element.id (deref h l)
    ∧ Element.amount (deref h0 l) = Element.amount (deref h l)
    ∧ Element._parent (deref h0 l) = Element._parent (deref h l)) as Hsame0.
  { intros l.
    destruct (sameButTransactionId_fields _ _ (Hsame l)) as (-> & -> & _ & _ & ->).
    done. }
  destruct (deletes_foldl _ _ _ _ _ _ Hdel) as (Hlen1 & Hf1 & Hzero1 & Hp1).
  destruct (foldl_local _ (deleteOne_local _) _ _ _ _ _ Hndd Hdel)
    as (_ & Hid1 & Hseq1 & Hrow1 & Habs1).
  pose proof (foldl_heap_local _ saveOne_heap _ _ _ _ _ Hpar) as Hheap2.
  destruct (foldl_local _ saveOne_local _ _ _ _ _ Hndp Hpar)
    as (Hlen2 & Hid2 & Hseq2 & Hrow2 & Habs2).
  assert (∀ l, l ∈ deletes b → l ∉ parents b) as Hdp.
  { intros l (_ & Hk & _)%Hind (_ & Hk' & _)%Hinp. congruence. }
  assert (∀ l k, l ∈ elements → Element.id (deref h l) = Some k →
    k < Store.txnElementSeq s) as Hbelow'.
  { intros l k Hl. rewrite Forall_forall in Hbelow. by apply Hbelow. }
  split_and!.
  - congruence.
  - intros l Hnd' Hnp. rewrite Hheap2 by done.
    destruct (Hsame0 l) as (<- & <- & <-).
    split_and!; [by rewrite Hf1..|]. apply Hp1.
  - intros p Hp. rewrite Hheap2 by (by apply Hdp).
    apply Hzero1; [done|]. rewrite Hlen0.
    apply Hind in Hp as [Hp _]. unfold heap_ok in Hok.
    rewrite Forall_forall in Hok. by apply Hok.
  - lia.
  - intros k Hk Hne. rewrite Hrow2, Hrow1; [done|done| |lia|].
    + apply Forall_forall. intros l Hl.
      destruct (Hsame0 l) as (-> & _). apply Hne. by left.
    + apply Forall_forall. intros l Hl. rewrite Hid1.
      * destruct (Hsame0 l) as (-> & _). apply Hne. by right.
      * intros Hl'. by apply (Hdp l).
  - intros l k Hl Hk. apply Habs2.
    + apply Hind in Hl as [Hl _]. specialize (Hbelow' _ _ Hl Hk). lia.
    + eapply deletes_rows; [exact Hndd|exact Hdel|exact Hl| |].
      * by destruct (Hsame0 l) as (-> & _).
      * apply Hind in Hl as [Hl _]. by eapply Hbelow'.
  - intros k Hk Hnone. apply Habs2; [lia|]. by apply Habs1.
Qed.

(** ** _save: the turn of one element in a loop *)

Section turns.

Variable step : list Element.TElement * Store.t → nat
                → list Element.TElement * Store.t.

Hypothesis step_heap : ∀ h s l h' s',
  step (h, s) l = (h', s') → ∀ l', l' ≠ l → deref h' l' = deref h l'.

Hypothesis step_local : ∀ h s l h' s',
  step (h, s) l = (h', s') →
  length h' = length h
  ∧ (∀ l', l' ≠ l → Element.id (deref h' l') = Element.id (deref h l'))
  ∧ Store.txnElementSeq s ≤ Store.txnElementSeq s'
  ∧ (∀ k, k < Store.txnElementSeq s → Element.id (deref h l) ≠ Some k →
       Store.txnElement s' !! k = Store.txnElement s !! k)
  ∧ (∀ k, k < Store.txnElementSeq s → Store.txnElement s !! k = None →
       Store.txnElement s' !! k = None).

(** The loop over [ls] reaches [l] in a state [(hA, sA)] in which [l] and
    the objects outside [ls] are as they were, and after the step on [l]
    leaves them alone. *)
Lemma foldl_turn ls l : ∀ h s h' s',
  NoDup ls → l ∈ ls →
  foldl step (h, s) ls = (h', s') →
  ∃ hA sA hB sB,
    step (hA, sA) l = (hB, sB)
    ∧ length hA = length h
    ∧ (∀ l', l' = l ∨ l' ∉ ls → deref hA l' = deref h l')
    ∧ Store.txnElementSeq s ≤ Store.txnElementSeq sA
    ∧ (∀ k, k < Store.txnElementSeq s →
         (∀ l', l' ∈ ls → l' ≠ l → Element.id (deref h l') ≠ Some k) →
         Store.txnElement sA !! k = Store.txnElement s !! k)
    ∧ (∀ l', l' = l ∨ l' ∉ ls → deref h' l' = deref hB l')
    ∧ (∀ k, k < Store.txnElementSeq sB →
         (∀ l', l' ∈ ls → l' ≠ l → Element.id (deref h l') ≠ Some k) →
         Store.txnElement s' !! k = Store.txnElement sB !! k)
    ∧ (∀ k, k < Store.txnElementSeq sB → Store.txnElement sB !! k = None →
         Store.txnElement s' !! k = None).
Proof.
  intros h s h' s' Hnd (pre & post & ->)%list_elem_of_split.
  apply NoDup_app in Hnd as (Hndpre & Hdisj & [Hlpost Hndpost]%NoDup_cons).
  assert (l ∉ pre) as Hlpre.
  { intros Hin. apply (Hdisj _ Hin), list_elem_of_here. }
  rewrite foldl_app. cbn [foldl].
  destruct (foldl step (h, s) pre) as [hA sA] eqn:Hpre.
  destruct (step (hA, sA) l) as [hB sB] eqn:Hstep. intros Hpost.
  exists hA, sA, hB, sB.
  pose proof (foldl_heap_local _ step_heap _ _ _ _ _ Hpre) as HheapA.
  destruct (foldl_local _ step_local _ _ _ _ _ Hndpre Hpre)
    as (HlenA & _ & HseqA & HrowA & _).
  pose proof (foldl_heap_local _ step_heap _ _ _ _ _ Hpost) as HheapB.
  destruct (foldl_local _ step_local _ _ _ _ _ Hndpost Hpost)
    as (_ & _ & _ & HrowB & HabsB).
  split_and!; [done..| | | | | |done].
  - intros l' [->|Hl']; apply HheapA; [done|].
    intros Hin. apply Hl', elem_of_app. by left.
  - done.
  - intros k Hk Hne. apply HrowA; [done|]. apply Forall_forall.
    intros l' Hl'. apply Hne; [apply elem_of_app; by left|]. by intros ->.
  - intros l' [->|Hl']; apply HheapB; [done|].
    intros Hin. apply Hl', elem_of_app. right. by apply list_elem_of_further.
  - intros k Hk Hne. apply HrowB; [done|]. apply Forall_forall.
    intros l' Hl'.
    assert (l' ≠ l) as Hll by (by intros ->).
    rewrite (step_heap _ _ _ _ _ Hstep) by done.
    rewrite HheapA.
    + apply Hne; [|done]. apply elem_of_app. right. by apply list_elem_of_further.
    + intros Hin. apply (Hdisj _ Hin). by apply list_elem_of_further.
Qed.

End turns.

(** ** The state an edit leaves for [_save] *)

Lemma elem_of_list_insert_inv {A} (l : list A) j x z :
  z ∈ <[j := x]> l → z = x ∨ z ∈ l.
Proof.
  revert j. induction l as [|y l IH]; intros j; [by right|].
  destruct j as [|j]; simpl.
  - intros [->|Hz]%elem_of_cons; [by left|]. right. by apply list_elem_of_further.
  - intros [->|Hz]%elem_of_cons; [right; apply list_elem_of_here|].
    destruct (IH _ Hz) as [->|Hin]; [by left|].
    right. by apply list_elem_of_further.
Qed.

Lemma NoDup_list_insert {A} (l : list A) j x :
  NoDup l → x ∉ l → NoDup (<[j := x]> l).
Proof.
  revert j. induction l as [|y l IH]; intros j Hnd Hx; [done|].
  apply NoDup_cons in Hnd as [Hy Hnd]. apply not_elem_of_cons in Hx as [Hxy Hx].
  destruct j as [|j]; simpl.
  - by apply NoDup_cons.
  - apply NoDup_cons. split; [|by apply IH].
    intros [->|Hin]%elem_of_list_insert_inv; done.
Qed.

Lemma heap_ok_fresh h elements : heap_ok h elements → length h ∉ elements.
Proof.
  unfold heap_ok. rewrite Forall_forall. intros Hok Hin.
  specialize (Hok _ Hin). simpl in Hok. lia.
Qed.

(** The working copy never holds an object twice. *)
Lemma mergeLoop_NoDup items : ∀ i h elements parent h' elements',
  heap_ok h elements → NoDup elements →
  mergeLoop i items h elements parent = (h', inr elements') →
  NoDup elements'.
Proof.
  induction items as [|item rest IH];
    intros i h elements parent h' elements' Hok Hnd.
  - by intros [= <- <-].
  - rewrite mergeLoop_step by done. cbv zeta.
    pose proof (heap_ok_fresh _ _ Hok) as Hfresh.
    destruct (Element.id item) as [k|].
    + destruct (positionOf k (idsOf h elements)) as [j|]; [|done].
      apply IH; [by apply heap_ok_replace|]. by apply NoDup_list_insert.
    + apply IH; [by apply heap_ok_push|].
      apply NoDup_app. split_and!; [done| |apply NoDup_singleton].
      by intros l Hl ->%list_elem_of_singleton.
Qed.

Lemma omap_idsOf h elements :
  omap (λ l, Element.id (deref h l)) elements = omap id (idsOf h elements).
Proof.
  unfold idsOf. induction elements as [|l elements IH]; [done|].
  cbn [omap list_omap fmap list_fmap]. simpl.
  destruct (Element.id (deref h l)); simpl; by rewrite IH.
Qed.

(** A successful [mergeElements] leaves elements that agree with the store
    whenever the elements it started from did: the hypothesis of the theorems
    on [_save] holds of a transaction as loaded and is kept by every edit. *)
Lemma mergeElements_store_ok h s this items h' this' :
  store_ok h s (default [] (Transaction.elements this)) →
  mergeElements h this items = (h', this', Resolved) →
  store_ok h' s (default [] (Transaction.elements this')).
Proof.
  intros (Hnd & Hok & Hids & Hbelow) (elements & Hloop & _ & ->)%mergeElements_inv.
  simpl.
  destruct (mergeLoop_ids _ _ _ _ _ _ _ Hok Hloop) as [Hok' Hids'].
  split_and!.
  - exact (mergeLoop_NoDup _ _ _ _ _ _ _ Hok Hnd Hloop).
  - done.
  - rewrite omap_idsOf, Hids', omap_app, <- omap_idsOf.
    replace (omap id (replicate _ None)) with (@nil Z); [by rewrite app_nil_r|].
    generalize (length (newItems items)). intros n.
    induction n as [|n IH]; [done|]. by simpl.
  - apply Forall_forall. intros l Hl k Hk.
    assert (Some k ∈ idsOf h' elements) as Hin.
    { unfold idsOf. apply list_elem_of_fmap. exists l. by rewrite Hk. }
    rewrite Hids' in Hin. apply elem_of_app in Hin as [Hin|Hin].
    + unfold idsOf in Hin. apply list_elem_of_fmap in Hin as (l0 & Hk0 & Hl0).
      rewrite Forall_forall in Hbelow. by apply (Hbelow l0).
    + by apply elem_of_replicate in Hin as [? _].
Qed.

(** Agreement of a concrete heap and store, by evaluation. *)
Ltac solve_store_ok :=
  split_and!;
  [ compute_done
  | repeat constructor
  | compute_done
  | repeat constructor; intros ? [= <-]; vm_compute; reflexivity ].

Example editedSale_store_ok : store_ok editedHeap saleStore [4; 5; 6; 7]%nat.
Proof.
  apply (mergeElements_store_ok saleHeap saleStore sale saleEdit
           editedHeap editedSale); [solve_store_ok | reflexivity].
Qed.

(** ** _save *)

(** [_save] on a transaction with elements, loop by loop. *)
Lemma _save_elements h s this elements :
  Transaction.elements this = Some elements →
  ∃ s0 this0 h0 b h1 s1 h2 s2 h' s',
    Store.txnElement s0 = Store.txnElement s
    ∧ Store.txnElementSeq s0 = Store.txnElementSeq s
    ∧ this0 = (saveRow s this).2
    ∧ separateElements this0 h elements = (h0, b)
    ∧ foldl (deleteOne (children b)) (h0, s0) (deletes b) = (h1, s1)
    ∧ foldl saveOne (h1, s1) (parents b) = (h2, s2)
    ∧ foldl saveChild (h2, s2) (children b) = (h', s')
    ∧ _save h s this = (h', s', this0).
Proof.
  intros Hel. unfold _save, saveBatches.
  destruct (saveRow s this) as [s0 this0] eqn:Hrow.
  assert (Store.txnElement s0 = Store.txnElement s
    ∧ Store.txnElementSeq s0 = Store.txnElementSeq s
    ∧ Transaction.elements this0 = Some elements) as (Hrows & Hseq & Hel0).
  { unfold saveRow in Hrow.
    destruct (Transaction.id this); injection Hrow as <- <-; done. }
  rewrite Hel0.
  destruct (separateElements this0 h elements) as [h0 b] eqn:Hsep.
  set (s0' := Store.with_lastSavedDate _ s0).
  destruct (foldl (deleteOne (children b)) (h0, s0') (deletes b))
    as [h1 s1] eqn:Hdel.
  destruct (foldl saveOne (h1, s1) (parents b)) as [h2 s2] eqn:Hpar.
  destruct (foldl saveChild (h2, s2) (children b)) as [h' s'] eqn:Hch.
  exists s0', this0, h0, b, h1, s1, h2, s2, h', s'. done.
Qed.



Lemma zeroed_isKept e : zeroed e ↔ isKept e = false.
Proof.
  unfold zeroed, isKept. rewrite orb_false_iff, negb_false_iff, Z.eqb_eq. done.
Qed.

Lemma parented_hasParent e : parented e ↔ hasParent e = true.
Proof.
  unfold parented, hasParent. by rewrite orb_true_iff, bool_decide_eq_true.
Qed.








Example replaced_parent_saved :
  let s' :=
    (_save (mergeElements pendingHeap pendingSale secondEdit).1.1 pendingStore
       (mergeElements pendingHeap pendingSale secondEdit).1.2).1.2 in
  Transaction.elements pendingSale = Some [2; 5; 3; 4]%nat
  ∧ Element._parent (deref pendingHeap 3) = Some 2%nat
  ∧ (mergeElements pendingHeap pendingSale secondEdit).2 = Resolved
  ∧ Store.txnElement s' !! 1 = None
  ∧ Store.txnElement s' !! 3
    = Some (item (Some 3) (Some 1) (Some "GST") Element.Credit 10)
  ∧ Store.txnElement s' !! 4
    = Some (item (Some 4) (Some 1) (Some "PST") Element.Credit 0).
Proof. split_and!; reflexivity. Qed.

Example edited_sale_saved :
  (separateElements editedSale editedHeap [4; 5; 6; 7]%nat).2
  = mkBatches [7%nat] [5%nat] [4%nat; 6%nat]
  ∧ map_to_list (Store.txnElement (_save editedHeap saleStore editedSale).1.2)
    = [(4, item (Some 4) (Some 0) None Element.Debit 10);
       (2, item (Some 2) (Some 0) (Some "GST") Element.Credit 10)].
Proof. split; vm_compute; reflexivity. Qed.

(** C3, as the code has it. [_save] puts in the deletes batch exactly the
    elements with amount 0, no tax code and a non-zero id, with or without a
    parent reference, and their rows are gone from the store when it ends; of
    the elements with a nonzero amount or a tax code, those with a parent
    reference (a pending [_parent] or a [parentId]) form the children batch
    and the others the parents batch. *)
Theorem save_batches h s this elements :
  Transaction.elements this = Some elements →
  store_ok h s elements →
  deletes (separateElements (saveRow s this).2 h elements).2
  = filter (λ l, zeroed (deref h l)
                 ∧ JS.truthy (Element.id (deref h l)) = true) elements
  ∧ children (separateElements (saveRow s this).2 h elements).2
    = filter (λ l, ¬ zeroed (deref h l) ∧ parented (deref h l)) elements
  ∧ parents (separateElements (saveRow s this).2 h elements).2
    = filter (λ l, ¬ zeroed (deref h l) ∧ ¬ parented (deref h l)) elements
  ∧ ∀ l k,
      l ∈ deletes (separateElements (saveRow s this).2 h elements).2 →
      Element.id (deref h l) = Some k →
      Store.txnElement (_save h s this).1.2 !! k = None.
Proof.
  intros Hel Hstore.
  destruct (separateElements (saveRow s this).2 h elements) as [h0 b] eqn:Hsep.
  cbn [snd].
  destruct (separate_foldl _ _ _ _ _ _ Hsep) as (_ & Hp & Hc & Hd).
  simpl in Hp, Hc, Hd. split_and!.
  - rewrite Hd. apply list_filter_iff. intros l. by rewrite zeroed_isKept.
  - rewrite Hc. apply list_filter_iff. intros l.
    rewrite zeroed_isKept, parented_hasParent.
    destruct (isKept (deref h l)); intuition congruence.
  - rewrite Hp. apply list_filter_iff. intros l.
    rewrite zeroed_isKept, parented_hasParent.
    destruct (isKept (deref h l)), (hasParent (deref h l));
      intuition congruence.
  - intros l k Hl Hk.
    destruct (_save_elements h s this elements Hel)
      as (s0 & this0 & h0' & b0 & h1 & s1 & h2 & s2 & h' & s' & Hrows & Hseq
          & -> & Hsep' & Hdel & Hpar & Hch & Hsave).
    rewrite Hsep in Hsep'. injection Hsep' as <- <-.
    rewrite Hsave. cbn [fst snd].
    assert (store_ok h s0 elements) as Hstore0.
    { destruct Hstore as (? & ? & ? & ?). split_and!; [done..|]. by rewrite Hseq. }
    destruct (before_children _ _ _ _ _ _ _ _ _ _ Hstore0 Hsep Hdel Hpar)
      as (_ & _ & _ & Hseq2 & _ & Hgone & _).
    destruct (separateElements_elem_of _ _ _ _ _ Hsep)
      as (_ & _ & _ & Hind & Hnds).
    destruct Hstore0 as (Hnd & _ & _ & Hbelow).
    destruct (Hnds Hnd) as (_ & Hndc & _).
    destruct (foldl_local _ saveChild_local _ _ _ _ _ Hndc Hch)
      as (_ & _ & _ & _ & Habs).
    apply Habs; [|by eapply Hgone].
    rewrite Forall_forall in Hbelow. apply Hind in Hl as [Hl _].
    specialize (Hbelow l Hl k Hk). lia.
Qed.

Lemma save_batches_witness :
  store_ok editedHeap saleStore [4; 5; 6; 7]%nat
  ∧ deletes
      (separateElements (saveRow saleStore editedSale).2 editedHeap
         [4; 5; 6; 7]%nat).2
    = filter (λ l, zeroed (deref editedHeap l)
                   ∧ JS.truthy (Element.id (deref editedHeap l)) = true)
        [4; 5; 6; 7]%nat
  ∧ children
      (separateElements (saveRow saleStore editedSale).2 editedHeap
         [4; 5; 6; 7]%nat).2
    = filter (λ l, ¬ zeroed (deref editedHeap l) ∧ parented (deref editedHeap l))
        [4; 5; 6; 7]%nat
  ∧ parents
      (separateElements (saveRow saleStore editedSale).2 editedHeap
         [4; 5; 6; 7]%nat).2
    = filter (λ l, ¬ zeroed (deref editedHeap l)
                   ∧ ¬ parented (deref editedHeap l)) [4; 5; 6; 7]%nat
  ∧ ∀ l k,
      l ∈ deletes
            (separateElements (saveRow saleStore editedSale).2 editedHeap
               [4; 5; 6; 7]%nat).2 →
      Element.id (deref editedHeap l) = Some k →
      Store.txnElement (_save editedHeap saleStore editedSale).1.2 !! k = None.
Proof.
  assert (store_ok editedHeap saleStore [4; 5; 6; 7]%nat) as Hstore
    by solve_store_ok.
  split; [exact Hstore|].
  apply (save_batches editedHeap saleStore editedSale [4; 5; 6; 7]%nat).
  - reflexivity.
  - exact Hstore.
Defined.

(** C3, as the spec words it, fails on the edited sale: B (location 6) has
    amount 0, no tax code and a pending parent; the claim sends it to the
    children batch and keeps it out of the deletes, the code deletes it. *)
Lemma claimedBatches_counterexample :
  ¬ claimedBatches editedHeap [4; 5; 6; 7]%nat
      (separateElements (saveRow saleStore editedSale).2 editedHeap
         [4; 5; 6; 7]%nat).2.
Proof.
  intros Hclaim.
  destruct (Hclaim 6%nat) as (Hdel & Hchild & _); [compute_done|].
  assert (6%nat ∈ children
    (separateElements (saveRow saleStore editedSale).2 editedHeap
       [4; 5; 6; 7]%nat).2) as Hin.
  { apply Hchild. left. vm_compute. eauto. }
  vm_compute in Hin. apply list_elem_of_singleton in Hin. discriminate.
Qed.

(** * Further properties of the code *)

(** ** Balances of lists put together *)

(** X1. Putting a balanced list of elements in front of another list does not
    change whether the whole balances: when [a] is balanced, [a ++ b] is
    balanced exactly when [b] is. *)
Theorem isBalanced_app a b :
  isBalanced a = true → isBalanced (a ++ b) = isBalanced b.
Proof.
  intros Ha. apply eq_true_iff_eq. rewrite !isBalanced_record, foldl_app.
  apply sameButZeros_balanced, foldl_sameButZeros.
  by apply balanced_sameButZeros.
Qed.

Lemma isBalanced_app_witness :
  isBalanced [usd 1 10; usd (-1) 10] = true
  ∧ isBalanced ([usd 1 10; usd (-1) 10] ++ [eur 1 3]) = isBalanced [eur 1 3].
Proof.
  split; [reflexivity|].
  apply (isBalanced_app [usd 1 10; usd (-1) 10] [eur 1 3]). reflexivity.
Defined.

(** X2. [getSums] and [getDebitBalances] list the same currencies in the same
    order, whatever the mode: one entry for each currency among the
    elements, other than ['__proto__'], which leaves none. *)
Theorem getSums_currencies elements :
  Money.currency <$> getSums elements
  = Money.currency <$> getDebitBalances elements
  ∧ NoDup (Money.currency <$> getSums elements)
  ∧ ∀ c, c ∈ Money.currency <$> getSums elements
         ↔ c ∈ currencies elements ∧ c ≠ "__proto__".
Proof.
  unfold getSums, getDebitBalances.
  split_and!; [|apply getBalances_currencies_NoDup|apply getBalances_currencies].
  apply (StronglySorted_unique_strong (λ a b, String.compare a b = Lt)).
  - intros x1 x2 _ _ H1 H2. rewrite String.compare_antisym, H2 in H1. done.
  - eapply StronglySorted_fmap; [|apply getBalances_sorted]. by intros x y.
  - eapply StronglySorted_fmap; [|apply getBalances_sorted]. by intros x y.
  - apply NoDup_Permutation; [apply getBalances_currencies_NoDup..|].
    intros c. by rewrite !getBalances_currencies.
Qed.

(** ** The balancing elements of the sale form *)

(** Σ of the amounts of the balances in currency [c]. *)
Lemma balancingElements_balanceOf Cash AR type c balances : ∀ ids,
  balanceOf false c (balancingElements Cash AR type ids balances).1
  = amountIn c balances.
Proof.
  induction balances as [|m balances IH]; intros ids; [done|].
  cbn [balancingElements amountIn foldr]. fold (amountIn c balances).
  specialize (IH (tail ids)).
  destruct (balancingElements Cash AR type (tail ids) balances) as [els ids'].
  cbn [fst] in *. rewrite balanceOf_cons, IH. cbn.
  destruct (decide (Money.currency m = c)); [|done].
  unfold contribution, Element.Debit. cbn. lia.
Qed.

Lemma balancingElements_ids Cash AR type balances : ∀ ids,
  Element.id <$> (balancingElements Cash AR type ids balances).1
  = take (length balances) ids
    ++ replicate (length balances - length ids) None
  ∧ (balancingElements Cash AR type ids balances).2
    = drop (length balances) ids.
Proof.
  induction balances as [|m balances IH]; intros ids.
  - cbn. by rewrite drop_0.
  - cbn [balancingElements]. specialize (IH (tail ids)).
    destruct (balancingElements Cash AR type (tail ids) balances) as [els ids'].
    cbn [fst snd] in *. destruct IH as [IH1 IH2]. rewrite fmap_cons, IH1, IH2.
    destruct ids as [|id ids]; cbn.
    + rewrite !drop_nil, !take_nil. cbn. rewrite Nat.sub_0_r. done.
    + done.
Qed.

Lemma amountIn_cons c m l :
  amountIn c (m :: l)
  = if decide (Money.currency m = c)
    then JS.integer (Money.amount m) + amountIn c l
    else amountIn c l.
Proof. done. Qed.

Lemma amountIn_absent c (l : list Money.t) :
  c ∉ Money.currency <$> l → amountIn c l = 0.
Proof.
  induction l as [|m l IH]; [done|].
  rewrite fmap_cons, not_elem_of_cons, amountIn_cons. intros [Hne Hnin].
  destruct (decide (Money.currency m = c)); [congruence|]. by apply IH.
Qed.

Lemma amountIn_present (l : list Money.t) m :
  NoDup (Money.currency <$> l) → m ∈ l →
  amountIn (Money.currency m) l = JS.integer (Money.amount m).
Proof.
  induction l as [|m0 l IH]; [by intros _ ?%elem_of_nil|].
  rewrite fmap_cons, NoDup_cons, amountIn_cons. intros [Hnotin Hnd] Hin.
  apply elem_of_cons in Hin as [<-|Hin].
  - rewrite decide_True by done. rewrite amountIn_absent by done. lia.
  - destruct (decide (Money.currency m0 = Money.currency m)) as [E|_].
    + destruct Hnotin. rewrite E. by apply list_elem_of_fmap_2.
    + by apply IH.
Qed.

(** On exact elements [getCreditBalances] has, for each currency, the net
    balance, negated. *)
Lemma getCreditBalances_exactOn elements m :
  exactOn false elements →
  m ∈ getCreditBalances elements
  ↔ Money.currency m ∈ currencies elements
    ∧ Money.amount m
      = JS.int (- balanceOf false (Money.currency m) elements).
Proof.
  intros Hexact. unfold getCreditBalances.
  set (f := λ balance : Money.t,
         Money.mk (JS.Prim (JS.Num (JS.negate (Money.amount balance))))
           (Money.currency balance)).
  change (map f (_getBalances elements false))
    with (f <$> _getBalances elements false).
  rewrite list_elem_of_fmap. split.
  - intros (x & -> & [Hc Hx]%(getBalances_exactOn_elem_of _ _ _ Hexact)).
    split; [done|]. cbn. by rewrite Hx.
  - intros [Hc Hm].
    exists (Money.mk (JS.int (balanceOf false (Money.currency m) elements))
              (Money.currency m)).
    split.
    + destruct m as [a c]. cbn in *. by subst a.
    + by apply getBalances_exactOn_elem_of.
Qed.

Lemma getCreditBalances_currencies elements :
  Money.currency <$> getCreditBalances elements
  = Money.currency <$> _getBalances elements false.
Proof.
  unfold getCreditBalances.
  change (map ?f (_getBalances elements false))
    with (f <$> _getBalances elements false).
  by rewrite <- list_fmap_compose.
Qed.

Lemma getCreditBalances_amountIn c elements :
  exactOn false elements →
  amountIn c (getCreditBalances elements) = - balanceOf false c elements.
Proof.
  intros Hexact.
  assert (NoDup (Money.currency <$> getCreditBalances elements)) as Hnd.
  { rewrite getCreditBalances_currencies. apply getBalances_currencies_NoDup. }
  destruct (decide (c ∈ currencies elements)) as [Hin|Hnin].
  - assert (Money.mk (JS.int (- balanceOf false c elements)) c
            ∈ getCreditBalances elements) as Hm
      by (by apply getCreditBalances_exactOn).
    apply (amountIn_present _ _ Hnd Hm).
  - rewrite amountIn_absent.
    + by rewrite balanceOf_absent.
    + intros (x & -> & [Hc _]%(getCreditBalances_exactOn _ _ Hexact))
        %list_elem_of_fmap.
      done.
Qed.

(** The absolute balances of distinct currencies total at most the
    magnitude. *)
Lemma balances_magnitude sum (cs : list string) l :
  NoDup cs →
  foldr (λ c acc, Z.abs (balanceOf sum c l) + acc) 0 cs ≤ magnitude sum l.
Proof.
  intros Hnd. induction l as [|e l IH].
  - induction cs as [|c cs IHc]; [done|].
    apply NoDup_cons in Hnd as [_ Hnd]. cbn in *. specialize (IHc Hnd). lia.
  - rewrite magnitude_cons.
    assert (foldr (λ c acc, Z.abs (balanceOf sum c (e :: l)) + acc) 0 cs
            ≤ foldr (λ c acc, Z.abs (balanceOf sum c l) + acc) 0 cs
              + Z.abs (contribution sum e)); [|lia].
    clear IH. induction cs as [|c cs IHc]; [cbn; lia|].
    apply NoDup_cons in Hnd as [Hc Hnd]. specialize (IHc Hnd).
    cbn [foldr]. rewrite balanceOf_cons.
    destruct (decide (Element.currency e = c)) as [<-|Hne]; [|lia].
    assert (foldr (λ c acc, Z.abs (balanceOf sum c (e :: l)) + acc) 0 cs
            = foldr (λ c acc, Z.abs (balanceOf sum c l) + acc) 0 cs) as ->;
      [|lia].
    clear IHc Hnd. induction cs as [|c cs IHc]; [done|].
    apply not_elem_of_cons in Hc as [Hne Hc]. cbn [foldr].
    rewrite balanceOf_cons, decide_False by done. by rewrite IHc.
Qed.

Lemma balancingElements_magnitude Cash AR type balances : ∀ ids,
  magnitude false (balancingElements Cash AR type ids balances).1
  = foldr (λ m acc, Z.abs (JS.integer (Money.amount m)) + acc) 0 balances.
Proof.
  induction balances as [|m balances IH]; intros ids; [done|].
  cbn [balancingElements foldr]. specialize (IH (tail ids)).
  destruct (balancingElements Cash AR type (tail ids) balances) as [els ids'].
  cbn [fst] in *. rewrite magnitude_cons, IH.
  unfold contribution, Element.Debit. cbn. f_equal.
  by destruct (JS.integer (Money.amount m)).
Qed.

Lemma balancingElements_Forall Cash AR type (P : Element.IElement → Prop)
    balances :
  (∀ id m, m ∈ balances → P (balancingElement Cash AR type id m)) →
  ∀ ids, Forall P (balancingElements Cash AR type ids balances).1.
Proof.
  induction balances as [|m balances IH]; intros HP ids; [by constructor|].
  cbn [balancingElements].
  specialize (IH (λ id m' Hm', HP id m' (list_elem_of_further _ _ _ Hm'))
                (tail ids)).
  destruct (balancingElements Cash AR type (tail ids) balances) as [els ids'].
  cbn [fst] in *. constructor; [|done]. apply HP, list_elem_of_here.
Qed.

Lemma balanceOf_zeroing c ids :
  balanceOf false c (zeroingElement <$> ids) = 0.
Proof.
  induction ids as [|id ids IH]; [done|].
  rewrite fmap_cons, balanceOf_cons, IH. cbn. by destruct (decide ("" = c)).
Qed.

Lemma ordinary_empty : ordinary "".
Proof. compute_done. Qed.

(** When the aggregator computes exactly on the form's elements, with room
    for as much again, it computes exactly on the candidates. *)
Lemma balancedCandidates_exactOn Cash AR type ids elements :
  exactOn false elements → 2 * magnitude false elements ≤ 2 ^ 53 →
  exactOn false (balancedCandidates Cash AR type ids elements).
Proof.
  intros Hexact Hm. pose proof Hexact as [Hall _].
  unfold balancedCandidates.
  pose proof (balancingElements_magnitude Cash AR type
                (getCreditBalances elements) ids) as Hmag.
  assert (Forall (λ e, ordinary (Element.currency e)
                       ∧ within (Element.drcr e) ∧ within (Element.amount e))
            (balancingElements Cash AR type ids
               (getCreditBalances elements)).1) as Hbal.
  { apply balancingElements_Forall.
    intros id m [Hc Ha]%(getCreditBalances_exactOn _ _ Hexact).
    cbn. rewrite Ha. unfold JS.int. cbn [JS.integer]. split_and!.
    - rewrite Forall_forall in Hall. unfold currencies in Hc.
      apply list_elem_of_In, in_map_iff in Hc as (e & <- & He).
      by apply Hall, list_elem_of_In.
    - compute_done.
    - pose proof (balanceOf_magnitude false (Money.currency m) elements).
      pose proof (magnitude_nonneg false elements). unfold within. lia. }
  destruct (balancingElements _ _ _ _ _) as [balancing ids'].
  cbn [fst] in *.
  assert (foldr (λ m acc, Z.abs (JS.integer (Money.amount m)) + acc) 0
            (getCreditBalances elements)
          ≤ magnitude false elements) as Hle.
  { etrans; [|apply (balances_magnitude false
                       (Money.currency <$> getCreditBalances elements))].
    - assert (Forall (λ m, Money.amount m
                = JS.int (- balanceOf false (Money.currency m) elements))
                (getCreditBalances elements)) as Hms.
      { apply Forall_forall. intros m Hm'.
        by apply getCreditBalances_exactOn in Hm' as [_ ?]. }
      revert Hms. generalize (getCreditBalances elements). intros ms Hms.
      induction Hms as [|m ms Hm' _ IH]; [done|].
      rewrite fmap_cons. cbn [foldr]. rewrite Hm'. unfold JS.int.
      cbn [JS.integer]. lia.
    - rewrite getCreditBalances_currencies.
      apply getBalances_currencies_NoDup. }
  split.
  - rewrite !Forall_app. split_and!; [done|done|].
    apply Forall_fmap, Forall_forall. intros id _. cbn.
    split_and!; [apply ordinary_empty|compute_done|compute_done].
  - rewrite !magnitude_app, Hmag.
    assert (magnitude false (zeroingElement <$> ids') = 0) as ->.
    { clear. induction ids' as [|id ids IH]; [done|].
      rewrite fmap_cons, magnitude_cons, IH. done. }
    lia.
Qed.

Lemma balancedCandidates_balanced Cash AccountsReceivable type ids elements :
  exactOn false elements → 2 * magnitude false elements ≤ 2 ^ 53 →
  isBalanced (balancedCandidates Cash AccountsReceivable type ids elements)
  = true.
Proof.
  intros Hexact Hm.
  apply isBalanced_all; [by apply balancedCandidates_exactOn|].
  intros c. unfold balancedCandidates.
  pose proof (balancingElements_balanceOf Cash AccountsReceivable type c
                (getCreditBalances elements) ids) as Hb.
  destruct (balancingElements _ _ _ _ _) as [balancing ids'].
  cbn [fst] in Hb.
  rewrite !balanceOf_app, Hb, getCreditBalances_amountIn, balanceOf_zeroing
    by done.
  lia.
Qed.

(** X3. The candidates the sale form hands to [mergeElements] balance. When
    the aggregator computes exactly on the elements the form produced
    (ordinary currency codes, signs and amounts within [2^53]) and the
    absolute values of drcr × amount total at most [2^52], then, whatever
    old debit ids there are, the elements followed by a debit element for
    each credit balance and a zeroing element for each id left over satisfy
    [isBalanced]. *)
Theorem balancedCandidates_isBalanced (Cash AccountsReceivable : Z)
    (type : TransactionType) (ids : list (option Z))
    (elements : list Element.IElement) :
  exactOn false elements → 2 * magnitude false elements ≤ 2 ^ 53 →
  isBalanced (balancedCandidates Cash AccountsReceivable type ids elements)
  = true.
Proof. apply balancedCandidates_balanced. Qed.

Lemma balancedCandidates_isBalanced_witness :
  exactOn false [usd Element.Credit 10; eur Element.Credit 5]
  ∧ isBalanced
      (balancedCandidates 100 200 Sale [Some 7]
         [usd Element.Credit 10; eur Element.Credit 5]) = true.
Proof.
  assert (exactOn false [usd Element.Credit 10; eur Element.Credit 5]) as Hexact
    by compute_done.
  split; [exact Hexact|].
  apply (balancedCandidates_isBalanced 100 200 Sale [Some 7]
           [usd Element.Credit 10; eur Element.Credit 5] Hexact).
  by vm_compute.
Defined.

(** Without the bound the candidates need not balance: with a currency code
    that names an inherited function the balance is a string, and its
    balancing element carries no amount. *)
Example balancedCandidates_inherited :
  isBalanced
    (balancedCandidates 100 200 Sale []
       [posting "constructor" Element.Credit 10]) = false.
Proof. reflexivity. Qed.

(** X4. The elements the sale form appends carry the old debit ids, each once
    and in order: the balancing elements take ids from the front of the
    list (and no id once it is empty), the zeroing elements take the ids
    that are left. *)
Theorem balancedCandidates_ids (Cash AccountsReceivable : Z)
    (type : TransactionType) (ids : list (option Z))
    (elements : list Element.IElement) :
  Element.id
    <$> drop (length elements)
          (balancedCandidates Cash AccountsReceivable type ids elements)
  = ids ++ replicate (length (getCreditBalances elements) - length ids) None.
Proof.
  unfold balancedCandidates.
  destruct (balancingElements_ids Cash AccountsReceivable type
              (getCreditBalances elements) ids) as [H1 H2].
  destruct (balancingElements _ _ _ _ _) as [balancing ids'].
  cbn [fst snd] in *. subst ids'.
  rewrite drop_app_length, fmap_app, H1, <- list_fmap_compose.
  set (n := length (getCreditBalances elements)).
  replace (Element.id ∘ zeroingElement <$> drop n ids) with (drop n ids).
  2:{ generalize (drop n ids). intros l. induction l as [|x l IH]; [done|].
      cbn. by rewrite <- IH. }
  destruct (decide (n ≤ length ids)%nat) as [Hle|Hgt].
  - replace (n - length ids)%nat with 0%nat by lia. cbn.
    rewrite !app_nil_r. apply take_drop.
  - rewrite take_ge, drop_ge by lia. by rewrite app_nil_r.
Qed.

(** ** The first element of a sign and the ids of a sign *)

(** X5. The id of the element [getFirstCrElement] returns is the first entry
    of [getCrElementIds] for the same sign, and there is no such element
    exactly when [getCrElementIds] is empty. *)
Theorem getFirstCrElement_id h this drcr :
  (λ l, Element.id (deref h l)) <$> getFirstCrElement h this drcr
  = head (getCrElementIds h this drcr).
Proof.
  unfold getFirstCrElement, getCrElementIds. cbv zeta.
  destruct (Transaction.elements this) as [elements|]; [|done].
  generalize (default Element.Credit drcr). intros d.
  assert (∀ i, (λ l, Element.id (deref h l)) <$>
      (snd <$> (prod_map (λ j, i + j)%nat id <$>
        list_find (λ l, Element.drcr (deref h l) = d) elements))
    = head ((λ l, Element.id (deref h l))
        <$> filter (λ l, Element.drcr (deref h l) = d) elements)) as H.
  { induction elements as [|l elements IH]; intros i; [done|].
    cbn [list_find]. destruct (decide (Element.drcr (deref h l) = d)) as [E|E].
    - rewrite filter_cons_True by done. done.
    - rewrite filter_cons_False by done. rewrite <- (IH (S i)).
      destruct (list_find _ elements) as [[j x]|]; done. }
  rewrite <- (H 0%nat). by destruct (list_find _ elements) as [[j x]|].
Qed.

(** ** singleCurrency *)

Lemma singleCurrency_inv currency otherCurrencies h this c :
  singleCurrency currency otherCurrencies h this = Some c →
  c = currency ∧ otherCurrencies = []
  ∧ ∀ elements, Transaction.elements this = Some elements →
      ∀ e, e ∈ view h elements → Element.currency e = c.
Proof.
  unfold singleCurrency. case_bool_decide as Hlen; [done|].
  assert (otherCurrencies = []) as ->.
  { destruct otherCurrencies; [done|]. cbn in Hlen. lia. }
  destruct (Transaction.elements this) as [elements|].
  - destruct (forallb _ elements) eqn:Hall; [|done]. intros [= <-].
    split_and!; [done..|]. intros ? [= <-] e.
    unfold view. change (map ?f elements) with (f <$> elements).
    intros (l & -> & Hl)%list_elem_of_fmap.
    rewrite forallb_forall in Hall. apply list_elem_of_In, Hall in Hl.
    by apply bool_decide_eq_true in Hl.
  - intros [= <-]. split_and!; [done..|]. by intros ? [=].
Qed.

(** X6. When [singleCurrency] returns a currency, the transaction has at
    least one element and the aggregator computes exactly on its elements
    (an ordinary currency code, signs and amounts within [2^53], absolute
    contributions that total at most [2^53]), [_getBalances] of the elements
    is a single entry, in that currency, holding the total of all the
    elements. *)
Theorem singleCurrency_balances currency otherCurrencies h this elements c sum :
  singleCurrency currency otherCurrencies h this = Some c →
  Transaction.elements this = Some elements →
  elements ≠ [] →
  exactOn sum (view h elements) →
  _getBalances (view h elements) sum
  = [Money.mk (JS.int (balanceOf sum c (view h elements))) c].
Proof.
  intros (_ & _ & Hall)%singleCurrency_inv Hel Hne Hexact.
  specialize (Hall _ Hel).
  assert (c ∈ currencies (view h elements)) as Hc.
  { destruct elements as [|l elements]; [done|].
    cbn. rewrite (Hall (Element.fields (deref h l))); [apply list_elem_of_here|].
    cbn. apply list_elem_of_here. }
  apply (StronglySorted_unique_strong currencyBelow).
  - intros x1 x2 _ _ H1 H2. destruct (currencyBelow_asym _ _ H1 H2).
  - apply getBalances_sorted.
  - repeat constructor.
  - apply NoDup_Permutation.
    + eapply NoDup_fmap_1, getBalances_currencies_NoDup.
    + apply NoDup_singleton.
    + intros x. rewrite getBalances_exactOn_elem_of, list_elem_of_singleton by done.
      split.
      * intros [Hx Ha]. unfold currencies in Hx.
        change (map ?f ?l) with (f <$> l) in Hx.
        apply list_elem_of_fmap in Hx as (e & Hxe & He).
        apply Hall in He. destruct x as [a cx]. cbn in *. congruence.
      * intros ->. done.
Qed.

Lemma singleCurrency_balances_witness :
  exactOn false (view ledgerHeap [0; 1]%nat)
  ∧ _getBalances (view ledgerHeap [0; 1]%nat) false
    = [Money.mk (JS.int 0) "USD"].
Proof.
  assert (exactOn false (view ledgerHeap [0; 1]%nat)) as Hexact by compute_done.
  split; [exact Hexact|].
  apply (singleCurrency_balances "USD" [] ledgerHeap ledger [0; 1]%nat "USD" false);
    [reflexivity|reflexivity|done|exact Hexact].
Defined.

(** ** More on sorting *)

(** Only the comparisons between members of the list matter. *)
Lemma insert_ext {A} (cmp cmp' : A → A → Z) x l :
  Forall (λ y, cmp x y = cmp' x y) l → JS.insert cmp x l = JS.insert cmp' x l.
Proof.
  induction 1 as [|y l Hy _ IH]; [done|]. cbn. by rewrite Hy, IH.
Qed.

Lemma sort_ext {A} (cmp cmp' : A → A → Z) l :
  (∀ x y, x ∈ l → y ∈ l → cmp x y = cmp' x y) →
  JS.sort cmp l = JS.sort cmp' l.
Proof.
  induction l as [|x l IH]; [done|]. intros H.
  change (JS.insert cmp x (JS.sort cmp l) = JS.insert cmp' x (JS.sort cmp' l)).
  rewrite <- IH.
  - apply insert_ext, Forall_forall. intros y Hy.
    rewrite sort_Permutation in Hy.
    apply H; [apply list_elem_of_here | by apply list_elem_of_further].
  - intros a b Ha Hb. apply H; by apply list_elem_of_further.
Qed.

(** Sorting a sorted list leaves it as it is. *)
Lemma sort_sorted {A} (cmp : A → A → Z) (R : relation A) l :
  (∀ a b, cmp a b <= 0 ↔ R a b) →
  StronglySorted R l → JS.sort cmp l = l.
Proof.
  intros Hcmp. induction 1 as [|x l _ IH Hx]; [done|].
  change (JS.insert cmp x (JS.sort cmp l) = x :: l). rewrite IH. destruct l as [|y l]; [done|]. cbn.
  apply Forall_cons in Hx as [Hxy _]. apply Hcmp, Z.leb_le in Hxy.
  by rewrite Hxy.
Qed.

(** ** condenseElements *)

Lemma view_Permutation h l l' : l ≡ₚ l' → view h l ≡ₚ view h l'.
Proof. intros H. unfold view. by apply fmap_Permutation. Qed.

Lemma view_cons h l ls : view h (l :: ls) = Element.fields (deref h l) :: view h ls.
Proof. done. Qed.

(** What the filter of [condenseElements] drops has amount 0. *)
Lemma survives_false e : survives e = false → Element.amount e = 0.
Proof.
  unfold survives. intros [H _]%orb_false_elim.
  apply negb_false_iff, Z.eqb_eq in H. done.
Qed.

Lemma balanceOf_survivors h sum c elements :
  balanceOf sum c (view h (filter (λ l, survives (deref h l) = true) elements))
  = balanceOf sum c (view h elements).
Proof.
  induction elements as [|l elements IH]; [done|].
  rewrite view_cons, balanceOf_cons.
  destruct (survives (deref h l)) eqn:Hs.
  - rewrite filter_cons_True by done. by rewrite view_cons, balanceOf_cons, IH.
  - rewrite filter_cons_False by (by rewrite Hs). rewrite IH.
    apply survives_false in Hs. unfold contribution. rewrite Hs.
    destruct (decide _), sum; lia.
Qed.

Lemma exactOn_survivors h sum elements :
  exactOn sum (view h elements) →
  exactOn sum (view h (filter (λ l, survives (deref h l) = true) elements)).
Proof.
  intros [Hall Hm]. split.
  - unfold view in *. change (map ?f ?l) with (f <$> l) in *.
    rewrite Forall_fmap in *. rewrite Forall_forall in *.
    intros l [_ Hl]%list_elem_of_filter. by apply Hall.
  - etrans; [|exact Hm]. clear. induction elements as [|l elements IH]; [done|].
    rewrite view_cons, magnitude_cons.
    destruct (survives (deref h l)) eqn:Hs.
    + rewrite filter_cons_True by done. rewrite view_cons, magnitude_cons. lia.
    + rewrite filter_cons_False by (by rewrite Hs). lia.
Qed.

(** X7. [condenseElements] changes no balance: for every currency, in net and
    in sum mode, the total of the elements it leaves is the total of the
    elements it was given; and when the aggregator computes exactly on the
    elements (ordinary currency codes, signs and amounts within [2^53],
    absolute values of drcr × amount that total at most [2^53]), the
    transaction is [balanced] after it exactly when it was before. *)
Theorem condenseElements_balances h this elements :
  Transaction.elements this = Some elements →
  ∃ elements',
    Transaction.elements (condenseElements h this) = Some elements'
    ∧ (∀ sum c, balanceOf sum c (view h elements')
                = balanceOf sum c (view h elements))
    ∧ (exactOn false (view h elements) →
       balanced h (condenseElements h this) = balanced h this).
Proof.
  intros Hel. unfold condenseElements, balanced. rewrite Hel. cbn.
  eexists. split; [done|].
  assert (∀ sum c,
    balanceOf sum c
      (view h (JS.sort (λ a b, compareId (deref h a) (deref h b))
                 (filter (λ l, survives (deref h l) = true) elements)))
    = balanceOf sum c (view h elements)) as Hsame.
  { intros sum c.
    rewrite (balanceOf_Permutation _ _ _ _
               (view_Permutation h _ _ (sort_Permutation _ _))).
    apply balanceOf_survivors. }
  split; [done|]. intros Hexact. apply isBalanced_ext; [|done|apply Hsame].
  eapply exactOn_Permutation; [|by apply exactOn_survivors].
  symmetry. apply view_Permutation, sort_Permutation.
Qed.

Lemma condenseElements_balances_witness :
  Transaction.elements editedSale = Some [4; 5; 6; 7]%nat
  ∧ exactOn false (view editedHeap [4; 5; 6; 7]%nat)
  ∧ ∃ elements',
      Transaction.elements (condenseElements editedHeap editedSale)
      = Some elements'
      ∧ (∀ sum c, balanceOf sum c (view editedHeap elements')
                  = balanceOf sum c (view editedHeap [4; 5; 6; 7]%nat))
      ∧ balanced editedHeap (condenseElements editedHeap editedSale)
        = balanced editedHeap editedSale.
Proof.
  assert (exactOn false (view editedHeap [4; 5; 6; 7]%nat)) as Hexact
    by compute_done.
  split; [reflexivity|]. split; [exact Hexact|].
  destruct (condenseElements_balances editedHeap editedSale [4; 5; 6; 7]%nat
              eq_refl) as (elements' & Hel & Hsame & Hbal).
  exists elements'. split_and!; [exact Hel|exact Hsame|exact (Hbal Hexact)].
Defined.

Lemma compareId_idOf h a b :
  is_Some (Element.id (deref h a)) → is_Some (Element.id (deref h b)) →
  compareId (deref h a) (deref h b) = idOf h a - idOf h b.
Proof. unfold compareId, idOf. by intros [x ->] [y ->]. Qed.

Lemma condense_sort h (elements : list nat) :
  Forall (λ l, is_Some (Element.id (deref h l))) elements →
  JS.sort (λ a b, compareId (deref h a) (deref h b)) elements
  = JS.sort (λ a b, idOf h a - idOf h b) elements.
Proof.
  rewrite Forall_forall. intros Hids. apply sort_ext.
  intros x y Hx Hy. apply compareId_idOf; by apply Hids.
Qed.

Lemma sort_idOf_sorted h (elements : list nat) :
  StronglySorted (λ a b, idOf h a ≤ idOf h b)
    (JS.sort (λ a b, idOf h a - idOf h b) elements).
Proof.
  apply sort_StronglySorted.
  - intros a b. lia.
  - intros a b c. lia.
  - intros a b. lia.
Qed.

(** X8. When every element that passes the filter of [condenseElements] has an
    id, the elements it leaves are those that pass the filter, each as often
    as before, in ascending order of id. *)
Theorem condenseElements_sorted h this elements :
  Transaction.elements this = Some elements →
  Forall (λ l, survives (deref h l) = true → is_Some (Element.id (deref h l)))
    elements →
  ∃ elements',
    Transaction.elements (condenseElements h this) = Some elements'
    ∧ elements' ≡ₚ filter (λ l, survives (deref h l) = true) elements
    ∧ StronglySorted (λ a b, idOf h a ≤ idOf h b) elements'.
Proof.
  intros Hel Hids. unfold condenseElements. rewrite Hel. cbn.
  eexists. split; [done|]. split; [apply sort_Permutation|].
  rewrite condense_sort; [apply sort_idOf_sorted|].
  apply Forall_forall. intros l [Hl Hs]%list_elem_of_filter.
  rewrite Forall_forall in Hids. by apply Hids.
Qed.

(** X9. When every element that passes the filter of [condenseElements] has an
    id, calling [condenseElements] a second time changes nothing. *)
Theorem condenseElements_idempotent h this :
  Forall (λ l, survives (deref h l) = true → is_Some (Element.id (deref h l)))
    (default [] (Transaction.elements this)) →
  condenseElements h (condenseElements h this) = condenseElements h this.
Proof.
  intros Hids. unfold condenseElements at 2 3.
  destruct (Transaction.elements this) as [elements|] eqn:Hel;
    [|by unfold condenseElements; rewrite Hel].
  cbn in Hids. unfold condenseElements, Transaction.with_elements. cbn.
  f_equal. f_equal.
  set (kept := filter (λ l, survives (deref h l) = true) elements).
  set (cmp := λ a b, compareId (deref h a) (deref h b)).
  assert (Forall (λ l, survives (deref h l) = true) (JS.sort cmp kept)) as Hall.
  { apply Forall_forall. intros l. rewrite sort_Permutation.
    by intros [? ?]%list_elem_of_filter. }
  assert (Forall (λ l, is_Some (Element.id (deref h l))) (JS.sort cmp kept))
    as Hsome.
  { apply Forall_forall. intros l Hl. rewrite Forall_forall in Hids, Hall.
    apply Hids; [|by apply Hall]. rewrite sort_Permutation in Hl.
    by apply list_elem_of_filter in Hl as [_ ?]. }
  assert (filter (λ l, survives (deref h l) = true) (JS.sort cmp kept)
          = JS.sort cmp kept) as ->.
  { clear Hsome. induction Hall as [|l ls Hl _ IH]; [done|].
    rewrite filter_cons_True by done. by rewrite IH. }
  unfold cmp at 1. rewrite condense_sort by done.
  apply (sort_sorted _ (λ a b, idOf h a ≤ idOf h b)); [intros a b; lia|].
  unfold cmp. rewrite condense_sort; [apply sort_idOf_sorted|].
  apply Forall_forall. intros l Hl. rewrite Forall_forall in Hsome.
  apply Hsome. by rewrite sort_Permutation.
Qed.

(** ** The objects of a merge *)

Lemma isChildMarker_prepare parent item :
  isChildMarker (prepare parent item) = isChildMarker item.
Proof.
  unfold prepare. destruct (isChildMarker (Element.construct item)) eqn:E.
  - unfold isChildMarker in *. cbn in *. done.
  - unfold isChildMarker in *. cbn in *. by rewrite bool_decide_eq_false_2.
Qed.

Lemma mergeLoop_prepared items : ∀ i h elements parent h' elements',
  mergeLoop i items h elements parent = (h', inr elements') →
  h' = h ++ prepared (length h) parent items.
Proof.
  induction items as [|item rest IH]; intros i h elements parent h' elements'.
  - intros [= <- <-]. by rewrite app_nil_r.
  - rewrite mergeLoop_cons. cbv zeta. cbn [prepared].
    assert (∀ els', mergeLoop (S i) rest (h ++ [prepare parent item]) els'
        (if isChildMarker (prepare parent item) then parent else Some (length h))
        = (h', inr elements') →
      h' = h ++ prepare parent item
             :: prepared (S (length h))
                  (if isChildMarker (prepare parent item) then parent
                   else Some (length h)) rest) as Hrest.
    { intros els' ->%IH. rewrite <- app_assoc, length_app. cbn.
      by rewrite Nat.add_1_r. }
    destruct (Element.id item) as [k|]; [|by apply Hrest].
    destruct (list_find _ elements) as [[j l]|]; [by apply Hrest|done].
Qed.

Lemma lastNonChild_cons item0 rest n :
  lastNonChild (item0 :: rest) (S n)
  = match lastNonChild rest n with
    | Some m => Some (S m)
    | None => if isChildMarker item0 then None else Some 0%nat
    end.
Proof.
  induction n as [|n IH]; [by cbn; destruct (isChildMarker item0)|].
  change (lastNonChild (item0 :: rest) (S (S n)))
    with (match rest !! n with
          | Some item =>
              if isChildMarker item then lastNonChild (item0 :: rest) (S n)
              else Some (S n)
          | None => lastNonChild (item0 :: rest) (S n)
          end).
  rewrite IH. cbn [lastNonChild].
  destruct (rest !! n) as [item|]; [|done].
  by destruct (isChildMarker item).
Qed.

(** [lastNonChild] is what its name says. *)
Lemma lastNonChild_Some items n m :
  lastNonChild items n = Some m →
  (m < n)%nat
  ∧ (∃ item, items !! m = Some item ∧ isChildMarker item = false)
  ∧ ∀ j item, (m < j < n)%nat → items !! j = Some item →
      isChildMarker item = true.
Proof.
  induction n as [|n IH]; [done|]. cbn [lastNonChild].
  destruct (items !! n) as [item|] eqn:Hn.
  - destruct (isChildMarker item) eqn:Hc.
    + intros (Hlt & Hm & Hbetween)%IH. split_and!; [lia|done|].
      intros j item' Hj Hitem'. destruct (decide (j = n)) as [->|Hne].
      * congruence.
      * eapply Hbetween; [|done]. lia.
    + intros [= <-]. split_and!; [lia|by eauto|]. intros j item' Hj. lia.
  - intros (Hlt & Hm & Hbetween)%IH. split_and!; [lia|done|].
    intros j item' Hj Hitem'. destruct (decide (j = n)) as [->|Hne].
    + congruence.
    + eapply Hbetween; [|done]. lia.
Qed.

Lemma lastNonChild_first items first n :
  items !! 0%nat = Some first → isChildMarker first = false →
  is_Some (lastNonChild items (S n)).
Proof.
  intros H0 Hc. induction n as [|n IH].
  - cbn. rewrite H0, Hc. eauto.
  - change (lastNonChild items (S (S n)))
      with (match items !! S n with
            | Some item =>
                if isChildMarker item then lastNonChild items (S n)
                else Some (S n)
            | None => lastNonChild items (S n)
            end).
    destruct (items !! S n) as [item|]; [|done].
    destruct (isChildMarker item); [done|eauto].
Qed.

(** The object of candidate [n]. *)
Lemma prepared_lookup items : ∀ n0 parent n item,
  items !! n = Some item →
  prepared n0 parent items !! n
  = Some (prepare (default parent
                     (Some <$> ((λ m, n0 + m)%nat <$> lastNonChild items n)))
            item).
Proof.
  induction items as [|item0 rest IH]; [done|].
  intros n0 parent [|n] item Hn; cbn [prepared].
  - injection Hn as ->. done.
  - cbn in Hn. cbn [lookup list_lookup]. rewrite (IH _ _ _ _ Hn).
    rewrite lastNonChild_cons, isChildMarker_prepare. do 2 f_equal.
    destruct (lastNonChild rest n) as [m|]; cbn.
    + f_equal. lia.
    + destruct (isChildMarker item0); cbn; [done|]. f_equal. lia.
Qed.

Lemma mergeElements_resolved_first h this items h' this' :
  mergeElements h this items = (h', this', Resolved) →
  ∃ first, items !! 0%nat = Some first
    ∧ JS.truthy (Element.parentId first) = false.
Proof.
  unfold mergeElements. destruct items as [|first rest]; [done|].
  destruct (list_find _ (first :: rest)) as [[i item]|]; [done|].
  destruct (JS.truthy (Element.parentId first)) eqn:Hfirst; [done|].
  intros _. eauto.
Qed.

Lemma truthy_isChildMarker item :
  JS.truthy (Element.parentId item) = false → isChildMarker item = false.
Proof.
  unfold isChildMarker. intros H. apply bool_decide_eq_false_2. intros E.
  by rewrite E in H.
Qed.

(** X10. After a successful [mergeElements], the object built for a child
    candidate (parentId = -1) keeps the candidate's fields and has as
    [_parent] the object built for the most recent non-child candidate
    before it; the object built for any other candidate is the candidate
    with [parentId] 0 and no [_parent]. *)
Theorem mergeElements_parents h this items h' this' n item :
  mergeElements h this items = (h', this', Resolved) →
  items !! n = Some item →
  if isChildMarker item
  then
    Element.fields (deref h' (length h + n)) = item
    ∧ ∃ m parent,
        (m < n)%nat ∧ items !! m = Some parent ∧ isChildMarker parent = false
        ∧ (∀ j between, (m < j < n)%nat → items !! j = Some between →
             isChildMarker between = true)
        ∧ Element._parent (deref h' (length h + n)) = Some (length h + m)%nat
  else
    deref h' (length h + n)
    = Element.with_parentId (Some 0) (Element.construct item).
Proof.
  intros Hmerge Hn.
  destruct (mergeElements_resolved_first _ _ _ _ _ Hmerge) as (first & H0 & Hfirst).
  apply truthy_isChildMarker in Hfirst.
  apply mergeElements_inv in Hmerge as (elements & Hloop & _).
  apply mergeLoop_prepared in Hloop as ->.
  unfold deref. rewrite lookup_total_app_r by lia.
  replace (length h + n - length h)%nat with n by lia.
  rewrite (list_lookup_total_correct _ _ _ (prepared_lookup _ _ _ _ _ Hn)).
  unfold prepare. change (isChildMarker (Element.construct item))
    with (isChildMarker item).
  destruct (isChildMarker item) eqn:Hc; [|done].
  split; [done|]. destruct n as [|n]; [congruence|].
  destruct (lastNonChild_first items first n H0 Hfirst) as [m Hm].
  rewrite Hm. apply lastNonChild_Some in Hm as (Hlt & (parent & Hp & Hpc) & Hb).
  exists m, parent. split_and!; done.
Qed.

Lemma mergeElements_parents_witness :
  mergeElements saleHeap sale saleEdit = (editedHeap, editedSale, Resolved)
  ∧ saleEdit !! 2%nat = Some (item (Some 3) (Some (-1)) None Element.Credit 0)
  ∧ Element.fields (deref editedHeap (length saleHeap + 2))
    = item (Some 3) (Some (-1)) None Element.Credit 0
  ∧ ∃ m parent,
      (m < 2)%nat ∧ saleEdit !! m = Some parent ∧ isChildMarker parent = false
      ∧ (∀ j between, (m < j < 2)%nat → saleEdit !! j = Some between →
           isChildMarker between = true)
      ∧ Element._parent (deref editedHeap (length saleHeap + 2))
        = Some (length saleHeap + m)%nat.
Proof.
  split; [reflexivity|]. split; [reflexivity|].
  apply (mergeElements_parents saleHeap sale saleEdit editedHeap editedSale
           2%nat (item (Some 3) (Some (-1)) None Element.Credit 0));
    reflexivity.
Defined.

(** ** A merge of new candidates only *)

Lemma mergeLoop_append items : ∀ i h elements parent,
  Forall (λ item, Element.id item = None) items →
  mergeLoop i items h elements parent
  = (h ++ prepared (length h) parent items,
     inr (elements ++ seq (length h) (length items))).
Proof.
  induction items as [|item rest IH]; intros i h elements parent Hids.
  - cbn. by rewrite !app_nil_r.
  - apply Forall_cons in Hids as [Hid Hids].
    rewrite mergeLoop_cons. cbv zeta. rewrite Hid, IH by done.
    cbn [prepared length seq]. rewrite <- !app_assoc, length_app. cbn.
    by rewrite Nat.add_1_r.
Qed.

Lemma view_allocated h objs :
  view (h ++ objs) (seq (length h) (length objs)) = Element.fields <$> objs.
Proof.
  revert h. induction objs as [|e objs IH]; intros h; [done|].
  cbn [length seq]. rewrite view_cons.
  rewrite fmap_cons. f_equal.
  - unfold deref. rewrite lookup_total_app_r by lia. by rewrite Nat.sub_diag.
  - specialize (IH (h ++ [e])). rewrite length_app, <- app_assoc in IH.
    cbn in IH. by rewrite Nat.add_1_r in IH.
Qed.

Lemma prepared_length items : ∀ n parent,
  length (prepared n parent items) = length items.
Proof.
  induction items as [|item rest IH]; intros n parent; [done|].
  cbn. by rewrite IH.
Qed.

Lemma prepare_fields parent item :
  Element.fields (prepare parent item) = Element.fields (prepare None item).
Proof. unfold prepare. by destruct (isChildMarker _). Qed.

Lemma prepared_fields items : ∀ n parent,
  Element.fields <$> prepared n parent items
  = (λ item, Element.fields (prepare None item)) <$> items.
Proof.
  induction items as [|item rest IH]; intros n parent; [done|].
  cbn [prepared]. rewrite !fmap_cons, IH. f_equal. apply prepare_fields.
Qed.

Lemma isBalanced_prepared items :
  isBalanced ((λ item, Element.fields (prepare None item)) <$> items)
  = isBalanced items.
Proof.
  apply (isBalanced_fields (λ item, Element.fields (prepare None item))).
  intros e. unfold prepare. by destruct (isChildMarker _).
Qed.

(** X11. On a transaction without elements, [mergeElements] of a non-empty,
    balanced list of candidates without ids, none with a foreign
    transactionId and the first not a child, resolves, and the elements are
    then the candidates, in order (a non-child with [parentId] 0). *)
Theorem mergeElements_new h this items :
  default [] (Transaction.elements this) = [] →
  items ≠ [] →
  Forall (λ item, Element.id item = None
                  ∧ transactionIdMismatch this item = false) items →
  (∀ first, items !! 0%nat = Some first →
     JS.truthy (Element.parentId first) = false) →
  isBalanced items = true →
  ∃ h',
    mergeElements h this items
    = (h',
       Transaction.with_elements (Some (seq (length h) (length items))) this,
       Resolved)
    ∧ view h' (seq (length h) (length items))
      = (λ item, Element.fields (prepare None item)) <$> items.
Proof.
  intros Hel Hne Hall Hfirst Hbal.
  exists (h ++ prepared (length h) None items).
  assert (view (h ++ prepared (length h) None items)
            (seq (length h) (length items))
          = (λ item, Element.fields (prepare None item)) <$> items) as Hview.
  { rewrite <- (prepared_length items (length h) None), view_allocated.
    apply prepared_fields. }
  split; [|done].
  unfold mergeElements. destruct items as [|first rest]; [done|].
  assert (list_find (λ item, transactionIdMismatch this item = true)
            (first :: rest) = None) as ->.
  { apply list_find_None. eapply Forall_impl; [exact Hall|].
    intros item [_ ->]. done. }
  rewrite (Hfirst first) by done. rewrite Hel.
  rewrite mergeLoop_append
    by (eapply Forall_impl; [exact Hall|]; by intros item [? _]).
  rewrite app_nil_l, Hview.
  by rewrite isBalanced_prepared, Hbal.
Qed.

Lemma mergeElements_new_witness :
  default [] (Transaction.elements emptyTransaction) = []
  ∧ [usd Element.Debit 10; usd Element.Credit 10] ≠ []
  ∧ ∃ h',
      mergeElements [] emptyTransaction
        [usd Element.Debit 10; usd Element.Credit 10]
      = (h', Transaction.with_elements (Some [0; 1]%nat) emptyTransaction,
         Resolved)
      ∧ view h' [0; 1]%nat
        = (λ item, Element.fields (prepare None item))
            <$> [usd Element.Debit 10; usd Element.Credit 10].
Proof.
  split; [reflexivity|]. split; [done|].
  apply (mergeElements_new [] emptyTransaction
           [usd Element.Debit 10; usd Element.Credit 10]).
  - reflexivity.
  - done.
  - repeat constructor.
  - by intros first [= <-].
  - reflexivity.
Defined.

(** ** What a merge does to the length of the array *)

Lemma mergeLoop_length items : ∀ i h elements parent h' elements',
  mergeLoop i items h elements parent = (h', inr elements') →
  length elements' = (length elements + length (newItems items))%nat.
Proof.
  induction items as [|item rest IH]; intros i h elements parent h' elements'.
  - intros [= <- <-]. cbn. lia.
  - rewrite mergeLoop_cons. cbv zeta. unfold newItems.
    destruct (Element.id item) as [k|] eqn:Hid.
    + rewrite filter_cons_False by (rewrite Hid; done).
      destruct (list_find _ elements) as [[j l]|]; [|done].
      intros ->%IH. by rewrite length_insert.
    + rewrite filter_cons_True by done.
      intros ->%IH. rewrite length_app. cbn. unfold newItems. lia.
Qed.

(** X12. A successful [mergeElements] removes no element: the array grows by
    exactly the number of candidates without an id. *)
Theorem mergeElements_length h this items h' this' :
  mergeElements h this items = (h', this', Resolved) →
  length (default [] (Transaction.elements this'))
  = (length (default [] (Transaction.elements this))
     + length (newItems items))%nat.
Proof.
  intros (elements & Hloop & _ & ->)%mergeElements_inv. cbn.
  by eapply mergeLoop_length.
Qed.

Lemma mergeElements_length_witness :
  mergeElements saleHeap sale saleEdit = (editedHeap, editedSale, Resolved)
  ∧ length (default [] (Transaction.elements editedSale))
    = (length (default [] (Transaction.elements sale))
       + length (newItems saleEdit))%nat.
Proof.
  split; [reflexivity|].
  apply (mergeElements_length saleHeap sale saleEdit editedHeap editedSale).
  reflexivity.
Defined.

(** ** Candidates that carry an id *)

Lemma positionOf_None k ids : positionOf k ids = None ↔ Some k ∉ ids.
Proof.
  unfold positionOf. destruct (list_find _ ids) as [[j x]|] eqn:E; cbn.
  - apply list_find_Some in E as (Hj & -> & _). split; [done|].
    intros []. by eapply list_elem_of_lookup_2.
  - split; [|done]. intros _ Hin.
    eapply list_find_None, Forall_forall in E; [|exact Hin]. done.
Qed.

Lemma idsKnown_step h elements (e : Element.TElement) items :
  heap_ok h elements →
  idsKnown h elements items →
  (∀ j k, positionOf k (idsOf h elements) = Some j → Element.id e = Some k →
     idsKnown (h ++ [e]) (<[j := length h]> elements) items)
  ∧ (Element.id e = None →
     idsKnown (h ++ [e]) (elements ++ [length h]) items).
Proof.
  intros Hok Hknown. split.
  - intros j k Hpos Hk. unfold idsKnown.
    by rewrite (idsOf_replace _ _ _ _ _ Hok Hpos Hk).
  - intros Hid. unfold idsKnown. rewrite idsOf_push by done.
    eapply Forall_impl; [exact Hknown|]. intros item Hitem k Hk.
    apply elem_of_app. left. by apply Hitem.
Qed.

(** The loop goes through when every candidate's id is known. *)
Lemma mergeLoop_known items : ∀ i h elements parent,
  heap_ok h elements → idsKnown h elements items →
  ∃ h' elements', mergeLoop i items h elements parent = (h', inr elements').
Proof.
  induction items as [|item rest IH]; intros i h elements parent Hok Hknown.
  - cbn. eauto.
  - rewrite mergeLoop_step by done. cbv zeta.
    apply Forall_cons in Hknown as [Hitem Hknown].
    destruct (idsKnown_step h elements (prepare parent item) rest Hok Hknown)
      as [Hrep Hpush].
    rewrite prepare_id in Hrep, Hpush.
    destruct (Element.id item) as [k|] eqn:Hid.
    + destruct (positionOf k (idsOf h elements)) as [j|] eqn:Hpos.
      * apply IH; [by apply heap_ok_replace | by eapply Hrep].
      * apply positionOf_None in Hpos. destruct Hpos. by apply Hitem.
    + apply IH; [by apply heap_ok_push | by apply Hpush].
Qed.

(** The loop stops at the first candidate whose id is not known. *)
Lemma mergeLoop_unknown pre item post k : ∀ i h elements parent,
  heap_ok h elements → idsKnown h elements pre →
  Element.id item = Some k → Some k ∉ idsOf h elements →
  ∃ h', mergeLoop i (pre ++ item :: post) h elements parent
        = (h', inl (IdNotFound k (i + length pre))).
Proof.
  induction pre as [|item0 pre IH]; intros i h elements parent Hok Hknown Hk Hnin.
  - cbn [app]. rewrite mergeLoop_step by done. cbv zeta. rewrite Hk.
    apply positionOf_None in Hnin. rewrite Hnin. cbn. rewrite Nat.add_0_r. eauto.
  - rewrite <- app_comm_cons, mergeLoop_step by done. cbv zeta.
    apply Forall_cons in Hknown as [Hitem Hknown].
    destruct (idsKnown_step h elements (prepare parent item0) pre Hok Hknown)
      as [Hrep Hpush].
    rewrite prepare_id in Hrep, Hpush.
    replace (i + length (item0 :: pre))%nat with (S i + length pre)%nat
      by (cbn; lia).
    destruct (Element.id item0) as [k0|] eqn:Hid.
    + destruct (positionOf k0 (idsOf h elements)) as [j|] eqn:Hpos.
      * apply IH; [by apply heap_ok_replace | by eapply Hrep | done |].
        rewrite (idsOf_replace _ _ _ _ _ Hok Hpos); [done|].
        by rewrite prepare_id.
      * apply positionOf_None in Hpos. destruct Hpos. by apply Hitem.
    + apply IH; [by apply heap_ok_push | by apply Hpush | done |].
      rewrite idsOf_push, prepare_id, Hid by done.
      rewrite elem_of_app, list_elem_of_singleton. intros [?|?]; done.
Qed.

(** X13. When the list passes the checks on transactionId and on the first
    element, and the first candidate whose id is carried by no element of
    the transaction is candidate [n] with id [k], [mergeElements] rejects
    with 'Id k of item n not found.' and leaves the transaction as it
    was. *)
Theorem mergeElements_unknown_id h this pre item post k :
  heap_ok h (default [] (Transaction.elements this)) →
  Forall (λ item, transactionIdMismatch this item = false)
    (pre ++ item :: post) →
  (∀ first, (pre ++ item :: post) !! 0%nat = Some first →
     JS.truthy (Element.parentId first) = false) →
  idsKnown h (default [] (Transaction.elements this)) pre →
  Element.id item = Some k →
  Some k ∉ idsOf h (default [] (Transaction.elements this)) →
  ∃ h', mergeElements h this (pre ++ item :: post)
        = (h', this, Rejected (IdNotFound k (length pre))).
Proof.
  intros Hok Hmis Hfirst Hknown Hk Hnin. unfold mergeElements.
  destruct (pre ++ item :: post) as [|first rest] eqn:Hitems.
  { by destruct pre. }
  assert (list_find (λ item, transactionIdMismatch this item = true)
            (first :: rest) = None) as ->.
  { apply list_find_None. eapply Forall_impl; [exact Hmis|].
    intros x ->. done. }
  rewrite (Hfirst first) by done. rewrite <- Hitems.
  destruct (mergeLoop_unknown pre item post k 0 h _ None Hok Hknown Hk Hnin)
    as [h' ->].
  eauto.
Qed.

Lemma mergeElements_unknown_id_witness :
  ∃ h', mergeElements ledgerHeap ledger
          ([usd Element.Debit 5]
           ++ Element.fields (stored 9 (usd Element.Credit 5)) :: [])
        = (h', ledger, Rejected (IdNotFound 9 1)).
Proof.
  apply (mergeElements_unknown_id ledgerHeap ledger [usd Element.Debit 5]
           (Element.fields (stored 9 (usd Element.Credit 5))) [] 9).
  - repeat constructor.
  - repeat constructor.
  - by intros first [= <-].
  - apply Forall_singleton. by intros k0.
  - reflexivity.
  - compute_done.
Defined.

(** X14. When the list is not empty, passes the checks on transactionId and on
    the first element, and every id a candidate carries is the id of an
    element of the transaction, the loop of [mergeElements] goes through,
    and [mergeElements] resolves if the working copy balances and rejects
    with 'Not balanced' otherwise: no other rejection is possible. *)
Theorem mergeElements_known_ids h this items :
  heap_ok h (default [] (Transaction.elements this)) →
  items ≠ [] →
  Forall (λ item, transactionIdMismatch this item = false) items →
  (∀ first, items !! 0%nat = Some first →
     JS.truthy (Element.parentId first) = false) →
  idsKnown h (default [] (Transaction.elements this)) items →
  ∃ h' elements',
    mergeLoop 0 items h (default [] (Transaction.elements this)) None
    = (h', inr elements')
    ∧ mergeElements h this items
      = if isBalanced (view h' elements')
        then (h', Transaction.with_elements (Some elements') this, Resolved)
        else (h', this, Rejected NotBalanced).
Proof.
  intros Hok Hne Hmis Hfirst Hknown.
  destruct (mergeLoop_known items 0 h _ None Hok Hknown) as (h' & elements' & Hloop).
  exists h', elements'. split; [done|]. unfold mergeElements.
  destruct items as [|first rest]; [done|].
  assert (list_find (λ item, transactionIdMismatch this item = true)
            (first :: rest) = None) as ->.
  { apply list_find_None. eapply Forall_impl; [exact Hmis|].
    intros x ->. done. }
  rewrite (Hfirst first) by done. rewrite Hloop.
  by destruct (isBalanced (view h' elements')).
Qed.

Lemma mergeElements_known_ids_witness :
  ∃ h' elements',
    mergeLoop 0 saleEdit saleHeap (default [] (Transaction.elements sale)) None
    = (h', inr elements')
    ∧ mergeElements saleHeap sale saleEdit
      = if isBalanced (view h' elements')
        then (h', Transaction.with_elements (Some elements') sale, Resolved)
        else (h', sale, Rejected NotBalanced).
Proof.
  apply (mergeElements_known_ids saleHeap sale saleEdit).
  - unfold heap_ok. cbn. repeat (apply Forall_cons; split; [lia|]). apply Forall_nil_2.
  - done.
  - repeat (apply Forall_cons; split; [reflexivity|]). apply Forall_nil_2.
  - by intros first [= <-].
  - unfold idsKnown, saleEdit.
    repeat (apply Forall_cons; split; [intros k [= <-]; compute_done|]).
    apply Forall_nil_2.
Defined.

(** ** Ids along the loops of [_save] *)

Lemma NoDup_omap_inj (f : nat → option Z) ls :
  NoDup ls →
  (∀ l1 l2 k, l1 ∈ ls → l2 ∈ ls → f l1 = Some k → f l2 = Some k → l1 = l2) →
  NoDup (omap f ls).
Proof.
  induction 1 as [|l ls Hl Hnd IH]; intros Hinj; [constructor|].
  cbn [omap list_omap].
  assert (NoDup (omap f ls)) as Hrest.
  { apply IH. intros l1 l2 k H1 H2. apply Hinj; by apply list_elem_of_further. }
  destruct (f l) as [k|] eqn:Hk; [|done].
  apply NoDup_cons. split; [|done].
  intros (l' & Hl' & Hk')%list_elem_of_omap.
  assert (l = l') as <-; [|done].
  eapply Hinj; [apply list_elem_of_here|by apply list_elem_of_further|done..].
Qed.

Lemma store_ok_ids_ok h s elements :
  store_ok h s elements ↔ NoDup elements ∧ heap_ok h elements ∧ ids_ok h s elements.
Proof.
  unfold store_ok, ids_ok. split.
  - intros (Hnd & Hok & Hids & Hbelow). split_and!; [done..| |].
    + intros l1 l2 k H1 H2 Hk1 Hk2.
      by eapply (ids_distinct (λ l, Element.id (deref h l))).
    + intros l k Hl Hk. rewrite Forall_forall in Hbelow. by eapply Hbelow.
  - intros (Hnd & Hok & Hinj & Hbelow). split_and!; [done..| |].
    + by apply NoDup_omap_inj.
    + apply Forall_forall. intros l Hl k Hk. by eapply Hbelow.
Qed.

Lemma idStep_ids_ok h s l h' s' ls :
  idStep h s l h' s' → ids_ok h s ls → ids_ok h' s' ls.
Proof.
  intros (_ & Hother & Hl) [Hinj Hbelow].
  destruct Hl as [[Hid Hseq]|(Hnone & Hnew & Hseq)].
  - assert (∀ l', Element.id (deref h' l') = Element.id (deref h l')) as Hsame.
    { intros l'. destruct (decide (l' = l)) as [->|Hne]; [done|by apply Hother]. }
    split.
    + intros l1 l2 k H1 H2. rewrite !Hsame. by apply Hinj.
    + intros l0 k H0. rewrite Hsame, Hseq. by apply Hbelow.
  - split.
    + intros l1 l2 k H1 H2.
      destruct (decide (l1 = l)) as [->|Hne1], (decide (l2 = l)) as [->|Hne2];
        [done| | |].
      * rewrite Hnew, (Hother l2) by done. intros [= <-] Hk.
        specialize (Hbelow _ _ H2 Hk). lia.
      * rewrite Hnew, (Hother l1) by done. intros Hk [= <-].
        specialize (Hbelow _ _ H1 Hk). lia.
      * rewrite !Hother by done. by apply Hinj.
    + intros l0 k H0. rewrite Hseq. destruct (decide (l0 = l)) as [->|Hne].
      * rewrite Hnew. intros [= <-]. lia.
      * rewrite Hother by done. intros Hk. specialize (Hbelow _ _ H0 Hk). lia.
Qed.

Lemma Element_save_idStep h s l h' s' :
  (l < length h)%nat → Element_save h s l = (h', s') → idStep h s l h' s'.
Proof.
  intros Hl Hsave.
  destruct (Element_save_store _ _ _ _ _ Hsave) as (Hlen & Hheap & _).
  pose proof (Element_save_row _ _ _ _ _ Hl Hsave) as Hrow.
  split; [done|]. split; [by intros l' Hne; rewrite Hheap|].
  destruct (Element.id (deref h l)) as [k|] eqn:Hid.
  - destruct Hrow as (-> & _ & Hseq). left. by rewrite Hid.
  - destruct Hrow as (-> & _ & Hseq). right. done.
Qed.

Lemma saveChild_idStep h s l h' s' :
  (l < length h)%nat → saveChild (h, s) l = (h', s') → idStep h s l h' s'.
Proof.
  intros Hl. unfold saveChild.
  destruct (Element._parent (deref h l)) as [p|].
  2:{ intros [= <- <-]. split_and!; [done..|]. by left. }
  set (e1 := Element.with_parent None _).
  assert (Element.id e1 = Element.id (deref h l)) as Hid1 by done.
  destruct (negb _ && _).
  - intros [= <- <-]. split_and!.
    + apply length_insert.
    + intros l' Hne. by rewrite deref_insert_ne.
    + left. rewrite deref_insert_eq by done. split; [done|].
      by destruct (Element_delete_store (<[l := e1]> h) s l) as (-> & _).
  - intros (Hlen & Hother & Hcase)%Element_save_idStep;
      [|by rewrite length_insert].
    rewrite length_insert in Hlen. rewrite deref_insert_eq in Hcase by done.
    split; [done|]. split.
    + intros l' Hne. rewrite Hother by done. by rewrite deref_insert_ne.
    + by rewrite Hid1 in Hcase.
Qed.

Section id_steps.

Variable step : list Element.TElement * Store.t → nat
                → list Element.TElement * Store.t.

Hypothesis step_id : ∀ h s l h' s',
  (l < length h)%nat → step (h, s) l = (h', s') → idStep h s l h' s'.

Lemma foldl_ids_ok ls batch : ∀ h s h' s',
  Forall (λ l, (l < length h)%nat) batch →
  ids_ok h s ls →
  foldl step (h, s) batch = (h', s') →
  length h' = length h ∧ ids_ok h' s' ls.
Proof.
  induction batch as [|l batch IH]; intros h s h' s' Hall Hok.
  - by intros [= <- <-].
  - cbn [foldl]. destruct (step (h, s) l) as [h1 s1] eqn:Hstep.
    apply Forall_cons in Hall as [Hl Hall].
    pose proof (step_id _ _ _ _ _ Hl Hstep) as Hid.
    pose proof Hid as (Hlen1 & _).
    intros Hrun. apply IH in Hrun as [Hlen Hok'].
    + split; [congruence|done].
    + eapply Forall_impl; [exact Hall|]. intros l'. cbn. by rewrite Hlen1.
    + by eapply idStep_ids_ok.
Qed.

End id_steps.

Lemma ids_ok_subseteq h s ls ls' :
  (∀ l, l ∈ ls' → l ∈ ls) → ids_ok h s ls → ids_ok h s ls'.
Proof.
  intros Hsub [Hinj Hbelow]. split.
  - intros l1 l2 k H1 H2. apply Hinj; by apply Hsub.
  - intros l k Hl. apply Hbelow. by apply Hsub.
Qed.

Lemma ids_ok_ext h s h' s' ls :
  (∀ l, l ∈ ls → Element.id (deref h' l) = Element.id (deref h l)) →
  Store.txnElementSeq s ≤ Store.txnElementSeq s' →
  ids_ok h s ls → ids_ok h' s' ls.
Proof.
  intros Hsame Hseq [Hinj Hbelow]. split.
  - intros l1 l2 k H1 H2. rewrite !Hsame by done. by apply Hinj.
  - intros l k Hl. rewrite Hsame by done. intros Hk.
    specialize (Hbelow _ _ Hl Hk). lia.
Qed.

Lemma blank_fields e e' :
  blank e' = blank e →
  Element.amount e' = Element.amount e
  ∧ Element.taxCode e' = Element.taxCode e
  ∧ Element.settleId e' = Element.settleId e
  ∧ Element.accountId e' = Element.accountId e
  ∧ Element.drcr e' = Element.drcr e
  ∧ Element.currency e' = Element.currency e.
Proof. unfold blank. intros [= ? ? ? ? ? ? ? ?]. done. Qed.

Lemma sameKept_refl h : sameKept h h.
Proof. by intros l. Qed.

Lemma sameKept_trans h1 h2 h3 : sameKept h1 h2 → sameKept h2 h3 → sameKept h1 h3.
Proof. intros H12 H23 l. by rewrite H23, H12. Qed.

Lemma sameKept_insert h l (f : Element.TElement → Element.TElement) :
  (∀ e, blank (f e) = blank e) → sameKept h (<[l := f (deref h l)]> h).
Proof.
  intros Hf l'. destruct (decide (l = l')) as [<-|Hne].
  - destruct (decide (l < length h)%nat) as [Hl|Hl].
    + rewrite deref_insert_eq by done. apply Hf.
    + by rewrite list_insert_ge by lia.
  - by rewrite deref_insert_ne.
Qed.

(** The deletes loop changes ids and [_parent]s only. *)
Lemma deleteOne_kept cs h s e h' s' :
  deleteOne cs (h, s) e = (h', s') → sameKept h h'.
Proof.
  unfold deleteOne. intros [= <- _].
  destruct (repoint_foldl e cs h) as [Hlen Hobj].
  apply (sameKept_trans _ (foldl (repoint e) h cs)).
  - intros l. by destruct (Hobj l) as [-> _].
  - by apply (sameKept_insert _ e (Element.with_id (Some 0))).
Qed.

Lemma deletes_kept cs ds : ∀ h s h' s',
  foldl (deleteOne cs) (h, s) ds = (h', s') → sameKept h h'.
Proof.
  induction ds as [|e ds IH]; intros h s h' s'.
  - intros [= <- <-]. apply sameKept_refl.
  - cbn [foldl]. destruct (deleteOne cs (h, s) e) as [h1 s1] eqn:Hstep.
    intros Hrun. eapply sameKept_trans; [by eapply deleteOne_kept | by eapply IH].
Qed.

Lemma separate_kept this h elements h0 b :
  separateElements this h elements = (h0, b) → sameKept h h0.
Proof.
  intros ((_ & Hsame) & _)%separateElements_elem_of l.
  specialize (Hsame l). unfold sameButTransactionId in Hsame.
  destruct (deref h l) as [[] ?], (deref h0 l) as [[] ?]. cbn in *.
  by injection Hsame as -> -> -> -> -> -> -> -> -> -> ->.
Qed.

(** An element with amount 0 and no tax code does not survive
    [condenseElements], whatever its [parentId]. *)
Lemma isKept_survives e : isKept e = false → survives e = false.
Proof.
  unfold isKept, survives, isRemovable.
  intros [Ha Ht]%orb_false_elim. rewrite Ha, Ht. cbn.
  by destruct (JS.truthy (Element.parentId e)).
Qed.

Lemma isKept_ext (e e' : Element.IElement) :
  Element.amount e' = Element.amount e →
  Element.taxCode e' = Element.taxCode e →
  isKept e' = isKept e.
Proof. unfold isKept. by intros -> ->. Qed.

Lemma saveChild_heap_local h s l h' s' :
  saveChild (h, s) l = (h', s') → ∀ l', l' ≠ l → deref h' l' = deref h l'.
Proof. intros Hstep. by apply saveChild_heap in Hstep as [_ ?]. Qed.

(** The loops of [_save], as far as ids and the deleted are concerned. *)
Lemma saveBatches_ids this h s elements h0 b h1 s1 h2 s2 h' s' :
  store_ok h s elements →
  separateElements this h elements = (h0, b) →
  foldl (deleteOne (children b)) (h0, s) (deletes b) = (h1, s1) →
  foldl saveOne (h1, s1) (parents b) = (h2, s2) →
  foldl saveChild (h2, s2) (children b) = (h', s') →
  length h' = length h
  ∧ ids_ok h' s' (filter (λ l, l ∉ deletes b) elements)
  ∧ ∀ l, l ∈ deletes b → isKept (deref h' l) = false.
Proof.
  intros Hstore Hsep Hdel Hpar Hch.
  pose proof Hstore as (Hnd & Hok & Hids)%store_ok_ids_ok.
  destruct (separateElements_elem_of _ _ _ _ _ Hsep)
    as ((Hlen0 & Hsame) & Hinp & Hinc & Hind & Hnds).
  destruct (Hnds Hnd) as (Hndp & Hndc & Hndd). clear Hnds.
  assert (∀ l, l ∈ elements → (l < length h)%nat) as Halloc.
  { intros l Hl. unfold heap_ok in Hok. rewrite Forall_forall in Hok.
    by apply Hok. }
  set (ls := filter (λ l, l ∉ deletes b) elements).
  (* the first loop *)
  assert (ids_ok h0 s ls) as Hids0.
  { eapply ids_ok_ext; [| |eapply ids_ok_subseteq; [|exact Hids]].
    - intros l _.
      by destruct (sameButTransactionId_fields _ _ (Hsame l)) as (-> & _).
    - lia.
    - intros l [_ Hl]%list_elem_of_filter. done. }
  (* the deletes *)
  destruct (foldl_local _ (deleteOne_local _) _ _ _ _ _ Hndd Hdel)
    as (Hlen1 & Hid1 & Hseq1 & _).
  assert (ids_ok h1 s1 ls) as Hids1.
  { eapply ids_ok_ext; [| |exact Hids0]; [|done].
    intros l [Hl _]%list_elem_of_filter. by apply Hid1. }
  (* the parents *)
  destruct (foldl_ids_ok saveOne Element_save_idStep ls (parents b)
              h1 s1 h2 s2) as [Hlen2 Hids2]; [|done|done|].
  { apply Forall_forall. intros l (Hl & _)%Hinp. rewrite Hlen1, Hlen0.
    by apply Halloc. }
  (* the children *)
  destruct (foldl_ids_ok saveChild saveChild_idStep ls (children b)
              h2 s2 h' s') as [Hlen' Hids']; [|done|done|].
  { apply Forall_forall. intros l (Hl & _)%Hinc. rewrite Hlen2, Hlen1, Hlen0.
    by apply Halloc. }
  split; [congruence|]. split; [done|].
  intros l Hl. pose proof Hl as (Hel & Hkept & _)%Hind.
  rewrite (foldl_heap_local _ saveChild_heap_local _ _ _ _ _ Hch),
    (foldl_heap_local _ saveOne_heap _ _ _ _ _ Hpar).
  - rewrite <- Hkept.
    pose proof (sameKept_trans _ _ _ (separate_kept _ _ _ _ _ Hsep)
                  (deletes_kept _ _ _ _ _ _ Hdel) l) as Hb.
    apply blank_fields in Hb as (Ha & Ht & _). by apply isKept_ext.
  - intros (_ & Hk & _)%Hinp. congruence.
  - intros (_ & Hk & _)%Hinc. congruence.
Qed.

(** X15. [_save] followed by [condenseElements] keeps the agreement of the
    elements with the store: when the elements have no repeated object,
    no repeated id and no id at or above the id generator before [_save],
    the same holds of the elements that [condenseElements] leaves. *)
Theorem save_condense_store_ok h s this elements h' s' this' :
  store_ok h s elements →
  Transaction.elements this = Some elements →
  _save h s this = (h', s', this') →
  store_ok h' s' (default [] (Transaction.elements (condenseElements h' this'))).
Proof.
  intros Hstore Hel Hsave.
  destruct (_save_elements h s this elements Hel)
    as (s0 & this0 & h0 & b & h1 & s1 & h2 & s2 & h'' & s'' & Hrows & Hseq
        & Hthis0 & Hsep & Hdel & Hpar & Hch & Hsave').
  rewrite Hsave in Hsave'. injection Hsave' as <- <- ->.
  assert (store_ok h s0 elements) as Hstore0.
  { destruct Hstore as (? & ? & ? & Hbelow). split_and!; [done..|].
    by rewrite Hseq. }
  destruct (saveBatches_ids _ _ _ _ _ _ _ _ _ _ _ _ Hstore0 Hsep Hdel Hpar Hch)
    as (Hlen & Hids & Hgone).
  assert (Transaction.elements this0 = Some elements) as Hel0.
  { rewrite Hthis0. unfold saveRow. by destruct (Transaction.id this). }
  unfold condenseElements. rewrite Hel0. cbn.
  set (kept := filter (λ l, survives (deref h' l) = true) elements).
  destruct Hstore as (Hnd & Hok & _).
  apply store_ok_ids_ok. split_and!.
  - rewrite sort_Permutation. by apply NoDup_filter.
  - unfold heap_ok in *. rewrite Forall_forall in Hok. apply Forall_forall.
    intros l. rewrite sort_Permutation. intros [_ Hl]%list_elem_of_filter.
    rewrite Hlen. by apply Hok.
  - eapply ids_ok_subseteq; [|exact Hids].
    intros l. rewrite sort_Permutation.
    intros [Hs Hl]%list_elem_of_filter. apply list_elem_of_filter.
    split; [|done]. intros Hd. apply Hgone, isKept_survives in Hd. congruence.
Qed.

Lemma save_condense_store_ok_witness :
  store_ok editedHeap saleStore [4; 5; 6; 7]%nat
  ∧ Transaction.elements editedSale = Some [4; 5; 6; 7]%nat
  ∧ store_ok (_save editedHeap saleStore editedSale).1.1
      (_save editedHeap saleStore editedSale).1.2
      (default []
         (Transaction.elements
            (condenseElements (_save editedHeap saleStore editedSale).1.1
               (_save editedHeap saleStore editedSale).2))).
Proof.
  assert (store_ok editedHeap saleStore [4; 5; 6; 7]%nat) as Hok
    by solve_store_ok.
  split; [exact Hok|]. split; [reflexivity|].
  apply (save_condense_store_ok editedHeap saleStore editedSale
           [4; 5; 6; 7]%nat); [exact Hok|reflexivity|].
  by destruct (_save editedHeap saleStore editedSale) as [[? ?] ?].
Defined.

(** ** What [_save] writes *)

Lemma defines_refl {A} (x : option A) : defines x x.
Proof. by intros v. Qed.

Lemma defines_patched {A} (x old : option A) : defines x (Store.patched x old).
Proof. intros v ->. done. Qed.

Lemma storedAs_refl e : storedAs e e.
Proof. unfold storedAs. split_and!; done || apply defines_refl. Qed.

Lemma storedAs_patch e old : storedAs e (Store.patchElementRow e old).
Proof. unfold storedAs. split_and!; done || apply defines_patched. Qed.

(** The first loop gives every kept element the transaction's id. *)
Lemma separate_transactionId this elements : ∀ h b h' b' l,
  heap_ok h elements →
  foldl (separate this) (h, b) elements = (h', b') →
  l ∈ elements → isKept (deref h l) = true →
  Element.transactionId (deref h' l) = Transaction.id this.
Proof.
  induction elements as [|x elements IH] using rev_ind;
    intros h b h' b' l Hok; [by intros _ ?%elem_of_nil|].
  rewrite foldl_app. cbn [foldl].
  destruct (foldl (separate this) (h, b) elements) as [h1 b1] eqn:Hpre.
  apply Forall_app in Hok as [Hok Hx]. rewrite Forall_singleton in Hx.
  destruct (separate_foldl _ _ _ _ _ _ Hpre) as ((Hlen1 & Hsame1) & _).
  intros Hstep Hl Hk.
  assert (isKept (deref h1 x) = isKept (deref h x)) as Hkx.
  { symmetry. apply sameButTransactionId_isKept, Hsame1. }
  assert (∀ l', l' ≠ x → deref h' l' = deref h1 l') as Hother.
  { intros l' Hne. unfold separate in Hstep.
    destruct (isKept (deref h1 x)).
    - destruct (hasParent (deref h1 x)); injection Hstep as <- _;
        by rewrite deref_insert_ne by (by intros ->).
    - destruct (JS.truthy _); by injection Hstep as <- _. }
  destruct (decide (l = x)) as [->|Hne].
  - unfold separate in Hstep. rewrite Hkx, Hk in Hstep.
    destruct (hasParent (deref h1 x)); injection Hstep as <- _;
      rewrite deref_insert_eq by lia; done.
  - rewrite Hother by done. eapply IH; [done..| |done].
    apply elem_of_app in Hl as [Hl|Hl%list_elem_of_singleton]; done.
Qed.

Lemma survives_ext (e e' : Element.IElement) :
  Element.amount e' = Element.amount e →
  Element.taxCode e' = Element.taxCode e →
  Element.parentId e' = Element.parentId e →
  survives e' = survives e.
Proof. unfold survives, isRemovable. by intros -> -> ->. Qed.

Lemma Element_save_kept h s l h' s' :
  Element_save h s l = (h', s') → sameKept h h'.
Proof.
  unfold Element_save. destruct (Element.id (deref h l)).
  - intros [= <- _]. apply sameKept_refl.
  - intros [= <- _].
    by apply (sameKept_insert h l
                (Element.with_id (Some (Store.txnElementSeq s)))).
Qed.

Lemma saveChild_kept h s l h' s' :
  saveChild (h, s) l = (h', s') → sameKept h h'.
Proof.
  unfold saveChild. destruct (Element._parent (deref h l)) as [p|];
    [|intros [= <- _]; apply sameKept_refl].
  set (v := if JS.truthy _ then _ else _).
  pose proof (sameKept_insert h l
    (λ e, Element.with_parent None (Element.with_parentId v e))
    (λ e, eq_refl)) as H1. cbn beta in H1.
  destruct (negb _ && _).
  - by intros [= <- _].
  - intros H2%Element_save_kept. by eapply sameKept_trans.
Qed.

Section kept_steps.

Variable step : list Element.TElement * Store.t → nat
                → list Element.TElement * Store.t.

Hypothesis step_kept : ∀ h s l h' s', step (h, s) l = (h', s') → sameKept h h'.

Lemma foldl_kept ls : ∀ h s h' s',
  foldl step (h, s) ls = (h', s') → sameKept h h'.
Proof.
  induction ls as [|l ls IH]; intros h s h' s'.
  - intros [= <- _]. apply sameKept_refl.
  - cbn [foldl]. destruct (step (h, s) l) as [h1 s1] eqn:Hstep.
    intros Hrun. eapply sameKept_trans; [by eapply step_kept | by eapply IH].
Qed.

End kept_steps.

Lemma saveBatches_kept this h elements h0 b s h1 s1 h2 s2 h' s' :
  separateElements this h elements = (h0, b) →
  foldl (deleteOne (children b)) (h0, s) (deletes b) = (h1, s1) →
  foldl saveOne (h1, s1) (parents b) = (h2, s2) →
  foldl saveChild (h2, s2) (children b) = (h', s') →
  sameKept h h'.
Proof.
  intros Hsep Hdel Hpar Hch.
  apply (sameKept_trans h h0);
    [|apply (sameKept_trans h0 h1); [|apply (sameKept_trans h1 h2)]].
  - by eapply separate_kept.
  - by eapply deletes_kept.
  - by apply (foldl_kept saveOne (λ h s l, Element_save_kept h s l) _ _ _ _ _ Hpar).
  - by apply (foldl_kept saveChild saveChild_kept _ _ _ _ _ Hch).
Qed.

(** The turn of one element, as in [foldl_turn], with the id generator
    followed to the end of the loop. *)
Section turns_seq.

Variable step : list Element.TElement * Store.t → nat
                → list Element.TElement * Store.t.

Hypothesis step_heap : ∀ h s l h' s',
  step (h, s) l = (h', s') → ∀ l', l' ≠ l → deref h' l' = deref h l'.

Hypothesis step_local : ∀ h s l h' s',
  step (h, s) l = (h', s') →
  length h' = length h
  ∧ (∀ l', l' ≠ l → Element.id (deref h' l') = Element.id (deref h l'))
  ∧ Store.txnElementSeq s ≤ Store.txnElementSeq s'
  ∧ (∀ k, k < Store.txnElementSeq s → Element.id (deref h l) ≠ Some k →
       Store.txnElement s' !! k = Store.txnElement s !! k)
  ∧ (∀ k, k < Store.txnElementSeq s → Store.txnElement s !! k = None →
       Store.txnElement s' !! k = None).

Lemma foldl_turn_seq ls l : ∀ h s h' s',
  NoDup ls → l ∈ ls →
  foldl step (h, s) ls = (h', s') →
  ∃ hA sA hB sB,
    step (hA, sA) l = (hB, sB)
    ∧ length hA = length h
    ∧ (∀ l', l' = l ∨ l' ∉ ls → deref hA l' = deref h l')
    ∧ Store.txnElementSeq s ≤ Store.txnElementSeq sA
    ∧ (∀ k, k < Store.txnElementSeq s →
         (∀ l', l' ∈ ls → l' ≠ l → Element.id (deref h l') ≠ Some k) →
         Store.txnElement sA !! k = Store.txnElement s !! k)
    ∧ (∀ l', l' = l ∨ l' ∉ ls → deref h' l' = deref hB l')
    ∧ Store.txnElementSeq sB ≤ Store.txnElementSeq s'
    ∧ (∀ k, k < Store.txnElementSeq sB →
         (∀ l', l' ∈ ls → l' ≠ l → Element.id (deref h l') ≠ Some k) →
         Store.txnElement s' !! k = Store.txnElement sB !! k).
Proof.
  intros h s h' s' Hnd (pre & post & ->)%list_elem_of_split.
  apply NoDup_app in Hnd as (Hndpre & Hdisj & [Hlpost Hndpost]%NoDup_cons).
  assert (l ∉ pre) as Hlpre.
  { intros Hin. apply (Hdisj _ Hin), list_elem_of_here. }
  rewrite foldl_app. cbn [foldl].
  destruct (foldl step (h, s) pre) as [hA sA] eqn:Hpre.
  destruct (step (hA, sA) l) as [hB sB] eqn:Hstep. intros Hpost.
  exists hA, sA, hB, sB.
  pose proof (foldl_heap_local _ step_heap _ _ _ _ _ Hpre) as HheapA.
  destruct (foldl_local _ step_local _ _ _ _ _ Hndpre Hpre)
    as (HlenA & _ & HseqA & HrowA & _).
  pose proof (foldl_heap_local _ step_heap _ _ _ _ _ Hpost) as HheapB.
  destruct (foldl_local _ step_local _ _ _ _ _ Hndpost Hpost)
    as (_ & _ & HseqB & HrowB & _).
  split_and!; [done|done| | | | | |].
  - intros l' [->|Hl']; apply HheapA; [done|].
    intros Hin. apply Hl', elem_of_app. by left.
  - done.
  - intros k Hk Hne. apply HrowA; [done|]. apply Forall_forall.
    intros l' Hl'. apply Hne; [apply elem_of_app; by left|]. by intros ->.
  - intros l' [->|Hl']; apply HheapB; [done|].
    intros Hin. apply Hl', elem_of_app. right. by apply list_elem_of_further.
  - done.
  - intros k Hk Hne. apply HrowB; [done|]. apply Forall_forall.
    intros l' Hl'.
    assert (l' ≠ l) as Hll by (by intros ->).
    rewrite (step_heap _ _ _ _ _ Hstep) by done.
    rewrite HheapA.
    + apply Hne; [|done]. apply elem_of_app. right. by apply list_elem_of_further.
    + intros Hin. apply (Hdisj _ Hin). by apply list_elem_of_further.
Qed.

End turns_seq.

(** What the loops of [_save] agree on, for use below. *)
Lemma batches_facts this h s elements h0 b :
  store_ok h s elements →
  separateElements this h elements = (h0, b) →
  (∀ l, l ∈ elements → (l < length h)%nat)
  ∧ (∀ l k, l ∈ elements → Element.id (deref h l) = Some k →
       k < Store.txnElementSeq s)
  ∧ (∀ l1 l2 k, l1 ∈ elements → l2 ∈ elements → l1 ≠ l2 →
       Element.id (deref h l1) = Some k → Element.id (deref h l2) ≠ Some k)
  ∧ (∀ l, l ∈ parents b →
       l ∈ elements ∧ (l ∉ deletes b) ∧ (l ∉ children b))
  ∧ (∀ l, l ∈ children b →
       l ∈ elements ∧ (l ∉ deletes b) ∧ (l ∉ parents b))
  ∧ (∀ l, l ∈ deletes b → l ∈ elements)
  ∧ (∀ l, Element.id (deref h0 l) = Element.id (deref h l))
  ∧ (∀ l, l ∈ elements → isKept (deref h l) = true →
       Element.transactionId (deref h0 l) = Transaction.id this).
Proof.
  intros (Hnd & Hok & Hids & Hbelow) Hsep.
  destruct (separateElements_elem_of _ _ _ _ _ Hsep)
    as ((Hlen0 & Hsame) & Hinp & Hinc & Hind & _).
  split_and!.
  - intros l Hl. unfold heap_ok in Hok. rewrite Forall_forall in Hok.
    by apply Hok.
  - intros l k Hl. rewrite Forall_forall in Hbelow. by apply Hbelow.
  - intros l1 l2 k H1 H2 Hne Hk1 Hk2. apply Hne.
    by eapply (ids_distinct (λ l, Element.id (deref h l)) elements).
  - intros l (Hl & Hk & Hh)%Hinp. split_and!; [done| |].
    + intros (_ & Hk' & _)%Hind. congruence.
    + intros (_ & _ & Hh')%Hinc. congruence.
  - intros l (Hl & Hk & Hh)%Hinc. split_and!; [done| |].
    + intros (_ & Hk' & _)%Hind. congruence.
    + intros (_ & _ & Hh')%Hinp. congruence.
  - by intros l (Hl & _)%Hind.
  - intros l. by destruct (sameButTransactionId_fields _ _ (Hsame l)) as (-> & _).
  - intros l Hl Hk. unfold separateElements in Hsep.
    by eapply separate_transactionId.
Qed.

(** An element of the parents batch is stored when [_save] ends. *)
Lemma saved_root this h s elements h0 b h1 s1 h2 s2 h' s' l :
  store_ok h s elements → rows_ok h s elements →
  separateElements this h elements = (h0, b) →
  foldl (deleteOne (children b)) (h0, s) (deletes b) = (h1, s1) →
  foldl saveOne (h1, s1) (parents b) = (h2, s2) →
  foldl saveChild (h2, s2) (children b) = (h', s') →
  l ∈ parents b →
  ∃ k row,
    Element.id (deref h' l) = Some k
    ∧ Store.txnElement s' !! k = Some row
    ∧ storedAs (deref h' l) row
    ∧ Element.transactionId (deref h' l) = Transaction.id this.
Proof.
  intros Hstore Hrows Hsep Hdel Hpar Hch Hl.
  destruct (batches_facts _ _ _ _ _ _ Hstore Hsep)
    as (Halloc & Hbelow & Hdistinct & Hp & Hc & Hd & Hid0 & Htid).
  destruct (before_children _ _ _ _ _ _ _ _ _ _ Hstore Hsep Hdel Hpar)
    as (Hlen2 & Hobj2 & _ & Hseq2 & _).
  destruct (separateElements_elem_of _ _ _ _ _ Hsep)
    as ((Hlen0 & _) & Hinp & _ & _ & Hnds).
  destruct Hstore as (Hnd & _).
  destruct (Hnds Hnd) as (Hndp & Hndc & Hndd). clear Hnds.
  destruct (Hp l Hl) as (Hel & Hld & Hlc).
  destruct (deletes_foldl _ _ _ _ _ _ Hdel) as (Hlen1 & Hf1 & _).
  destruct (foldl_local _ (deleteOne_local _) _ _ _ _ _ Hndd Hdel)
    as (_ & Hid1 & Hseq1 & Hrow1 & _).
  destruct (foldl_turn_seq _ saveOne_heap saveOne_local _ _ _ _ _ _ Hndp Hl Hpar)
    as (hA & sA & hB & sB & Hstep & HlenA & HheapA & HseqA & HrowA & HheapB
        & HseqB & HrowB).
  destruct (foldl_local _ saveChild_local _ _ _ _ _ Hndc Hch)
    as (_ & _ & _ & Hrow' & _).
  pose proof (foldl_heap_local _ saveChild_heap_local _ _ _ _ _ Hch l Hlc)
    as Hfinal.
  rewrite Hfinal, (HheapB l) by auto.
  assert (∀ l', l' ∈ parents b → Element.id (deref h1 l') = Element.id (deref h l'))
    as Hidp.
  { intros l' (_ & Hl'd & _)%Hp. rewrite Hid1 by done. apply Hid0. }
  assert (∀ c, c ∈ children b → Element.id (deref h2 c) = Element.id (deref h c))
    as Hidc.
  { intros c (_ & Hcd & Hcp)%Hc. by destruct (Hobj2 c Hcd Hcp) as (-> & _). }
  assert (Element.fields (deref hA l) = Element.fields (deref h0 l)) as HfA.
  { rewrite HheapA by auto. by apply Hf1. }
  assert (Element.transactionId (deref hA l) = Transaction.id this) as HtidA.
  { rewrite HfA. apply Htid; [done|]. by apply Hinp in Hl as (_ & ? & _). }
  assert (Element.id (deref hA l) = Element.id (deref h l)) as HidA.
  { by rewrite HfA. }
  (* a row that only [l] may write *)
  assert (∀ k, k < Store.txnElementSeq sB →
    Element.id (deref h l) = Some k ∨ Store.txnElementSeq s ≤ k →
    Store.txnElement s' !! k = Store.txnElement sB !! k) as Hkeep.
  { intros k Hk Hown. rewrite Hrow', HrowB; [done|done| |lia|].
    - intros l' Hl' Hne. rewrite (Hidp l' Hl').
      destruct (Hp l' Hl') as (Hel' & _). destruct Hown as [Hown|Hfresh].
      + by eapply Hdistinct; [exact Hel|..].
      + intros Hk'. specialize (Hbelow _ _ Hel' Hk'). lia.
    - apply Forall_forall. intros c Hc'. rewrite (Hidc c Hc').
      destruct (Hc c Hc') as (Hec & _ & Hcp). destruct Hown as [Hown|Hfresh].
      + eapply Hdistinct; [exact Hel|done| |done]. by intros ->.
      + intros Hk'. specialize (Hbelow _ _ Hec Hk'). lia. }
  unfold saveOne in Hstep.
  apply Element_save_row in Hstep;
    [|rewrite HlenA, Hlen1, Hlen0; by apply Halloc].
  rewrite HidA in Hstep.
  destruct (Element.id (deref h l)) as [k|] eqn:Hidl.
  - destruct Hstep as (-> & Hrow & HseqAB).
    specialize (Hbelow _ _ Hel Hidl).
    destruct (Hrows l k Hel Hidl) as [old Hold].
    assert (Store.txnElement sA !! k = Some old) as HoldA.
    { rewrite HrowA, Hrow1; [done|done| |lia|].
      - apply Forall_forall. intros e He. rewrite Hid0.
        eapply Hdistinct; [exact Hel|by apply Hd| |done]. by intros ->.
      - intros l' Hl' Hne. rewrite (Hidp l' Hl').
        destruct (Hp l' Hl') as (Hel' & _). by eapply Hdistinct; [exact Hel|..]. }
    rewrite HoldA in Hrow. exists k. eexists. split_and!.
    + by rewrite HidA.
    + rewrite Hkeep; [exact Hrow|lia|by left].
    + apply storedAs_patch.
    + done.
  - destruct Hstep as (HB & Hrow & HseqAB).
    exists (Store.txnElementSeq sA). eexists. split_and!.
    + by rewrite HB.
    + rewrite Hkeep; [exact Hrow|lia|right; lia].
    + rewrite HB. apply storedAs_refl.
    + by rewrite HB.
Qed.

(** A pending child that survives [condenseElements] is stored when [_save]
    ends. *)
Lemma saved_child this h s elements h0 b h1 s1 h2 s2 h' s' l :
  store_ok h s elements → rows_ok h s elements →
  separateElements this h elements = (h0, b) →
  foldl (deleteOne (children b)) (h0, s) (deletes b) = (h1, s1) →
  foldl saveOne (h1, s1) (parents b) = (h2, s2) →
  foldl saveChild (h2, s2) (children b) = (h', s') →
  l ∈ children b → is_Some (Element._parent (deref h l)) →
  survives (deref h' l) = true →
  ∃ k row,
    Element.id (deref h' l) = Some k
    ∧ Store.txnElement s' !! k = Some row
    ∧ storedAs (deref h' l) row
    ∧ Element.transactionId (deref h' l) = Transaction.id this.
Proof.
  intros Hstore Hrows Hsep Hdel Hpar Hch Hl Hpending Hsurv.
  destruct (batches_facts _ _ _ _ _ _ Hstore Hsep)
    as (Halloc & Hbelow & Hdistinct & Hp & Hc & Hd & Hid0 & Htid).
  destruct (before_children _ _ _ _ _ _ _ _ _ _ Hstore Hsep Hdel Hpar)
    as (Hlen2 & Hobj2 & _ & Hseq2 & Hrow2 & _).
  destruct (separateElements_elem_of _ _ _ _ _ Hsep)
    as (_ & _ & Hinc & _ & Hnds).
  destruct Hstore as (Hnd & _).
  destruct (Hnds Hnd) as (_ & Hndc & _). clear Hnds.
  destruct (Hc l Hl) as (Hel & Hld & Hlp).
  destruct (deletes_foldl _ _ _ _ _ _ Hdel) as (_ & Hf1 & _).
  destruct (foldl_turn _ saveChild_heap_local saveChild_local _ _ _ _ _ _
              Hndc Hl Hch)
    as (hA & sA & hB & sB & Hstep & HlenA & HheapA & HseqA & HrowA & HheapB
        & HrowB & _).
  rewrite (HheapB l) in * by auto.
  assert (∀ c, c ∈ children b → Element.id (deref h2 c) = Element.id (deref h c))
    as Hidc.
  { intros c (_ & Hcd & Hcp)%Hc. by destruct (Hobj2 c Hcd Hcp) as (-> & _). }
  assert (deref hA l = deref h1 l) as HA.
  { rewrite HheapA by auto.
    by apply (foldl_heap_local _ saveOne_heap _ _ _ _ _ Hpar). }
  assert (Element.fields (deref hA l) = Element.fields (deref h0 l)) as HfA.
  { rewrite HA. by apply Hf1. }
  assert (Element.transactionId (deref hA l) = Transaction.id this) as HtidA.
  { rewrite HfA. apply Htid; [done|]. by apply Hinc in Hl as (_ & ? & _). }
  assert (Element.id (deref hA l) = Element.id (deref h l)) as HidA.
  { by rewrite HfA. }
  assert (is_Some (Element._parent (deref hA l))) as [p HpA].
  { rewrite HheapA by auto.
    destruct (Hobj2 l Hld Hlp) as (_ & _ & [->|(e & _ & ->)]); [done|eauto]. }
  assert (l < length hA)%nat as HlA.
  { rewrite HlenA, Hlen2. by apply Halloc. }
  (* a row that only [l] may write *)
  assert (∀ k, k < Store.txnElementSeq sB →
    Element.id (deref h l) = Some k ∨ Store.txnElementSeq s ≤ k →
    Store.txnElement s' !! k = Store.txnElement sB !! k) as Hkeep.
  { intros k Hk Hown. apply HrowB; [done|].
    intros c Hc' Hne. rewrite (Hidc c Hc').
    destruct (Hc c Hc') as (Hec & _). destruct Hown as [Hown|Hfresh].
    - by eapply Hdistinct; [exact Hel|..].
    - intros Hk'. specialize (Hbelow _ _ Hec Hk'). lia. }
  unfold saveChild in Hstep. rewrite HpA in Hstep.
  set (v := if JS.truthy _ then _ else _) in Hstep.
  set (e1 := Element.with_parent None (Element.with_parentId v (deref hA l)))
    in Hstep.
  destruct (negb (JS.truthy (Element.parentId e1))
            && (Element.amount e1 =? 0)) eqn:Hdead.
  { injection Hstep as <- _. rewrite deref_insert_eq in Hsurv by done.
    apply andb_true_iff in Hdead as [Hpar0 Ham0].
    unfold survives, isRemovable in Hsurv. rewrite Hpar0, Ham0 in Hsurv.
    done. }
  apply Element_save_row in Hstep; [|by rewrite length_insert].
  rewrite deref_insert_eq in Hstep by done.
  change (Element.id e1) with (Element.id (deref hA l)) in Hstep.
  rewrite HidA in Hstep.
  destruct (Element.id (deref h l)) as [k|] eqn:Hidl.
  - destruct Hstep as (-> & Hrow & HseqAB).
    specialize (Hbelow _ _ Hel Hidl).
    destruct (Hrows l k Hel Hidl) as [old Hold].
    assert (Store.txnElement sA !! k = Some old) as HoldA.
    { rewrite HrowA, Hrow2; [done|done| |lia|].
      - intros l' [Hl'|Hl'].
        + eapply Hdistinct; [exact Hel|by apply Hd| |done]. by intros ->.
        + destruct (Hp l' Hl') as (Hel' & _ & Hl'c).
          eapply Hdistinct; [exact Hel|done| |done]. by intros ->.
      - intros c Hc' Hne. rewrite (Hidc c Hc').
        destruct (Hc c Hc') as (Hec & _). by eapply Hdistinct; [exact Hel|..]. }
    rewrite HoldA in Hrow. rewrite deref_insert_eq by done.
    exists k. eexists. split_and!.
    + done.
    + rewrite Hkeep; [exact Hrow|lia|by left].
    + apply storedAs_patch.
    + done.
  - destruct Hstep as (HB & Hrow & HseqAB).
    exists (Store.txnElementSeq sA). eexists. split_and!.
    + by rewrite HB.
    + rewrite Hkeep; [exact Hrow|lia|right; lia].
    + rewrite HB. apply storedAs_refl.
    + by rewrite HB.
Qed.

Lemma saveRow_id s this :
  ∃ tid, Transaction.id (saveRow s this).2 = Some tid
    ∧ Transaction.elements (saveRow s this).2 = Transaction.elements this.
Proof.
  unfold saveRow. destruct (Transaction.id this) as [k|] eqn:Hid; cbn; eauto.
Qed.

(** An element that [_save] writes and [condenseElements] keeps is stored. *)
Lemma saved_element h s this elements h' s' this' l :
  Transaction.elements this = Some elements →
  store_ok h s elements →
  rows_ok h s elements →
  _save h s this = (h', s', this') →
  l ∈ default [] (Transaction.elements (condenseElements h' this')) →
  hasParent (deref h l) = false ∨ is_Some (Element._parent (deref h l)) →
  ∃ k row tid,
    Element.id (deref h' l) = Some k
    ∧ Store.txnElement s' !! k = Some row
    ∧ storedAs (deref h' l) row
    ∧ Transaction.id this' = Some tid
    ∧ Element.transactionId (deref h' l) = Some tid.
Proof.
  intros Hel Hstore Hrows Hsave Hl Hkind.
  destruct (_save_elements h s this elements Hel)
    as (s0 & this0 & h0 & b & h1 & s1 & h2 & s2 & h'' & s'' & Hrows0 & Hseq0
        & Hthis0 & Hsep & Hdel & Hpar & Hch & Hsave').
  rewrite Hsave in Hsave'. injection Hsave' as <- <- ->.
  destruct (saveRow_id s this) as (tid & Htid & Hel0).
  rewrite <- Hthis0 in Htid, Hel0. rewrite Hel in Hel0.
  assert (store_ok h s0 elements) as Hstore0.
  { destruct Hstore as (? & ? & ? & Hbelow). split_and!; [done..|].
    by rewrite Hseq0. }
  assert (rows_ok h s0 elements) as Hrows0'.
  { intros l' k Hl' Hk. rewrite Hrows0. by eapply Hrows. }
  unfold condenseElements in Hl. rewrite Hel0 in Hl. cbn in Hl.
  rewrite sort_Permutation in Hl. apply list_elem_of_filter in Hl as [Hsurv Hl].
  assert (isKept (deref h l) = true) as Hkept.
  { destruct (blank_fields _ _
                (saveBatches_kept _ _ _ _ _ _ _ _ _ _ _ _ Hsep Hdel Hpar Hch l))
      as (Ha & Ht & _).
    rewrite <- (isKept_ext _ _ Ha Ht).
    destruct (isKept (deref h' l)) eqn:E; [done|].
    apply isKept_survives in E. congruence. }
  destruct (separateElements_elem_of _ _ _ _ _ Hsep) as (_ & Hinp & Hinc & _).
  assert (∃ k row,
    Element.id (deref h' l) = Some k
    ∧ Store.txnElement s' !! k = Some row
    ∧ storedAs (deref h' l) row
    ∧ Element.transactionId (deref h' l) = Transaction.id this0)
    as (k & row & Hk & Hrow & Has & Ht).
  { destruct (hasParent (deref h l)) eqn:Hhas.
    - destruct Hkind as [?|Hpending]; [done|].
      eapply saved_child; [exact Hstore0|done..| |done|done].
      by apply Hinc.
    - eapply saved_root; [exact Hstore0|done..|]. by apply Hinp. }
  exists k, row, tid. split_and!; [done..|congruence].
Qed.

(** X16. After [_save], every element that [condenseElements] keeps and that
    was a non-child or a child with a pending [_parent] has an id, and the
    row stored under that id carries its sign, amount and currency and
    every optional field it defines; its [transactionId] is the id of the
    transaction. *)
Theorem save_condense_stored h s this elements h' s' this' l :
  Transaction.elements this = Some elements →
  store_ok h s elements →
  rows_ok h s elements →
  _save h s this = (h', s', this') →
  l ∈ default [] (Transaction.elements (condenseElements h' this')) →
  hasParent (deref h l) = false ∨ is_Some (Element._parent (deref h l)) →
  ∃ k row tid,
    Element.id (deref h' l) = Some k
    ∧ Store.txnElement s' !! k = Some row
    ∧ storedAs (deref h' l) row
    ∧ Transaction.id this' = Some tid
    ∧ Element.transactionId (deref h' l) = Some tid.
Proof. apply saved_element. Qed.

Lemma save_condense_stored_witness :
  ∃ k row tid,
    Element.id (deref (_save editedHeap saleStore editedSale).1.1 5%nat) = Some k
    ∧ Store.txnElement (_save editedHeap saleStore editedSale).1.2 !! k
      = Some row
    ∧ storedAs (deref (_save editedHeap saleStore editedSale).1.1 5%nat) row
    ∧ Transaction.id (_save editedHeap saleStore editedSale).2 = Some tid
    ∧ Element.transactionId
        (deref (_save editedHeap saleStore editedSale).1.1 5%nat) = Some tid.
Proof.
  apply (save_condense_stored editedHeap saleStore editedSale [4; 5; 6; 7]%nat
           (_save editedHeap saleStore editedSale).1.1
           (_save editedHeap saleStore editedSale).1.2
           (_save editedHeap saleStore editedSale).2 5%nat).
  - reflexivity.
  - solve_store_ok.
  - intros l k Hl Hk.
    repeat (apply elem_of_cons in Hl as [->|Hl];
            [vm_compute in Hk; injection Hk as <-; vm_compute; eauto|]).
    by apply elem_of_nil in Hl.
  - by destruct (_save editedHeap saleStore editedSale) as [[? ?] ?].
  - compute_done.
  - right. vm_compute. eauto.
Defined.

(** ** Unpaid invoices *)

Lemma group_balance c rows :
  foldr (λ r acc, Element.amount r * Element.drcr r + acc) 0
    (filter (λ r, Element.currency r = c) rows)
  = balanceOf false c rows.
Proof.
  induction rows as [|r rows IH]; [done|]. rewrite balanceOf_cons.
  destruct (decide (Element.currency r = c)) as [E|E].
  - rewrite filter_cons_True by done. cbn [foldr]. rewrite IH.
    unfold contribution. lia.
  - by rewrite filter_cons_False.
Qed.

(** The grouped query finds a non-zero balance exactly when some currency
    does not net to zero. *)
Lemma groupBalances_nonzero rows :
  existsb (λ balance, negb (balance =? 0)) (groupBalances rows) = true
  ↔ ∃ c, balanceOf false c rows ≠ 0.
Proof.
  rewrite existsb_exists. unfold groupBalances. split.
  - intros (x & Hx & Hnz). rewrite <- list_elem_of_In in Hx.
    apply list_elem_of_fmap in Hx as (c & -> & Hc).
    rewrite group_balance in Hnz. apply negb_true_iff, Z.eqb_neq in Hnz.
    by exists c.
  - intros [c Hc]. eexists. split.
    + rewrite <- list_elem_of_In. apply list_elem_of_fmap.
      exists c. split; [done|]. rewrite elem_of_remove_dups.
      destruct (decide (c ∈ Element.currency <$> rows)) as [|Hnin]; [done|].
      destruct Hc. by apply balanceOf_absent.
    + rewrite group_balance. by apply negb_true_iff, Z.eqb_neq.
Qed.

(** On exact rows the grouped query finds a non-zero balance exactly when
    the rows do not balance. *)
Lemma groupBalances_isBalanced rows :
  exactOn false rows →
  existsb (λ balance, negb (balance =? 0)) (groupBalances rows)
  = negb (isBalanced rows).
Proof.
  intros Hexact. apply eq_true_iff_eq.
  rewrite negb_true_iff, groupBalances_nonzero. split.
  - intros [c Hc]. destruct (isBalanced rows) eqn:Hbal; [|done].
    rewrite isBalanced_all in Hbal by done. destruct Hc. apply Hbal.
  - intros Hbal.
    destruct (existsb (λ balance, negb (balance =? 0)) (groupBalances rows))
      eqn:Hex; [by apply groupBalances_nonzero|].
    assert (isBalanced rows = true); [|congruence].
    apply isBalanced_all; [done|]. intros c.
    destruct (Z.eq_dec (balanceOf false c rows) 0) as [|Hnz]; [done|].
    assert (existsb (λ balance, negb (balance =? 0)) (groupBalances rows)
            = true); [|congruence].
    apply groupBalances_nonzero. by exists c.
Qed.

(** X17. When the aggregator computes exactly on the rows of the given
    account (accounts receivable by default) that belong to a transaction or
    settle it (ordinary currency codes, signs and amounts within [2^53],
    absolute values of drcr × amount that total at most [2^53]),
    [unpaidInvoices] selects the transaction exactly when it is of the given
    type (an invoice by default) and these rows fail [isBalanced]: an
    overpaid invoice is selected as well. *)
Theorem unpaidInvoices_unbalanced (AccountsReceivable : Z) (s : Store.t)
    (type : option TransactionType) (accountId : option Z)
    (row : Z * Store.TxnRow) :
  exactOn false
    (filter (λ r, linked (default AccountsReceivable accountId) row.1 r = true)
       (elementRows s)) →
  unpaidInvoices AccountsReceivable s type accountId row
  = bool_decide (Store.type row.2 = Some (default Invoice type))
    && negb (isBalanced
               (filter (λ r, linked (default AccountsReceivable accountId)
                               row.1 r = true)
                  (elementRows s))).
Proof.
  intros Hexact. unfold unpaidInvoices. cbv zeta.
  by rewrite groupBalances_isBalanced.
Qed.

Lemma unpaidInvoices_unbalanced_witness :
  unpaidInvoices 400 saleStore (Some Sale) None
    (1, Store.mkTxnRow None (Some Sale) (Some "2020-01-01") None None)
  = true
    && negb (isBalanced
               (filter (λ r, linked 400 1 r = true) (elementRows saleStore))).
Proof.
  apply (unpaidInvoices_unbalanced 400 saleStore (Some Sale) None
           (1, Store.mkTxnRow None (Some Sale) (Some "2020-01-01") None None)).
  compute_done.
Defined.

(** ** Settlements *)

Lemma elem_of_elementRows s k row :
  Store.txnElement s !! k = Some row → row ∈ elementRows s.
Proof.
  intros Hk. unfold elementRows. apply list_elem_of_fmap.
  exists (k, row). split; [done|]. by apply elem_of_map_to_list.
Qed.

(** X18. After [_save] of a transaction, if one of the elements that it writes
    and that [condenseElements] keeps has the id of an invoice as
    [settleId], the saved transaction satisfies the invoice's
    [settlements()] condition. *)
Theorem save_settlement h s this elements h' s' this' invoice i l :
  Transaction.elements this = Some elements →
  store_ok h s elements →
  rows_ok h s elements →
  _save h s this = (h', s', this') →
  l ∈ default [] (Transaction.elements (condenseElements h' this')) →
  hasParent (deref h l) = false ∨ is_Some (Element._parent (deref h l)) →
  Transaction.id invoice = Some i →
  Element.settleId (deref h l) = Some i →
  ∃ tid, Transaction.id this' = Some tid
    ∧ ∀ row, settlements s' invoice (tid, row) = true.
Proof.
  intros Hel Hstore Hrows Hsave Hl Hkind Hi Hsettle.
  destruct (saved_element _ _ _ _ _ _ _ _ Hel Hstore Hrows Hsave Hl Hkind)
    as (k & row & tid & Hk & Hrow & Has & Htid & Ht).
  exists tid. split; [done|]. intros txnRow. unfold settlements.
  rewrite Hi. apply existsb_exists. exists row. split.
  - rewrite <- list_elem_of_In. by eapply elem_of_elementRows.
  - destruct Has as (_ & _ & _ & Hdt & _ & _ & Hds & _).
    cbn. rewrite (Hdt _ Ht).
    assert (Element.settleId (deref h' l) = Some i) as Hs'.
    { destruct (_save_elements h s this elements Hel)
        as (s0 & this0 & h0 & b & h1 & s1 & h2 & s2 & h'' & s'' & _ & _
            & _ & Hsep & Hdel & Hpar & Hch & Hsave').
      rewrite Hsave in Hsave'. injection Hsave' as <- <- _.
      destruct (blank_fields _ _
        (saveBatches_kept _ _ _ _ _ _ _ _ _ _ _ _ Hsep Hdel Hpar Hch l))
        as (_ & _ & -> & _). done. }
    rewrite (Hds _ Hs'). by rewrite !bool_decide_eq_true_2.
Qed.

(** ** Navigation there and back *)

(** The rows [prevId] chooses from, with a usable reference. *)
Lemma prevId_rows s type d i k row :
  (k, row) ∈ List.filter (isBefore d i)
               (List.filter (typeMatches type) (map_to_list (Store.txn s)))
  ↔ matching s type k row
    ∧ ∃ x, Store.date row = Some x ∧ pairBelow (x, k) (d, i).
Proof.
  rewrite list_elem_of_In, filter_In, <- list_elem_of_In.
  rewrite elem_of_typed_rows, isBefore_spec. done.
Qed.

Lemma nextId_rows s type d i k row :
  (k, row) ∈ List.filter (isAfter d i)
               (List.filter (typeMatches type) (map_to_list (Store.txn s)))
  ↔ matching s type k row
    ∧ ∃ x, Store.date row = Some x ∧ pairBelow (d, i) (x, k).
Proof.
  rewrite list_elem_of_In, filter_In, <- list_elem_of_In.
  rewrite elem_of_typed_rows, isAfter_spec. done.
Qed.

Lemma prevId_below s i d type :
  i ≠ 0 → d ≠ "" →
  greatestBelow s type (d, i) (prevId s (Some (Ref.mk (Some i) (Some d))) type)
  ∨ (noneBelow s type (d, i)
     ∧ prevId s (Some (Ref.mk (Some i) (Some d))) type = 0).
Proof.
  intros Hi Hd. unfold prevId. rewrite usable_Some by done.
  destruct (firstId_sorted orderDesc (λ a b, compareRow b a ≠ Gt)
              (λ a b, compareRow_le_total b a)
              (λ a b c Hab Hbc, compareRow_le_trans c b a Hbc Hab)
              (λ a b, orderAsc_le b a)
              (List.filter (isBefore d i)
                 (List.filter (typeMatches type) (map_to_list (Store.txn s)))))
    as [[Hnil ->]|([k row] & Hin & -> & Hmax)].
  - right. split; [|done]. intros k row x Hm Hx Hbelow.
    assert ((k, row) ∈ List.filter (isBefore d i)
              (List.filter (typeMatches type) (map_to_list (Store.txn s))))
      as Hin by (apply prevId_rows; eauto).
    rewrite Hnil in Hin. by apply elem_of_nil in Hin.
  - left. apply prevId_rows in Hin as (Hm & x & Hx & Hbelow).
    exists row, x. split_and!; [done..|].
    intros k' row' x' Hm' Hx' Hbelow'.
    eapply pairBelow_compareRow; [done..|].
    apply Hmax, prevId_rows. eauto.
Qed.

Lemma nextId_above s i d type :
  i ≠ 0 → d ≠ "" →
  leastAbove s type (d, i) (nextId s (Some (Ref.mk (Some i) (Some d))) type)
  ∨ (noneAbove s type (d, i)
     ∧ nextId s (Some (Ref.mk (Some i) (Some d))) type = 0).
Proof.
  intros Hi Hd. unfold nextId. rewrite usable_Some by done.
  destruct (firstId_sorted orderAsc (λ a b, compareRow a b ≠ Gt)
              compareRow_le_total compareRow_le_trans orderAsc_le
              (List.filter (isAfter d i)
                 (List.filter (typeMatches type) (map_to_list (Store.txn s)))))
    as [[Hnil ->]|([k row] & Hin & -> & Hmin)].
  - right. split; [|done]. intros k row x Hm Hx Habove.
    assert ((k, row) ∈ List.filter (isAfter d i)
              (List.filter (typeMatches type) (map_to_list (Store.txn s))))
      as Hin by (apply nextId_rows; eauto).
    rewrite Hnil in Hin. by apply elem_of_nil in Hin.
  - left. apply nextId_rows in Hin as (Hm & x & Hx & Habove).
    exists row, x. split_and!; [done..|].
    intros k' row' x' Hm' Hx' Habove'.
    destruct (pairBelow_compareRow k row x k' row' x' Hx Hx') as [->|?];
      [|by left|by right].
    apply Hmin, nextId_rows. eauto.
Qed.

Lemma pairBelow_irrefl p : ¬ pairBelow p p.
Proof.
  intros [H|[_ H]]; [|lia]. by rewrite String_compare_refl in H.
Qed.

Lemma pairBelow_trans p q r : pairBelow p q → pairBelow q r → pairBelow p r.
Proof.
  unfold pairBelow. intros [H1|[E1 H1]] [H2|[E2 H2]].
  - left. by eapply String_compare_lt_trans.
  - left. by rewrite <- E2.
  - left. by rewrite E1.
  - right. split; [congruence|lia].
Qed.

Lemma pairBelow_asym p q : pairBelow p q → pairBelow q p → False.
Proof. intros H1 H2. by apply (pairBelow_irrefl p), (pairBelow_trans p q p). Qed.

(** X19. [nextId] undoes [prevId]: for a stored transaction that passes the
    type filter, with a non-zero id and a non-empty date, if [prevId] from
    it is a transaction [p] (not 0) whose date is not empty, then [nextId]
    from [p] is the transaction started from. *)
Theorem nextId_prevId s type i d row p rowp dp :
  i ≠ 0 → d ≠ "" →
  matching s type i row → Store.date row = Some d →
  prevId s (Some (Ref.mk (Some i) (Some d))) type = p →
  p ≠ 0 →
  Store.txn s !! p = Some rowp → Store.date rowp = Some dp → dp ≠ "" →
  nextId s (Some (Ref.mk (Some p) (Some dp))) type = i.
Proof.
  intros Hi Hd Hm Hdate Hprev Hp Hrowp Hdp Hdp0.
  destruct (prevId_below s i d type Hi Hd) as [Hgb|[_ H0]]; [|congruence].
  rewrite Hprev in Hgb.
  destruct Hgb as (rowp' & x & [Hrowp' Hmp] & Hx & Hbelow & Hmax).
  rewrite Hrowp in Hrowp'. injection Hrowp' as <-.
  rewrite Hdp in Hx. injection Hx as <-.
  destruct (nextId_above s p dp type Hp Hdp0) as [Hla|[Hnone _]].
  2:{ destruct (Hnone i row d Hm Hdate Hbelow). }
  destruct Hla as (rown & xn & Hmn & Hxn & Habove & Hmin).
  destruct (Hmin i row d Hm Hdate Hbelow) as [E|Hlt]; [done|].
  destruct (Hmax _ rown xn Hmn Hxn Hlt) as [E|Hlt'].
  - destruct Hmn as [Hrn _]. rewrite E, Hrowp in Hrn. injection Hrn as <-.
    rewrite Hdp in Hxn. injection Hxn as <-. rewrite E in Habove.
    by destruct (pairBelow_irrefl _ Habove).
  - destruct (pairBelow_asym _ _ Habove Hlt').
Qed.

Lemma nextId_prevId_witness :
  prevId scenarioD (Some (Ref.mk (Some 3) (Some "2020-01-02"))) None = 2
  ∧ nextId scenarioD (Some (Ref.mk (Some 2) (Some "2020-01-02"))) None = 3.
Proof.
  split; [reflexivity|].
  apply (nextId_prevId scenarioD None 3 "2020-01-02"
           (Store.mkTxnRow None (Some Invoice) (Some "2020-01-02") None None)
           2 (Store.mkTxnRow None (Some Sale) (Some "2020-01-02") None None)
           "2020-01-02");
    try done; try reflexivity.
Defined.

(** X20. [prevId] undoes [nextId]: for a stored transaction that passes the
    type filter, with a non-zero id and a non-empty date, if [nextId] from
    it is a transaction [n] (not 0) whose date is not empty, then [prevId]
    from [n] is the transaction started from. *)
Theorem prevId_nextId_symmetric s type i d row n rown dn :
  i ≠ 0 → d ≠ "" →
  matching s type i row → Store.date row = Some d →
  nextId s (Some (Ref.mk (Some i) (Some d))) type = n →
  n ≠ 0 →
  Store.txn s !! n = Some rown → Store.date rown = Some dn → dn ≠ "" →
  prevId s (Some (Ref.mk (Some n) (Some dn))) type = i.
Proof.
  intros Hi Hd Hm Hdate Hnext Hn Hrown Hdn Hdn0.
  destruct (nextId_above s i d type Hi Hd) as [Hla|[_ H0]]; [|congruence].
  rewrite Hnext in Hla.
  destruct Hla as (rown' & x & [Hrown' Hmn] & Hx & Habove & Hmin).
  rewrite Hrown in Hrown'. injection Hrown' as <-.
  rewrite Hdn in Hx. injection Hx as <-.
  destruct (prevId_below s n dn type Hn Hdn0) as [Hgb|[Hnone _]].
  2:{ destruct (Hnone i row d Hm Hdate Habove). }
  destruct Hgb as (rowp & xp & Hmp & Hxp & Hbelow & Hmax).
  destruct (Hmax i row d Hm Hdate Habove) as [E|Hlt]; [done|].
  destruct (Hmin _ rowp xp Hmp Hxp Hlt) as [E|Hlt'].
  - destruct Hmp as [Hrp _]. rewrite E, Hrown in Hrp. injection Hrp as <-.
    rewrite Hdn in Hxp. injection Hxp as <-. rewrite E in Hbelow.
    by destruct (pairBelow_irrefl _ Hbelow).
  - destruct (pairBelow_asym _ _ Hbelow Hlt').
Qed.

(** What [prevId] and [nextId] return is 0 or the id of a stored transaction
    that passes the type filter. *)
Lemma firstId_member (q : list (Z * Store.TxnRow)) cmp :
  firstId (take 1 (JS.sort cmp q)) = 0
  ∨ ∃ row, (firstId (take 1 (JS.sort cmp q)), row) ∈ q.
Proof.
  pose proof (sort_Permutation cmp q) as Hperm.
  destruct (JS.sort cmp q) as [|[k row] rest]; [by left|].
  right. exists row. rewrite <- Hperm. apply list_elem_of_here.
Qed.

(** X21. Whatever the reference and the type filter, [prevId] and [nextId]
    return 0 or the id of a stored transaction that passes the type
    filter. *)
Theorem prevId_nextId_stored s t type :
  (prevId s t type = 0 ∨ ∃ row, matching s type (prevId s t type) row)
  ∧ (nextId s t type = 0 ∨ ∃ row, matching s type (nextId s t type) row).
Proof.
  unfold prevId, nextId. split.
  - destruct (usable t) as [[d i]|].
    + destruct (firstId_member
        (List.filter (isBefore d i)
           (List.filter (typeMatches type) (map_to_list (Store.txn s))))
        orderDesc) as [?|[row Hrow]]; [by left|].
      right. exists row. by apply prevId_rows in Hrow as [? _].
    + destruct (firstId_member
        (List.filter (typeMatches type) (map_to_list (Store.txn s)))
        orderDesc) as [?|[row Hrow]]; [by left|].
      right. exists row. by apply elem_of_typed_rows.
  - destruct (usable t) as [[d i]|].
    + destruct (firstId_member
        (List.filter (isAfter d i)
           (List.filter (typeMatches type) (map_to_list (Store.txn s))))
        orderAsc) as [?|[row Hrow]]; [by left|].
      right. exists row. by apply nextId_rows in Hrow as [? _].
    + destruct (firstId_member
        (List.filter (typeMatches type) (map_to_list (Store.txn s)))
        orderAsc) as [?|[row Hrow]]; [by left|].
      right. exists row. by apply elem_of_typed_rows.
Qed.

(** ** The saved list of other tax authorities *)

Lemma uniq_foldl (xs : list string) : ∀ acc : list string,
  NoDup acc →
  NoDup (foldl (λ acc x, if decide (x ∈ acc) then acc else acc ++ [x]) acc xs)
  ∧ ∀ x, x ∈ foldl (λ acc x, if decide (x ∈ acc) then acc else acc ++ [x]) acc xs
         ↔ x ∈ acc ∨ x ∈ xs.
Proof.
  induction xs as [|y xs IH]; intros acc Hnd; cbn [foldl].
  - split; [done|]. intros x. rewrite elem_of_nil. tauto.
  - destruct (decide (y ∈ acc)) as [Hin|Hnin].
    + destruct (IH acc Hnd) as [Hnd' Hmem]. split; [done|].
      intros x. rewrite Hmem, elem_of_cons. split; [tauto|].
      intros [?|[->|?]]; tauto.
    + destruct (IH (acc ++ [y])) as [Hnd' Hmem].
      { apply NoDup_app. split_and!; [done| |apply NoDup_singleton].
        by intros x Hx ->%list_elem_of_singleton. }
      split; [done|]. intros x.
      rewrite Hmem, elem_of_app, list_elem_of_singleton, elem_of_cons. tauto.
Qed.

Lemma uniq_NoDup xs : NoDup (uniq xs).
Proof. apply uniq_foldl, NoDup_nil_2. Qed.

Lemma elem_of_uniq xs x : x ∈ uniq xs ↔ x ∈ xs.
Proof.
  unfold uniq. destruct (uniq_foldl xs [] (NoDup_nil_2)) as [_ ->].
  rewrite elem_of_nil. tauto.
Qed.

Lemma uniq_id_foldl (xs : list string) : ∀ acc : list string,
  NoDup (acc ++ xs) →
  foldl (λ acc x, if decide (x ∈ acc) then acc else acc ++ [x]) acc xs
  = acc ++ xs.
Proof.
  induction xs as [|y xs IH]; intros acc Hnd; cbn [foldl].
  - by rewrite app_nil_r.
  - destruct (decide (y ∈ acc)) as [Hin|Hnin].
    + apply NoDup_app in Hnd as (_ & Hdisj & _).
      destruct (Hdisj y Hin). apply list_elem_of_here.
    + rewrite IH; rewrite <- app_assoc; done.
Qed.

Lemma uniq_id xs : NoDup xs → uniq xs = xs.
Proof. intros Hnd. by apply (uniq_id_foldl xs []). Qed.

Lemma compareStrings_le a b : compareStrings a b <= 0 ↔ String.le a b.
Proof.
  unfold compareStrings, String.le, String.leb.
  destruct (String.compare a b); cbn; split; try done; lia.
Qed.

Lemma sort_compareStrings_sorted l :
  StronglySorted String.le (JS.sort compareStrings l).
Proof.
  apply sort_StronglySorted.
  - intros a b. apply (total String.le).
  - intros a b c. apply (transitivity (R := String.le)).
  - apply compareStrings_le.
Qed.

(** X22. The list of other tax authorities that the tax settings form saves is
    in strictly ascending order (so it has no duplicates) and holds exactly
    the entries of the submitted list other than the home authority and
    'none'. *)
Theorem SettingsTax_saveFormData_normal taxAuthority otherTaxAuthorities :
  StronglySorted (λ a b, String.compare a b = Lt)
    (SettingsTax_saveFormData taxAuthority otherTaxAuthorities)
  ∧ ∀ c, c ∈ SettingsTax_saveFormData taxAuthority otherTaxAuthorities
         ↔ c ∈ default [] otherTaxAuthorities
           ∧ c ≠ taxAuthority ∧ c ≠ "none".
Proof.
  unfold SettingsTax_saveFormData. cbv zeta. split.
  - apply (StronglySorted_strict (λ x : string, x)).
    + apply sort_compareStrings_sorted.
    + rewrite list_fmap_id, sort_Permutation. apply uniq_NoDup.
  - intros c. rewrite sort_Permutation, elem_of_uniq, list_elem_of_filter. tauto.
Qed.

(** X23. Saving the tax settings form again with the list it saved changes
    nothing: the clean-up of the other tax authorities is idempotent. *)
Theorem SettingsTax_saveFormData_idempotent taxAuthority otherTaxAuthorities :
  SettingsTax_saveFormData taxAuthority
    (Some (SettingsTax_saveFormData taxAuthority otherTaxAuthorities))
  = SettingsTax_saveFormData taxAuthority otherTaxAuthorities.
Proof.
  unfold SettingsTax_saveFormData at 1. cbv zeta. cbn [default from_option]. unfold id.
  set (saved := SettingsTax_saveFormData taxAuthority otherTaxAuthorities).
  assert (NoDup saved) as Hnd.
  { unfold saved, SettingsTax_saveFormData. rewrite sort_Permutation.
    apply uniq_NoDup. }
  assert (filter (λ c : string, c ≠ taxAuthority ∧ c ≠ "none") saved = saved) as ->.
  { assert (Forall (λ c : string, c ≠ taxAuthority ∧ c ≠ "none") saved) as Hall.
    { apply Forall_forall. intros c. unfold saved, SettingsTax_saveFormData.
      cbv zeta. rewrite sort_Permutation, elem_of_uniq, list_elem_of_filter.
      tauto. }
    clear Hnd. induction Hall as [|c l Hc _ IH]; [done|].
    rewrite filter_cons_True by done. by rewrite IH. }
  rewrite uniq_id by done.
  apply (sort_sorted _ String.le); [apply compareStrings_le|].
  apply sort_compareStrings_sorted.
Qed.

Lemma condenseElements_sorted_witness :
  Transaction.elements sale = Some [0; 1; 2; 3]%nat
  ∧ ∃ elements',
      Transaction.elements (condenseElements saleHeap sale) = Some elements'
      ∧ elements' ≡ₚ filter (λ l, survives (deref saleHeap l) = true)
                       [0; 1; 2; 3]%nat
      ∧ StronglySorted (λ a b, idOf saleHeap a ≤ idOf saleHeap b) elements'.
Proof.
  split; [reflexivity|].
  apply (condenseElements_sorted saleHeap sale [0; 1; 2; 3]%nat); [reflexivity|].
  repeat (apply Forall_cons; split; [intros _; vm_compute; eauto|]).
  apply Forall_nil_2.
Defined.

Lemma condenseElements_idempotent_witness :
  condenseElements saleHeap (condenseElements saleHeap sale)
  = condenseElements saleHeap sale.
Proof.
  apply (condenseElements_idempotent saleHeap sale).
  repeat (apply Forall_cons; split; [intros _; vm_compute; eauto|]).
  apply Forall_nil_2.
Defined.

Lemma save_settlement_witness :
  ∃ tid, Transaction.id (_save paymentHeap scenarioD mergedPayment).2 = Some tid
    ∧ ∀ row, settlements (_save paymentHeap scenarioD mergedPayment).1.2 invoice3
               (tid, row) = true.
Proof.
  apply (save_settlement paymentHeap scenarioD mergedPayment [0; 1]%nat
           (_save paymentHeap scenarioD mergedPayment).1.1
           (_save paymentHeap scenarioD mergedPayment).1.2
           (_save paymentHeap scenarioD mergedPayment).2 invoice3 3 1%nat).
  - reflexivity.
  - solve_store_ok.
  - intros l k Hl Hk.
    repeat (apply elem_of_cons in Hl as [->|Hl]; [by vm_compute in Hk|]).
    by apply elem_of_nil in Hl.
  - by destruct (_save paymentHeap scenarioD mergedPayment) as [[? ?] ?].
  - compute_done.
  - left. reflexivity.
  - reflexivity.
  - reflexivity.
Defined.

Lemma prevId_nextId_symmetric_witness :
  nextId scenarioD (Some (Ref.mk (Some 2) (Some "2020-01-02"))) None = 3
  ∧ prevId scenarioD (Some (Ref.mk (Some 3) (Some "2020-01-02"))) None = 2.
Proof.
  split; [reflexivity|].
  apply (prevId_nextId_symmetric scenarioD None 2 "2020-01-02"
           (Store.mkTxnRow None (Some Sale) (Some "2020-01-02") None None)
           3 (Store.mkTxnRow None (Some Invoice) (Some "2020-01-02") None None)
           "2020-01-02");
    try done; try reflexivity.
Defined.

(** ** Saving elements that are all new non-children *)

(** The first loop, when every element is kept and has no parent. *)
Lemma separate_roots this elements : ∀ h b h' b',
  NoDup elements → heap_ok h elements →
  Forall (λ l, isKept (deref h l) = true ∧ hasParent (deref h l) = false)
    elements →
  foldl (separate this) (h, b) elements = (h', b') →
  length h' = length h
  ∧ (∀ l, l ∈ elements →
       deref h' l = Element.with_transactionId (Transaction.id this) (deref h l))
  ∧ (∀ l, l ∉ elements → deref h' l = deref h l)
  ∧ b' = mkBatches (parents b ++ elements) (children b) (deletes b).
Proof.
  induction elements as [|x elements IH]; intros h b h' b' Hnd Hok Hall.
  - intros [= <- <-]. rewrite app_nil_r. split_and!; [done| |done|by destruct b].
    by intros l ?%elem_of_nil.
  - apply NoDup_cons in Hnd as [Hx Hnd]. apply Forall_cons in Hok as [Hxh Hok].
    apply Forall_cons in Hall as [[Hk Hp] Hall].
    cbn [foldl]. unfold separate at 2. rewrite Hk, Hp.
    set (h1 := <[x := Element.with_transactionId (Transaction.id this)
                        (deref h x)]> h).
    assert (∀ l, l ≠ x → deref h1 l = deref h l) as Hother.
    { intros l Hne. unfold h1. by rewrite deref_insert_ne by (by intros ->). }
    intros Hrun. apply IH in Hrun as (Hlen & Hin & Hout & ->); [|done| |].
    + cbn [parents children deletes]. rewrite <- app_assoc.
      split_and!; [|intros l [->|Hl]%elem_of_cons| |done].
      * rewrite Hlen. unfold h1. by rewrite length_insert.
      * rewrite Hout by done. unfold h1. by rewrite deref_insert_eq.
      * rewrite Hin by done. rewrite Hother; [done|]. by intros ->.
      * intros l [Hne Hl]%not_elem_of_cons. rewrite Hout by done.
        by apply Hother.
    + unfold heap_ok, h1. rewrite length_insert. exact Hok.
    + apply Forall_forall. intros l Hl. rewrite Hother by (by intros ->).
      rewrite Forall_forall in Hall. by apply Hall.
Qed.

Lemma elementRows_insert s k row seq :
  Store.txnElement s !! k = None →
  elementRows (Store.with_txnElement (<[k := row]> (Store.txnElement s)) seq s)
  ≡ₚ row :: elementRows s.
Proof.
  intros Hk. unfold elementRows. cbn. by rewrite map_to_list_insert.
Qed.

(** The parents loop, when no element has an id yet: element number [j] gets
    the [j]-th id from the generator and a row with its fields. *)
Lemma saveOne_fresh elements : ∀ h s h' s',
  NoDup elements → heap_ok h elements →
  Forall (λ l, Element.id (deref h l) = None) elements →
  foldl saveOne (h, s) elements = (h', s') →
  length h' = length h
  ∧ (∀ j l, elements !! j = Some l →
       deref h' l
       = Element.with_id (Some (Store.txnElementSeq s + Z.of_nat j)) (deref h l)
       ∧ Store.txnElement s' !! (Store.txnElementSeq s + Z.of_nat j)
         = Some (Element.fields (deref h' l)))
  ∧ (∀ l, l ∉ elements → deref h' l = deref h l)
  ∧ (∀ k, k < Store.txnElementSeq s →
       Store.txnElement s' !! k = Store.txnElement s !! k)
  ∧ Store.txnElementSeq s' = Store.txnElementSeq s + Z.of_nat (length elements)
  ∧ Store.txn s' = Store.txn s
  ∧ Store.txnSeq s' = Store.txnSeq s
  ∧ Store.lastSavedDate s' = Store.lastSavedDate s
  ∧ (seq_fresh s →
       seq_fresh s'
       ∧ elementRows s' ≡ₚ reverse (view h' elements) ++ elementRows s).
Proof.
  induction elements as [|x elements IH]; intros h s h' s' Hnd Hok Hall.
  - intros [= <- <-]. cbn. split_and!; try done. lia.
  - apply NoDup_cons in Hnd as [Hx Hnd]. apply Forall_cons in Hok as [Hxh Hok].
    apply Forall_cons in Hall as [Hid Hall].
    cbn [foldl]. unfold saveOne at 2, Element_save. rewrite Hid.
    set (k := Store.txnElementSeq s).
    set (e := Element.with_id (Some k) (deref h x)).
    set (h1 := <[x := e]> h).
    set (s1 := Store.with_txnElement _ _ s).
    assert (∀ l, l ≠ x → deref h1 l = deref h l) as Hother.
    { intros l Hne. unfold h1. by rewrite deref_insert_ne by (by intros ->). }
    assert (Store.txnElementSeq s1 = k + 1) as Hseq1 by done.
    intros Hrun.
    apply IH in Hrun
      as (Hlen & Hin & Hout & Hold & Hseq & Htxn & Htseq & Hlsd & Hrows);
      [|done| |].
    + assert (deref h' x = e) as Hx'.
      { rewrite Hout by done. unfold h1. by rewrite deref_insert_eq. }
      split_and!.
      * rewrite Hlen. unfold h1. by rewrite length_insert.
      * intros [|j] l; cbn.
        -- intros [= <-]. rewrite Hx', Z.add_0_r. split; [done|].
           rewrite Hold by lia. unfold s1. cbn. apply lookup_insert_eq.
        -- intros Hj. destruct (Hin j l Hj) as [Hl Hrow].
           rewrite Hseq1 in Hl, Hrow.
           replace (k + Z.of_nat (S j)) with (k + 1 + Z.of_nat j)
             by lia.
           split; [|done]. rewrite Hl.
           by rewrite Hother
             by (intros ->; by apply list_elem_of_lookup_2 in Hj).
      * intros l [Hne Hl]%not_elem_of_cons. rewrite Hout by done.
        by apply Hother.
      * intros k' Hk'. rewrite Hold by lia. unfold s1. cbn.
        apply lookup_insert_ne. unfold k. lia.
      * rewrite Hseq, Hseq1. cbn [length]. lia.
      * by rewrite Htxn.
      * by rewrite Htseq.
      * by rewrite Hlsd.
      * intros Hfresh. destruct Hrows as [Hfresh' Hrows].
        { intros k' Hk'. unfold s1 in *. cbn in *.
          rewrite lookup_insert_ne by (unfold k; lia). apply Hfresh.
          unfold k in *. lia. }
        split; [done|]. rewrite Hrows. unfold s1.
        rewrite elementRows_insert by (apply Hfresh; lia).
        change (view h' (x :: elements))
          with (Element.fields (deref h' x) :: view h' elements).
        rewrite reverse_cons, Hx', <- app_assoc. done.
    + unfold heap_ok, h1. rewrite length_insert. exact Hok.
    + apply Forall_forall. intros l Hl. rewrite Hother by (by intros ->).
      rewrite Forall_forall in Hall. by apply Hall.
Qed.

(** ** A merge of new candidates, exactly *)

Lemma mergeElements_fresh h this items :
  default [] (Transaction.elements this) = [] →
  items ≠ [] →
  Forall (λ item, Element.id item = None
                  ∧ transactionIdMismatch this item = false) items →
  (∀ first, items !! 0%nat = Some first →
     JS.truthy (Element.parentId first) = false) →
  isBalanced items = true →
  mergeElements h this items
  = (h ++ prepared (length h) None items,
     Transaction.with_elements (Some (seq (length h) (length items))) this,
     Resolved)
  ∧ view (h ++ prepared (length h) None items) (seq (length h) (length items))
    = (λ item, Element.fields (prepare None item)) <$> items.
Proof.
  intros Hel Hne Hall Hfirst Hbal.
  assert (view (h ++ prepared (length h) None items)
            (seq (length h) (length items))
          = (λ item, Element.fields (prepare None item)) <$> items) as Hview.
  { rewrite <- (prepared_length items (length h) None), view_allocated.
    apply prepared_fields. }
  split; [|done].
  unfold mergeElements. destruct items as [|first rest]; [done|].
  assert (list_find (λ item, transactionIdMismatch this item = true)
            (first :: rest) = None) as ->.
  { apply list_find_None. eapply Forall_impl; [exact Hall|].
    intros item [_ ->]. done. }
  rewrite (Hfirst first) by done. rewrite Hel.
  rewrite mergeLoop_append
    by (eapply Forall_impl; [exact Hall|]; by intros item [? _]).
  rewrite app_nil_l, Hview.
  by rewrite isBalanced_prepared, Hbal.
Qed.

(** ** [_save] of elements that are all new non-children *)

Lemma saveRow_store s this :
  Store.txnElement (saveRow s this).1 = Store.txnElement s
  ∧ Store.txnElementSeq (saveRow s this).1 = Store.txnElementSeq s
  ∧ Transaction.elements (saveRow s this).2 = Transaction.elements this.
Proof. unfold saveRow. by destruct (Transaction.id this). Qed.

Lemma _save_roots h s this elements :
  Transaction.elements this = Some elements →
  NoDup elements → heap_ok h elements →
  Forall (λ l, Element.id (deref h l) = None ∧ isKept (deref h l) = true
               ∧ hasParent (deref h l) = false) elements →
  ∃ h' s',
    _save h s this = (h', s', (saveRow s this).2)
    ∧ length h' = length h
    ∧ (∀ j l, elements !! j = Some l →
         deref h' l
         = Element.with_id (Some (Store.txnElementSeq s + Z.of_nat j))
             (Element.with_transactionId (Transaction.id (saveRow s this).2)
                (deref h l))
         ∧ Store.txnElement s' !! (Store.txnElementSeq s + Z.of_nat j)
           = Some (Element.fields (deref h' l)))
    ∧ Store.txn s' = Store.txn (saveRow s this).1
    ∧ (seq_fresh s →
         elementRows s' ≡ₚ reverse (view h' elements) ++ elementRows s).
Proof.
  intros Hel Hnd Hok Hall.
  destruct (saveRow_store s this) as (Hrows & Hseq & Hel0).
  unfold _save, saveBatches. destruct (saveRow s this) as [s0 this0].
  cbn [fst snd] in *. rewrite Hel0, Hel. unfold separateElements.
  destruct (foldl (separate this0) (h, mkBatches [] [] []) elements)
    as [h0 b] eqn:Hsep.
  apply separate_roots in Hsep as (Hlen0 & Hin0 & Hout0 & ->); [|done..|].
  2:{ eapply Forall_impl; [exact Hall|]. by intros l (_ & ? & ?). }
  cbn [parents children deletes foldl app].
  set (s0' := Store.with_lastSavedDate _ s0).
  destruct (foldl saveOne (h0, s0') elements) as [h' s'] eqn:Hpar.
  apply saveOne_fresh in Hpar
    as (Hlen & Hin & Hout & _ & _ & Htxn & _ & _ & Hrows'); [|done| |].
  - exists h', s'. split_and!.
    + done.
    + congruence.
    + intros j l Hj. destruct (Hin j l Hj) as [Hl Hrow].
      unfold s0' in Hl, Hrow. cbn in Hl, Hrow. rewrite Hseq in Hl, Hrow.
      split; [|done]. rewrite Hl.
      by rewrite Hin0 by (by eapply list_elem_of_lookup_2).
    + done.
    + intros Hfresh. destruct Hrows' as [_ ->].
      * intros k Hk. unfold s0' in *. cbn in *. rewrite Hrows.
        apply Hfresh. lia.
      * unfold elementRows, s0'. cbn. by rewrite Hrows.
  - unfold heap_ok. rewrite Hlen0. exact Hok.
  - apply Forall_forall. intros l Hl. rewrite Hin0 by done. cbn.
    rewrite Forall_forall in Hall. by destruct (Hall l Hl) as (? & _).
Qed.

(** ** A new payment of an invoice *)

Lemma within_opp z : within z → within (- z).
Proof. unfold within. by rewrite Z.abs_opp. Qed.

Lemma within_Debit : within Element.Debit.
Proof. unfold within, Element.Debit. simpl. lia. Qed.

Lemma within_Credit : within Element.Credit.
Proof. unfold within, Element.Credit. simpl. lia. Qed.

Lemma paymentElements_balanced Cash AccountsReceivable amount currency i :
  ordinary currency → within amount →
  isBalanced (paymentElements Cash AccountsReceivable None None amount currency
                (Some i)) = true.
Proof.
  intros Hord Ha. apply isBalanced_record. intros c p.
  unfold paymentElements. cbn [foldl]. rewrite addBalance_get.
  cbn [Element.currency Element.fields].
  destruct (decide (currency = c ∧ c ≠ "__proto__")) as [[<- _]|Hne].
  - rewrite read_ordinary, addBalance_get by done.
    cbn [Element.currency Element.fields].
    rewrite decide_True by (by destruct Hord).
    rewrite read_ordinary by done. cbn [JS.get].
    rewrite (term_within false (Element.mkIElement None None (Some Cash) Element.Debit amount
     currency None None None None None)).
    2:{ apply within_Debit. }
    2:{ done. }
    2:{ unfold contribution. cbn [Element.drcr Element.amount]. unfold Element.Debit. by rewrite Z.mul_1_l. }
    rewrite term_within.
    2:{ apply within_Credit. }
    2:{ done. }
    2:{ unfold contribution. cbn [Element.drcr Element.amount]. unfold Element.Credit.
        replace (-1 * amount) with (- amount) by lia. by apply within_opp. }
    unfold contribution, initial, JS.int, Element.Debit, Element.Credit.
    cbn [JS.isUndefined JS.plus Element.drcr Element.amount].
    rewrite Z.mul_1_l. rewrite (add_within 0 amount) by (by rewrite Z.add_0_l).
    rewrite Z.add_0_l. rewrite add_within.
    + intros [= <-]. do 2 f_equal. lia.
    + replace (amount + -1 * amount) with 0 by lia. apply within_0.
  - rewrite addBalance_get. cbn [Element.currency Element.fields].
    by rewrite decide_False.
Qed.

Lemma new_payment_saved (isDateOnly : string → bool)
    (Cash AccountsReceivable : Z) (h : list Element.TElement) (s : Store.t)
    (transaction payment : Transaction.t) (tId : option Z)
    (description : option string) (date : string) (amount : Z)
    (currency : string) (i : Z) :
  JS.truthy tId = false → 0 < amount → date ≠ "" → isDateOnly date = true →
  Transaction.id transaction = Some i →
  ordinary currency → within amount →
  let tid := Store.txnSeq s in
  let k := Store.txnElementSeq s in
  let n := length h in
  let cash := cashRow Cash k tid amount currency in
  let due := dueRow AccountsReceivable (k + 1) tid amount currency i in
  ∃ h' s' payment',
    InvoicePayment_saveFormData isDateOnly Cash AccountsReceivable h s
      transaction payment tId description date amount currency
    = (h', s', Some payment', Resolved)
    ∧ Transaction.id payment' = Some tid
    ∧ Transaction.elements payment' = Some [n; S n]
    ∧ Element.fields (deref h' n) = cash
    ∧ Element.fields (deref h' (S n)) = due
    ∧ Store.txnElement s' !! k = Some cash
    ∧ Store.txnElement s' !! (k + 1) = Some due
    ∧ (seq_fresh s → elementRows s' ≡ₚ due :: cash :: elementRows s).
Proof.
  intros new_item amount_given date_given date_only invoice_saved
    currency_ordinary amount_within tid k n cash due.
  unfold InvoicePayment_saveFormData. rewrite new_item.
  destruct (Z.ltb_spec 0 amount) as [_|?]; [|lia].
  rewrite invoice_saved.
  set (payment0 := Transaction.mk None description (Some InvoicePayment)
                     (Some date) None (Transaction.actorId transaction) None).
  set (items := paymentElements Cash AccountsReceivable None None amount
                  currency (Some i)).
  destruct (mergeElements_fresh h payment0 items) as [Hmerge Hview].
  { done. } { done. } { repeat constructor. } { by intros first [= <-]. }
  { by apply paymentElements_balanced. }
  unfold mergeAndSave. rewrite Hmerge.
  set (h1 := h ++ prepared (length h) None items) in *.
  set (payment1 := Transaction.with_elements _ payment0).
  assert (deref h1 n
          = Element.with_parentId (Some 0)
              (Element.construct
                 (Element.mkIElement None None (Some Cash) Element.Debit amount
                    currency None None None None None))) as H1.
  { unfold h1, n, deref. rewrite lookup_total_app_r by lia.
    by rewrite Nat.sub_diag. }
  assert (deref h1 (S n)
          = Element.with_parentId (Some 0)
              (Element.construct
                 (Element.mkIElement None None (Some AccountsReceivable)
                    Element.Credit amount currency None (Some i) None None
                    None))) as H2.
  { unfold h1, n, deref. rewrite lookup_total_app_r by lia.
    by replace (S (length h) - length h)%nat with 1%nat by lia. }
  unfold save.
  assert (JS.truthy_str (Transaction.date payment1) = true) as ->.
  { cbn. by destruct (String.eqb_spec date ""). }
  cbn [negb orb default from_option Transaction.date payment1
       Transaction.with_elements payment0]. unfold id. rewrite date_only.
  cbn [negb].
  assert (balanced h1 payment1 = true) as ->.
  { change (isBalanced (view h1 (seq (length h) (length items))) = true).
    rewrite Hview, isBalanced_prepared. by apply paymentElements_balanced. }
  cbn [negb].
  destruct (_save_roots h1 s payment1 [n; S n]) as (h' & s' & Hsave & Hlen
    & Hobj & _ & Hrows).
  { done. }
  { apply NoDup_cons. split; [|apply NoDup_singleton].
    intros ?%list_elem_of_singleton. lia. }
  { unfold heap_ok, h1, n. rewrite length_app. cbn.
    repeat (apply Forall_cons; split; [lia|]). apply Forall_nil_2. }
  { assert (negb (amount =? 0) = true) as Hnz.
    { destruct (Z.eqb_spec amount 0); [lia|done]. }
    repeat (apply Forall_cons; split;
      [rewrite ?H1, ?H2; unfold isKept; cbn; by rewrite Hnz|]).
    apply Forall_nil_2. }
  rewrite Hsave.
  destruct (Hobj 0%nat n eq_refl) as [Hn Hrown].
  destruct (Hobj 1%nat (S n) eq_refl) as [HSn HrowSn].
  rewrite H1 in Hn. rewrite H2 in HSn. cbn in Hn, HSn.
  rewrite Z.add_0_r in Hn, Hrown.
  assert (Element.fields (deref h' n) = cash) as Hcash by (by rewrite Hn).
  assert (Element.fields (deref h' (S n)) = due) as Hdue by (by rewrite HSn).
  eexists h', s', _. split_and!.
  - done.
  - done.
  - unfold condenseElements.
    destruct (saveRow_store s payment1) as (_ & _ & ->).
    change (Transaction.elements payment1) with (Some [n; S n]).
    assert (survives (deref h' n) = true ∧ survives (deref h' (S n)) = true)
      as [Hs1 Hs2].
    { unfold survives. rewrite Hn, HSn. cbn.
      destruct (Z.eqb_spec amount 0); [lia|done]. }
    rewrite filter_cons_True by done.
    rewrite filter_cons_True by done. rewrite filter_nil.
    cbn [JS.sort foldr JS.insert Transaction.elements
         Transaction.with_elements].
    unfold compareId. rewrite Hn, HSn. cbn [Element.id Element.fields
      Element.with_id].
    match goal with
    | |- context [?a <=? 0] => destruct (Z.leb_spec a 0); [done|lia]
    end.
  - done.
  - done.
  - by rewrite <- Hcash.
  - by rewrite <- Hdue.
  - intros Hfresh. rewrite (Hrows Hfresh).
    change (view h' [n; S n])
      with [Element.fields (deref h' n); Element.fields (deref h' (S n))].
    by rewrite Hcash, Hdue.
Qed.

(** X24. The payment form, for an item that is not a saved payment yet, with a
    positive amount of at most [2^53] in a currency whose code is ordinary
    (it names no property every object inherits) and a valid date, on an
    invoice that has an id: it resolves, the new payment gets the next
    transaction id, and the payment satisfies the invoice's [settlements()]
    condition. *)
Theorem InvoicePayment_new_payment (isDateOnly : string → bool)
    (Cash AccountsReceivable : Z) (h : list Element.TElement) (s : Store.t)
    (transaction payment : Transaction.t) (tId : option Z)
    (description : option string) (date : string) (amount : Z)
    (currency : string) (i : Z) :
  JS.truthy tId = false → 0 < amount → date ≠ "" → isDateOnly date = true →
  Transaction.id transaction = Some i →
  ordinary currency → within amount →
  ∃ h' s' payment',
    InvoicePayment_saveFormData isDateOnly Cash AccountsReceivable h s
      transaction payment tId description date amount currency
    = (h', s', Some payment', Resolved)
    ∧ Transaction.id payment' = Some (Store.txnSeq s)
    ∧ ∀ row, settlements s' transaction (Store.txnSeq s, row) = true.
Proof.
  intros HtId Hamount Hdate Hdateonly Hi Hord Hwithin.
  destruct (new_payment_saved isDateOnly Cash AccountsReceivable h s
              transaction payment tId description date amount currency i
              HtId Hamount Hdate Hdateonly Hi Hord Hwithin)
    as (h' & s' & payment' & Hsave & Hid & _ & _ & _ & _ & Hdue & _).
  exists h', s', payment'. split_and!; [done..|].
  intros row. unfold settlements. rewrite Hi. apply existsb_exists.
  eexists. split.
  - rewrite <- list_elem_of_In. by eapply elem_of_elementRows.
  - cbn. by rewrite !bool_decide_eq_true_2.
Qed.

Lemma InvoicePayment_new_payment_witness :
  ∃ h' s' payment',
    InvoicePayment_saveFormData (λ _, true) 100 200 [] scenarioD invoice3
      emptyTransaction None None "2020-01-03" 50 "USD"
    = (h', s', Some payment', Resolved)
    ∧ Transaction.id payment' = Some (Store.txnSeq scenarioD)
    ∧ ∀ row, settlements s' invoice3 (Store.txnSeq scenarioD, row) = true.
Proof.
  apply (InvoicePayment_new_payment (λ _, true) 100 200 [] scenarioD invoice3
           emptyTransaction None None "2020-01-03" 50 "USD" 3);
    [reflexivity|lia|done|reflexivity|reflexivity|compute_done|compute_done].
Defined.

(** The bound on the currency code is needed: a payment in a currency whose
    code names an inherited function is rejected as not balanced. *)
Example InvoicePayment_inherited :
  (InvoicePayment_saveFormData (λ _, true) 100 200 [] scenarioD invoice3
     emptyTransaction None None "2020-01-03" 50 "constructor").2
  = Rejected (PaymentRejected (MergeRejected NotBalanced)).
Proof. reflexivity. Qed.

(** ** The receivable balance after a payment *)

Lemma linked_cashRow Cash AccountsReceivable id tid amount currency i :
  Cash ≠ AccountsReceivable →
  linked AccountsReceivable i (cashRow Cash id tid amount currency) = false.
Proof.
  intros Hne. unfold linked, cashRow. apply andb_false_iff. right.
  apply bool_decide_eq_false_2. cbn. congruence.
Qed.

Lemma linked_dueRow AccountsReceivable id tid amount currency i :
  linked AccountsReceivable i
    (dueRow AccountsReceivable id tid amount currency i) = true.
Proof.
  unfold linked, dueRow. apply andb_true_iff. split.
  - apply orb_true_iff. right. by apply bool_decide_eq_true_2.
  - by apply bool_decide_eq_true_2.
Qed.

Lemma receivable_paid Cash AccountsReceivable s s' id id' tid amount currency i c :
  Cash ≠ AccountsReceivable →
  elementRows s'
  ≡ₚ dueRow AccountsReceivable id' tid amount currency i
     :: cashRow Cash id tid amount currency :: elementRows s →
  receivable AccountsReceivable s' i c
  = receivable AccountsReceivable s i c
    - (if decide (c = currency) then amount else 0).
Proof.
  intros Hne Hrows. unfold receivable.
  rewrite (balanceOf_Permutation _ _ _ _
             (filter_Permutation _ _ _ Hrows)).
  rewrite filter_cons_True by apply linked_dueRow.
  rewrite filter_cons_False
    by (rewrite (linked_cashRow _ _ _ _ _ _ _ Hne); done).
  rewrite balanceOf_cons. cbn.
  destruct (decide (currency = c)) as [->|Hc].
  - rewrite decide_True by done. unfold Element.Credit. lia.
  - rewrite decide_False by congruence. lia.
Qed.

(** X25. A new payment of [amount], at most [2^53], in a [currency] whose code
    is ordinary lowers the invoice's balance of accounts receivable in that
    currency by [amount] and leaves its balance in every other currency as
    it was (the cash account being another account, and no row being
    stored at or above the id generator). *)
Theorem InvoicePayment_receivable (isDateOnly : string → bool)
    (Cash AccountsReceivable : Z) (h : list Element.TElement) (s : Store.t)
    (transaction payment : Transaction.t) (tId : option Z)
    (description : option string) (date : string) (amount : Z)
    (currency : string) (i : Z) :
  JS.truthy tId = false → 0 < amount → date ≠ "" → isDateOnly date = true →
  Transaction.id transaction = Some i →
  ordinary currency → within amount →
  seq_fresh s → Cash ≠ AccountsReceivable →
  ∃ h' s' payment',
    InvoicePayment_saveFormData isDateOnly Cash AccountsReceivable h s
      transaction payment tId description date amount currency
    = (h', s', Some payment', Resolved)
    ∧ ∀ c, receivable AccountsReceivable s' i c
           = receivable AccountsReceivable s i c
             - (if decide (c = currency) then amount else 0).
Proof.
  intros HtId Hamount Hdate Hdateonly Hi Hord Hwithin Hfresh Hne.
  destruct (new_payment_saved isDateOnly Cash AccountsReceivable h s
              transaction payment tId description date amount currency i
              HtId Hamount Hdate Hdateonly Hi Hord Hwithin)
    as (h' & s' & payment' & Hsave & _ & _ & _ & _ & _ & _ & Hrows).
  exists h', s', payment'. split; [done|]. intros c.
  eapply receivable_paid; [done|]. by apply Hrows.
Qed.

Lemma scenarioD_seq_fresh : seq_fresh scenarioD.
Proof. intros k _. apply lookup_empty. Qed.

Lemma InvoicePayment_receivable_witness :
  ∃ h' s' payment',
    InvoicePayment_saveFormData (λ _, true) 100 200 [] scenarioD invoice3
      emptyTransaction None None "2020-01-03" 50 "USD"
    = (h', s', Some payment', Resolved)
    ∧ ∀ c, receivable 200 s' 3 c
           = receivable 200 scenarioD 3 c
             - (if decide (c = "USD") then 50 else 0).
Proof.
  apply (InvoicePayment_receivable (λ _, true) 100 200 [] scenarioD invoice3
           emptyTransaction None None "2020-01-03" 50 "USD" 3);
    [reflexivity|lia|done|reflexivity|reflexivity|compute_done|compute_done
    |apply scenarioD_seq_fresh|lia].
Defined.

(** ** Unpaid invoices, by their receivable balance *)

Lemma unpaidInvoices_receivable AccountsReceivable s type accountId k row :
  unpaidInvoices AccountsReceivable s type accountId (k, row) = true
  ↔ Store.type row = Some (default Invoice type)
    ∧ ∃ c, receivable (default AccountsReceivable accountId) s k c ≠ 0.
Proof.
  unfold unpaidInvoices. cbv zeta.
  rewrite andb_true_iff, bool_decide_eq_true, groupBalances_nonzero. done.
Qed.

(** X26. After a new payment of at most [2^53] in a currency whose code is
    ordinary, [unpaidInvoices] still selects the invoice exactly when it is
    an invoice and its receivable balance before the payment differs, in
    some currency, from what was paid: a payment in full takes the invoice
    off the list, a payment of less or more leaves it there. *)
Theorem InvoicePayment_unpaid (isDateOnly : string → bool)
    (Cash AccountsReceivable : Z) (h : list Element.TElement) (s : Store.t)
    (transaction payment : Transaction.t) (tId : option Z)
    (description : option string) (date : string) (amount : Z)
    (currency : string) (i : Z) :
  JS.truthy tId = false → 0 < amount → date ≠ "" → isDateOnly date = true →
  Transaction.id transaction = Some i →
  ordinary currency → within amount →
  seq_fresh s → Cash ≠ AccountsReceivable →
  ∃ h' s' payment',
    InvoicePayment_saveFormData isDateOnly Cash AccountsReceivable h s
      transaction payment tId description date amount currency
    = (h', s', Some payment', Resolved)
    ∧ ∀ row,
        unpaidInvoices AccountsReceivable s' None None (i, row) = true
        ↔ Store.type row = Some Invoice
          ∧ ∃ c, receivable AccountsReceivable s i c
                 ≠ (if decide (c = currency) then amount else 0).
Proof.
  intros HtId Hamount Hdate Hdateonly Hi Hord Hwithin Hfresh Hne.
  destruct (new_payment_saved isDateOnly Cash AccountsReceivable h s
              transaction payment tId description date amount currency i
              HtId Hamount Hdate Hdateonly Hi Hord Hwithin)
    as (h' & s' & payment' & Hsave & _ & _ & _ & _ & _ & _ & Hrows).
  exists h', s', payment'. split; [done|]. intros row.
  rewrite unpaidInvoices_receivable. cbn [default from_option]. unfold id.
  split; intros [Hty [c Hc]]; (split; [done|]); exists c;
    rewrite (receivable_paid Cash AccountsReceivable s s' _ _ _ amount currency
               i c Hne (Hrows Hfresh)) in *; lia.
Qed.

Lemma InvoicePayment_unpaid_witness :
  ∃ h' s' payment',
    InvoicePayment_saveFormData (λ _, true) 100 200 [] scenarioD invoice3
      emptyTransaction None None "2020-01-03" 50 "USD"
    = (h', s', Some payment', Resolved)
    ∧ ∀ row,
        unpaidInvoices 200 s' None None (3, row) = true
        ↔ Store.type row = Some Invoice
          ∧ ∃ c, receivable 200 scenarioD 3 c
                 ≠ (if decide (c = "USD") then 50 else 0).
Proof.
  apply (InvoicePayment_unpaid (λ _, true) 100 200 [] scenarioD invoice3
           emptyTransaction None None "2020-01-03" 50 "USD" 3);
    [reflexivity|lia|done|reflexivity|reflexivity|compute_done|compute_done
    |apply scenarioD_seq_fresh|lia].
Defined.

(** ** A rejected form *)

(** X27. When the forms' merge-save-condense sequence is rejected, nothing was
    written to the store; the rejection comes from [mergeElements], and the
    transaction is as it was, or it is 'Invalid date' from [save]:
    after a successful merge, [save] never rejects with 'Elements do not
    balance'. *)
Theorem mergeAndSave_rejected (isDateOnly : string → bool)
    (h : list Element.TElement) (s : Store.t) (this : Transaction.t)
    (elements : list Element.IElement) h' s' this' err :
  mergeAndSave isDateOnly h s this elements = (h', s', this', Rejected err) →
  s' = s
  ∧ ((∃ e, err = MergeRejected e ∧ this' = this)
     ∨ err = SaveRejected InvalidDate).
Proof.
  unfold mergeAndSave.
  destruct (mergeElements h this elements) as [[h1 this1] [|e]] eqn:Hmerge.
  - apply mergeElements_inv in Hmerge as (els & _ & Hbal & ->).
    unfold save.
    destruct (negb _ || negb _).
    + intros [= <- <- <- <-]. split; [done|by right].
    + unfold balanced. cbn [Transaction.elements Transaction.with_elements].
      rewrite Hbal. cbn [negb].
      by destruct (_save h1 s _) as [[? ?] ?].
  - apply mergeElements_inv in Hmerge as [-> _].
    intros [= <- <- <- <-]. split; [done|]. left. eauto.
Qed.

Lemma mergeAndSave_rejected_witness :
  mergeAndSave (λ _, false) [] scenarioD emptyTransaction
    [usd Element.Debit 10; usd Element.Credit 10]
  = ((mergeElements [] emptyTransaction
        [usd Element.Debit 10; usd Element.Credit 10]).1.1,
     scenarioD,
     (mergeElements [] emptyTransaction
        [usd Element.Debit 10; usd Element.Credit 10]).1.2,
     Rejected (SaveRejected InvalidDate))
  ∧ scenarioD = scenarioD
  ∧ ((∃ e, SaveRejected InvalidDate = MergeRejected e
           ∧ (mergeElements [] emptyTransaction
                [usd Element.Debit 10; usd Element.Credit 10]).1.2
             = emptyTransaction)
     ∨ SaveRejected InvalidDate = SaveRejected InvalidDate).
Proof.
  split; [reflexivity|].
  apply (mergeAndSave_rejected (λ _, false) [] scenarioD emptyTransaction
           [usd Element.Debit 10; usd Element.Credit 10]
           (mergeElements [] emptyTransaction
              [usd Element.Debit 10; usd Element.Credit 10]).1.1).
  reflexivity.
Defined.

(** ** A new sale *)

Lemma balancingElements_new Cash AR type balances :
  Forall (λ item, Element.id item = None)
    (balancingElements Cash AR type [] balances).1
  ∧ (balancingElements Cash AR type [] balances).2 = [].
Proof.
  induction balances as [|m balances IH]; [by split; [constructor|]|].
  cbn [balancingElements tail].
  destruct (balancingElements Cash AR type [] balances) as [els ids].
  cbn [fst snd] in *. destruct IH as [IH ->]. split; [|done].
  by apply Forall_cons.
Qed.

(** X28. The sale form on a new transaction (no id, no elements, a valid
    date): for a non-empty list of elements without ids that the form
    produced, the first of them not a child, on which the aggregator
    computes exactly (ordinary currency codes, signs and amounts within
    [2^53]) and whose absolute values of drcr × amount total at most
    [2^52], the merge and the save of the candidates with their balancing
    elements resolve. *)
Theorem Sale_new_saved (isDateOnly : string → bool)
    (Cash AccountsReceivable : Z) (h : list Element.TElement) (s : Store.t)
    (this : Transaction.t) (type : TransactionType)
    (elements : list Element.IElement) :
  Transaction.id this = None →
  Transaction.elements this = None →
  JS.truthy_str (Transaction.date this) = true →
  isDateOnly (default "" (Transaction.date this)) = true →
  elements ≠ [] →
  Forall (λ item, Element.id item = None) elements →
  (∀ first, elements !! 0%nat = Some first →
     JS.truthy (Element.parentId first) = false) →
  exactOn false elements → 2 * magnitude false elements ≤ 2 ^ 53 →
  ∃ h' s' this',
    mergeAndSave isDateOnly h s this
      (balancedCandidates Cash AccountsReceivable type (getDrElementIds h this)
         elements)
    = (h', s', this', Resolved).
Proof.
  intros Hid Hel Hdate Hdateonly Hne Hids Hfirst Hexact Hmag.
  set (items := balancedCandidates Cash AccountsReceivable type
                  (getDrElementIds h this) elements).
  assert (∃ rest, items = elements ++ rest
    ∧ Forall (λ item, Element.id item = None) rest) as (rest & Hitems & Hrest).
  { unfold items, balancedCandidates, getDrElementIds, getCrElementIds.
    rewrite Hel. cbv zeta.
    destruct (balancingElements_new Cash AccountsReceivable type
                (getCreditBalances elements)) as [Hb Hleft].
    destruct (balancingElements _ _ _ _ _) as [balancing ids].
    cbn [fst snd] in *. subst ids. exists balancing.
    by rewrite app_nil_r. }
  destruct (mergeElements_fresh h this items) as [Hmerge Hview].
  { by rewrite Hel. }
  { rewrite Hitems. by destruct elements. }
  { eapply Forall_impl.
    - rewrite Hitems. apply Forall_app. split; [exact Hids|exact Hrest].
    - intros item Hitem. cbn beta in *. split; [done|].
      unfold transactionIdMismatch. by rewrite Hid. }
  { intros first. rewrite Hitems. destruct elements as [|e els]; [done|].
    apply Hfirst. }
  { by apply balancedCandidates_balanced. }
  unfold mergeAndSave. rewrite Hmerge. unfold save.
  change (Transaction.date (Transaction.with_elements _ this))
    with (Transaction.date this).
  rewrite Hdate, Hdateonly. cbn [negb orb].
  assert (balanced (h ++ prepared (length h) None items)
            (Transaction.with_elements
               (Some (seq (length h) (length items))) this) = true) as ->.
  { unfold balanced. cbn [Transaction.elements Transaction.with_elements].
    rewrite Hview, isBalanced_prepared.
    by apply balancedCandidates_balanced. }
  cbn [negb]. destruct (_save _ s _) as [[h' s'] this']. eauto.
Qed.

Lemma Sale_new_saved_witness :
  ∃ h' s' this',
    mergeAndSave (λ _, true) [] scenarioD emptyTransaction
      (balancedCandidates 100 200 Sale (getDrElementIds [] emptyTransaction)
         [usd Element.Credit 10; eur Element.Credit 5])
    = (h', s', this', Resolved).
Proof.
  apply (Sale_new_saved (λ _, true) 100 200 [] scenarioD emptyTransaction Sale
           [usd Element.Credit 10; eur Element.Credit 5]);
    [reflexivity|reflexivity|reflexivity|reflexivity|done| | |compute_done
    |by vm_compute].
  - repeat (apply Forall_cons; split; [reflexivity|]). apply Forall_nil_2.
  - by intros first [= <-].
Defined.

(** ** The transaction's own row *)

Lemma sameTxn_refl s : sameTxn s s.
Proof. done. Qed.

Lemma sameTxn_trans s1 s2 s3 : sameTxn s1 s2 → sameTxn s2 s3 → sameTxn s1 s3.
Proof. unfold sameTxn. intros (-> & -> & ->) (-> & -> & ->). done. Qed.

Lemma Element_save_sameTxn h s l h' s' :
  Element_save h s l = (h', s') → sameTxn s s'.
Proof.
  unfold Element_save. destruct (Element.id (deref h l)); by intros [= _ <-].
Qed.

Lemma Element_delete_sameTxn h s l : sameTxn s (Element_delete h s l).
Proof. unfold Element_delete. by destruct (Element.id (deref h l)). Qed.

Lemma saveChild_sameTxn h s l h' s' :
  saveChild (h, s) l = (h', s') → sameTxn s s'.
Proof.
  unfold saveChild. destruct (Element._parent (deref h l));
    [|by intros [= _ <-]].
  destruct (negb _ && _).
  - intros [= _ <-]. apply Element_delete_sameTxn.
  - apply Element_save_sameTxn.
Qed.

Lemma deleteOne_sameTxn cs h s l h' s' :
  deleteOne cs (h, s) l = (h', s') → sameTxn s s'.
Proof. unfold deleteOne. intros [= _ <-]. apply Element_delete_sameTxn. Qed.

Section txn_steps.

Variable step : list Element.TElement * Store.t → nat
                → list Element.TElement * Store.t.

Hypothesis step_sameTxn : ∀ h s l h' s',
  step (h, s) l = (h', s') → sameTxn s s'.

Lemma foldl_sameTxn ls : ∀ h s h' s',
  foldl step (h, s) ls = (h', s') → sameTxn s s'.
Proof.
  induction ls as [|l ls IH]; intros h s h' s'.
  - intros [= _ <-]. apply sameTxn_refl.
  - cbn [foldl]. destruct (step (h, s) l) as [h1 s1] eqn:Hstep.
    intros Hrun. eapply sameTxn_trans; [by eapply step_sameTxn | by eapply IH].
Qed.

End txn_steps.

Lemma saveBatches_sameTxn h s b h' s' :
  saveBatches h s b = (h', s') → sameTxn s s'.
Proof.
  unfold saveBatches.
  destruct (foldl (deleteOne (children b)) (h, s) (deletes b))
    as [h1 s1] eqn:Hdel.
  destruct (foldl saveOne (h1, s1) (parents b)) as [h2 s2] eqn:Hpar.
  intros Hch.
  apply (foldl_sameTxn _ (deleteOne_sameTxn _)) in Hdel.
  apply (foldl_sameTxn saveOne (λ h s l, Element_save_sameTxn h s l)) in Hpar.
  apply (foldl_sameTxn _ saveChild_sameTxn) in Hch.
  eauto using sameTxn_trans.
Qed.

(** X29. [_save] gives the transaction an id when it has none (the next
    generated id, under which a row with its fields is inserted) and keeps
    the id it has (patching the row of that id, if there is one); it
    changes nothing else of the transaction, sets [lastSavedDate] to its
    date, and touches no other row of [txn], whatever elements are saved. *)
Theorem _save_transaction_row h s this h' s' this' :
  _save h s this = (h', s', this') →
  ∃ tid,
    Transaction.id this' = Some tid
    ∧ this' = Transaction.with_id (Some tid) this
    ∧ Store.lastSavedDate s' = Transaction.date this
    ∧ (∀ k, k ≠ tid → Store.txn s' !! k = Store.txn s !! k)
    ∧ match Transaction.id this with
      | None =>
          tid = Store.txnSeq s
          ∧ Store.txn s' !! tid = Some (rowOf this)
          ∧ Store.txnSeq s' = Store.txnSeq s + 1
      | Some k =>
          tid = k
          ∧ Store.txn s' !! k
            = Store.patchTxnRow (rowOf this) <$> Store.txn s !! k
          ∧ Store.txnSeq s' = Store.txnSeq s
      end.
Proof.
  unfold _save. destruct (saveRow s this) as [s0 this0] eqn:Hrow.
  set (s0' := Store.with_lastSavedDate _ s0).
  assert (sameTxn s0' s' ∧ this' = this0 →
    ∃ tid,
      Transaction.id this' = Some tid
      ∧ this' = Transaction.with_id (Some tid) this
      ∧ Store.lastSavedDate s' = Transaction.date this
      ∧ (∀ k, k ≠ tid → Store.txn s' !! k = Store.txn s !! k)
      ∧ match Transaction.id this with
        | None =>
            tid = Store.txnSeq s
            ∧ Store.txn s' !! tid = Some (rowOf this)
            ∧ Store.txnSeq s' = Store.txnSeq s + 1
        | Some k =>
            tid = k
            ∧ Store.txn s' !! k
              = Store.patchTxnRow (rowOf this) <$> Store.txn s !! k
            ∧ Store.txnSeq s' = Store.txnSeq s
        end) as Hend.
  { intros [(Htxn & Hseq & Hlsd) ->]. rewrite Htxn, Hseq, Hlsd.
    unfold s0'. unfold saveRow in Hrow.
    destruct (Transaction.id this) as [k|] eqn:Hid; injection Hrow as <- <-.
    - exists k. cbn. split_and!; [done| |done| |done| |done].
      + destruct this. cbn in *. by subst.
      + intros k' Hne. by apply lookup_alter_ne.
      + apply lookup_alter_eq.
    - exists (Store.txnSeq s). cbn. split_and!; [done..| |done| |done].
      + intros k' Hne. by apply lookup_insert_ne.
      + apply lookup_insert_eq. }
  destruct (Transaction.elements this0) as [elements|].
  - destruct (separateElements this0 h elements) as [h0 b].
    destruct (saveBatches h0 s0' b) as [h1 s1] eqn:Hb.
    intros [= <- <- <-]. apply Hend. split; [|done].
    by eapply saveBatches_sameTxn.
  - intros [= <- <- <-]. apply Hend. split; [apply sameTxn_refl|done].
Qed.

Lemma _save_transaction_row_witness :
  ∃ tid,
    Transaction.id (_save editedHeap saleStore editedSale).2 = Some tid
    ∧ (_save editedHeap saleStore editedSale).2
      = Transaction.with_id (Some tid) editedSale
    ∧ Store.lastSavedDate (_save editedHeap saleStore editedSale).1.2
      = Transaction.date editedSale
    ∧ (∀ k, k ≠ tid →
         Store.txn (_save editedHeap saleStore editedSale).1.2 !! k
         = Store.txn saleStore !! k)
    ∧ match Transaction.id editedSale with
      | None =>
          tid = Store.txnSeq saleStore
          ∧ Store.txn (_save editedHeap saleStore editedSale).1.2 !! tid
            = Some (rowOf editedSale)
          ∧ Store.txnSeq (_save editedHeap saleStore editedSale).1.2
            = Store.txnSeq saleStore + 1
      | Some k =>
          tid = k
          ∧ Store.txn (_save editedHeap saleStore editedSale).1.2 !! k
            = Store.patchTxnRow (rowOf editedSale) <$> Store.txn saleStore !! k
          ∧ Store.txnSeq (_save editedHeap saleStore editedSale).1.2
            = Store.txnSeq saleStore
      end.
Proof.
  apply (_save_transaction_row editedHeap saleStore editedSale
           (_save editedHeap saleStore editedSale).1.1).
  by destruct (_save editedHeap saleStore editedSale) as [[? ?] ?].
Defined.

(** ** Saving a transaction whose elements are all new *)

Lemma freshStep_freshly seq0 elements h s l h' s' :
  l ∈ elements → Element.id (deref h l) = None →
  freshStep h s l h' s' → freshly seq0 elements h s →
  seq0 ≤ Store.txnElementSeq s →
  freshly seq0 elements h' s' ∧ Store.txnElementSeq s ≤ Store.txnElementSeq s'
  ∧ (∀ k, k < seq0 → Store.txnElement s' !! k = Store.txnElement s !! k).
Proof.
  intros Hl Hnone (Hlen & Hother & Hcase) [Hin Hout] Hseq0.
  destruct Hcase as [[Hid ->]|(Hid & Hrows & Hseq)].
  - split_and!; [|lia|done]. split.
    + intros l0 k Hl0 Hk. destruct (decide (l0 = l)) as [->|Hne]; [congruence|].
      rewrite Hother in Hk |- * by done. by apply Hin.
    + intros k Hk Hrow. destruct (Hout k Hk Hrow) as (l0 & Hl0 & Hk0).
      exists l0. split; [done|].
      destruct (decide (l0 = l)) as [->|Hne]; [congruence|].
      by rewrite Hother.
  - split_and!; [|lia|]. split.
    + intros l0 k Hl0 Hk. rewrite Hseq, Hrows.
      destruct (decide (l0 = l)) as [->|Hne].
      * rewrite Hid in Hk. injection Hk as <-. split; [lia|].
        apply lookup_insert_eq.
      * rewrite (Hother l0) in Hk |- * by done.
        destruct (Hin l0 k Hl0 Hk) as [Hrange Hrow]. split; [lia|].
        rewrite lookup_insert_ne by lia. done.
    + intros k Hk. rewrite Hrows.
      destruct (decide (k = Store.txnElementSeq s)) as [->|Hne].
      * intros _. exists l. done.
      * rewrite lookup_insert_ne by done. intros Hrow.
        destruct (Hout k Hk Hrow) as (l0 & Hl0 & Hk0). exists l0.
        split; [done|]. destruct (decide (l0 = l)) as [->|Hne']; [congruence|].
        by rewrite Hother.
    + intros k Hk. rewrite Hrows. apply lookup_insert_ne. lia.
Qed.

Lemma Element_save_freshStep h s l h' s' :
  (l < length h)%nat → Element.id (deref h l) = None →
  Element_save h s l = (h', s') → freshStep h s l h' s'.
Proof.
  intros Hl Hid. unfold Element_save. rewrite Hid. intros [= <- <-].
  split_and!.
  - apply length_insert.
  - intros l' Hne. by rewrite deref_insert_ne by (by intros ->).
  - right. rewrite deref_insert_eq by done. done.
Qed.

Lemma saveChild_freshStep h s l h' s' :
  (l < length h)%nat → Element.id (deref h l) = None →
  saveChild (h, s) l = (h', s') → freshStep h s l h' s'.
Proof.
  intros Hl Hid. unfold saveChild.
  destruct (Element._parent (deref h l)) as [p|].
  2:{ intros [= <- <-]. split_and!; [done..|]. by left. }
  set (e1 := Element.with_parent None _).
  assert (Element.id e1 = None) as Hid1 by done.
  assert (∀ l', l' ≠ l → deref (<[l := e1]> h) l' = deref h l') as Hother.
  { intros l' Hne. by rewrite deref_insert_ne by (by intros ->). }
  destruct (negb _ && _).
  - intros [= <- <-]. split_and!; [apply length_insert|done|].
    left. rewrite deref_insert_eq by done. split; [done|].
    unfold Element_delete. by rewrite deref_insert_eq, Hid1.
  - intros (Hlen & Hother' & Hcase)%Element_save_freshStep;
      [|by rewrite length_insert|by rewrite deref_insert_eq].
    rewrite length_insert in Hlen. split; [done|]. split; [|done].
    intros l' Hne. rewrite Hother' by done. by apply Hother.
Qed.

Section fresh_steps.

Variable step : list Element.TElement * Store.t → nat
                → list Element.TElement * Store.t.

Hypothesis step_fresh : ∀ h s l h' s',
  (l < length h)%nat → Element.id (deref h l) = None →
  step (h, s) l = (h', s') → freshStep h s l h' s'.

Lemma foldl_freshly seq0 elements batch : ∀ h s h' s',
  NoDup batch →
  Forall (λ l, l ∈ elements ∧ (l < length h)%nat
               ∧ Element.id (deref h l) = None) batch →
  freshly seq0 elements h s → seq0 ≤ Store.txnElementSeq s →
  foldl step (h, s) batch = (h', s') →
  length h' = length h
  ∧ (∀ l, l ∉ batch → deref h' l = deref h l)
  ∧ freshly seq0 elements h' s'
  ∧ Store.txnElementSeq s ≤ Store.txnElementSeq s'
  ∧ (∀ k, k < seq0 → Store.txnElement s' !! k = Store.txnElement s !! k).
Proof.
  induction batch as [|l batch IH]; intros h s h' s' Hnd Hall Hinv Hseq0.
  - intros [= <- <-]. split_and!; [done..|lia|done].
  - cbn [foldl]. destruct (step (h, s) l) as [h1 s1] eqn:Hstep.
    apply NoDup_cons in Hnd as [Hl Hnd].
    apply Forall_cons in Hall as [(Hel & Hlh & Hid) Hall].
    pose proof (step_fresh _ _ _ _ _ Hlh Hid Hstep) as Hfs.
    pose proof Hfs as (Hlen1 & Hother1 & _).
    destruct (freshStep_freshly _ _ _ _ _ _ _ Hel Hid Hfs Hinv Hseq0)
      as (Hinv1 & Hseq1 & Hold1).
    intros Hrun. apply IH in Hrun as (Hlen & Hother & Hinv' & Hseq' & Hold');
      [|done| |done|lia].
    + split_and!; [congruence| |done|lia|].
      * intros l' [Hne Hnin]%not_elem_of_cons. rewrite Hother by done.
        by apply Hother1.
      * intros k Hk. rewrite Hold' by done. by apply Hold1.
    + apply Forall_forall. intros l' Hl'. rewrite Forall_forall in Hall.
      destruct (Hall l' Hl') as (? & ? & ?).
      rewrite Hlen1, Hother1 by (by intros ->). done.
Qed.

End fresh_steps.

Lemma saveChild_stays h s l h' s' :
  (l < length h)%nat → Element.id (deref h l) = None →
  saveChild (h, s) l = (h', s') →
  Element.id (deref h' l) = None ∨ stays (deref h' l).
Proof.
  intros Hl Hid. unfold saveChild.
  destruct (Element._parent (deref h l)) as [p|].
  2:{ intros [= <- <-]. by left. }
  set (e1 := Element.with_parent None _).
  assert (Element.id e1 = None) as Hid1 by done.
  destruct (negb (JS.truthy (Element.parentId e1))) eqn:Hp;
    [destruct (Z.eqb_spec (Element.amount e1) 0) as [Ha|Ha]|]; cbn [andb].
  - intros [= <- <-]. left. by rewrite deref_insert_eq.
  - unfold Element_save. rewrite deref_insert_eq, Hid1 by done.
    intros [= <- <-]. right. right.
    rewrite deref_insert_eq by (by rewrite length_insert). done.
  - unfold Element_save. rewrite deref_insert_eq, Hid1 by done.
    intros [= <- <-]. right. left.
    rewrite deref_insert_eq by (by rewrite length_insert).
    apply negb_false_iff in Hp. done.
Qed.

Lemma foldl_saveChild_stays batch : ∀ h s h' s',
  NoDup batch →
  Forall (λ l, (l < length h)%nat ∧ Element.id (deref h l) = None) batch →
  foldl saveChild (h, s) batch = (h', s') →
  length h' = length h
  ∧ (∀ l, l ∉ batch → deref h' l = deref h l)
  ∧ (∀ l, l ∈ batch →
       Element.id (deref h' l) = None ∨ stays (deref h' l)).
Proof.
  induction batch as [|l batch IH]; intros h s h' s' Hnd Hall.
  - intros [= <- <-]. split_and!; [done..|]. by intros l ?%elem_of_nil.
  - cbn [foldl]. destruct (saveChild (h, s) l) as [h1 s1] eqn:Hstep.
    apply NoDup_cons in Hnd as [Hl Hnd].
    apply Forall_cons in Hall as [[Hlh Hid] Hall].
    destruct (saveChild_freshStep _ _ _ _ _ Hlh Hid Hstep)
      as (Hlen1 & Hother1 & _).
    intros Hrun. apply IH in Hrun as (Hlen & Hother & Hin); [|done|].
    + split_and!; [congruence| |].
      * intros l' [Hne Hnin]%not_elem_of_cons. rewrite Hother by done.
        by apply Hother1.
      * intros l' [->|Hl']%elem_of_cons; [|by apply Hin].
        rewrite Hother by done. by eapply saveChild_stays.
    + apply Forall_forall. intros l' Hl'. rewrite Forall_forall in Hall.
      destruct (Hall l' Hl') as (? & ?).
      rewrite Hlen1, Hother1 by (by intros ->). done.
Qed.

(** [_save], when no element has an id yet. *)
Lemma _save_fresh h s this elements h' s' this' :
  Transaction.elements this = Some elements →
  NoDup elements → heap_ok h elements → seq_fresh s →
  Forall (λ l, Element.id (deref h l) = None) elements →
  _save h s this = (h', s', this') →
  length h' = length h
  ∧ freshly (Store.txnElementSeq s) elements h' s'
  ∧ (∀ k, k < Store.txnElementSeq s →
       Store.txnElement s' !! k = Store.txnElement s !! k)
  ∧ ids_ok h' s' elements
  ∧ sameKept h h'
  ∧ this' = (saveRow s this).2
  ∧ (∀ l, l ∈ elements → is_Some (Element.id (deref h' l)) →
       isKept (deref h l) = true
       ∧ (hasParent (deref h l) = false ∨ stays (deref h' l))).
Proof.
  intros Hel Hnd Hok Hfresh Hall Hsave.
  destruct (_save_elements h s this elements Hel)
    as (s0 & this0 & h0 & b & h1 & s1 & h2 & s2 & h'' & s'' & Hrows & Hseq
        & Hthis0 & Hsep & Hdel & Hpar & Hch & Hsave').
  rewrite Hsave in Hsave'. injection Hsave' as <- <- ->.
  assert (sameKept h h') as Hkept
    by exact (saveBatches_kept _ _ _ _ _ _ _ _ _ _ _ _ Hsep Hdel Hpar Hch).
  rewrite Forall_forall in Hall.
  assert (store_ok h s0 elements) as Hstore.
  { apply store_ok_ids_ok. split_and!; [done..|]. split.
    - intros l1 l2 k H1 _ Hk. by rewrite Hall in Hk.
    - intros l k Hl Hk. by rewrite Hall in Hk. }
  destruct (saveBatches_ids _ _ _ _ _ _ _ _ _ _ _ _ Hstore Hsep Hdel Hpar Hch)
    as (Hlen & Hids & _).
  destruct (separateElements_elem_of _ _ _ _ _ Hsep)
    as ((Hlen0 & Hsame) & Hinp & Hinc & Hind & Hnds).
  destruct (Hnds Hnd) as (Hndp & Hndc & _). clear Hnds.
  assert (∀ l, Element.id (deref h0 l) = Element.id (deref h l)) as Hid0.
  { intros l. by destruct (sameButTransactionId_fields _ _ (Hsame l)) as (-> & _). }
  assert (deletes b = []) as Hnodel.
  { apply elem_of_nil_inv. intros l (Hl & _ & Ht)%Hind.
    by rewrite (Hall l Hl) in Ht. }
  rewrite Hnodel in Hdel, Hids. injection Hdel as <- <-.
  assert (∀ l, l ∈ elements → (l < length h0)%nat) as Halloc.
  { intros l Hl. rewrite Hlen0. unfold heap_ok in Hok.
    rewrite Forall_forall in Hok. by apply Hok. }
  assert (freshly (Store.txnElementSeq s) elements h0 s0) as Hinv0.
  { split.
    - intros l k Hl Hk. by rewrite Hid0, Hall in Hk.
    - intros k Hk [row Hrow]. rewrite Hrows, Hfresh in Hrow by done. done. }
  destruct (foldl_freshly saveOne Element_save_freshStep
              (Store.txnElementSeq s) elements (parents b) h0 s0 h2 s2)
    as (Hlen2 & Hother2 & Hinv2 & Hseq2 & Hold2); [done| |done|lia|done|].
  { apply Forall_forall. intros l (Hl & _)%Hinp.
    split_and!; [done|by apply Halloc|]. by rewrite Hid0, Hall. }
  destruct (foldl_freshly saveChild saveChild_freshStep
              (Store.txnElementSeq s) elements (children b) h2 s2 h' s')
    as (Hlen' & Hother' & Hinv' & Hseq' & Hold'); [done| |done|lia|done|].
  { apply Forall_forall. intros l (Hl & Hk & Hp)%Hinc.
    assert (l ∉ parents b) as Hlp.
    { intros (_ & _ & Hp')%Hinp. congruence. }
    rewrite Hlen2, Hother2 by done.
    split_and!; [done|by apply Halloc|]. by rewrite Hid0, Hall. }
  split_and!; [done|done| | |done|done|].
  - intros k Hk. rewrite Hold', Hold2 by done. by rewrite Hrows.
  - eapply ids_ok_subseteq; [|exact Hids].
    intros l Hl. apply list_elem_of_filter. split; [apply not_elem_of_nil|done].
  - intros l Hl Hsome.
    destruct (isKept (deref h l)) eqn:Hk.
    + split; [done|]. destruct (hasParent (deref h l)) eqn:Hp; [|by left].
      right.
      destruct (foldl_saveChild_stays (children b) h2 s2 h' s')
        as (_ & _ & Hin); [done| |done|].
      * apply Forall_forall. intros l' (Hl' & Hk' & Hp')%Hinc.
        assert (l' ∉ parents b) as Hlp.
        { intros (_ & _ & Hp'')%Hinp. congruence. }
        rewrite Hlen2, Hother2 by done.
        split; [by apply Halloc|]. by rewrite Hid0, Hall.
      * destruct (Hin l) as [Hnone|?]; [by apply Hinc| |done].
        rewrite Hnone in Hsome. by destruct Hsome.
    + assert (l ∉ parents b) as Hlp.
      { intros (_ & Hk' & _)%Hinp. congruence. }
      assert (l ∉ children b) as Hlc.
      { intros (_ & Hk' & _)%Hinc. congruence. }
      rewrite Hother', Hother2, Hid0, Hall in Hsome by done.
      by destruct Hsome.
Qed.

Lemma view_loadElements h s this :
  view (loadElements h s this).1
    (default [] (Transaction.elements (loadElements h s this).2))
  = (λ r, Element.fields (Element.with_id (Some r.1) (Element.construct r.2)))
      <$> relatedElements s this.
Proof.
  unfold loadElements. cbn [fst snd].
  unfold Transaction.with_elements. cbn [Transaction.elements default].
  rewrite <- (length_fmap
    (λ r : Z * Element.IElement,
       Element.with_id (Some r.1) (Element.construct r.2))).
  rewrite view_allocated. by rewrite <- list_fmap_compose.
Qed.

Lemma with_id_construct (row : Element.IElement) k :
  Element.id row = Some k →
  Element.fields (Element.with_id (Some k) (Element.construct row)) = row.
Proof. destruct row. cbn. by intros ->. Qed.

Lemma filter_all {A} (P : A → Prop) `{∀ x, Decision (P x)} (l : list A) :
  Forall P l → filter P l = l.
Proof.
  induction 1 as [|x l Hx _ IH]; [done|].
  by rewrite filter_cons_True, IH.
Qed.

(** X30. A save followed by a load gives what [condenseElements] leaves in
    memory. For a new transaction (no id) whose elements are distinct
    objects without ids, each a non-child with an amount other than 0 or
    without a tax code, or a child with a pending [_parent]: after [_save],
    the elements [loadElements] reads back carry the same fields, in the
    same order, as the elements [condenseElements] keeps. The store holds
    no row at or above the id generator, and no row that refers to the
    transaction id about to be generated. *)
Theorem save_load_round_trip h s this elements h' s' this' :
  Transaction.id this = None →
  Transaction.elements this = Some elements →
  NoDup elements → heap_ok h elements → seq_fresh s →
  (∀ k row, Store.txnElement s !! k = Some row →
     Element.transactionId row ≠ Some (Store.txnSeq s)) →
  Forall (λ l, Element.id (deref h l) = None
               ∧ ((hasParent (deref h l) = false
                   ∧ (Element.amount (deref h l) ≠ 0
                      ∨ JS.truthy_str (Element.taxCode (deref h l)) = false))
                  ∨ is_Some (Element._parent (deref h l)))) elements →
  _save h s this = (h', s', this') →
  view (loadElements h' s' this').1
    (default [] (Transaction.elements (loadElements h' s' this').2))
  = view h' (default [] (Transaction.elements (condenseElements h' this'))).
Proof.
  intros Hnew Hel Hnd Hok Hfresh Hrefs Hall Hsave.
  rewrite Forall_forall in Hall.
  destruct (_save_fresh h s this elements h' s' this' Hel Hnd Hok Hfresh)
    as (Hlen & [F1 F2] & F3 & [Hinj _] & Hkept & Hthis & Hwritten); [|done|].
  { apply Forall_forall. intros l Hl. by destruct (Hall l Hl). }
  assert (Transaction.id this' = Some (Store.txnSeq s)
          ∧ Transaction.elements this' = Some elements) as [Htid Hel'].
  { rewrite Hthis. unfold saveRow. by rewrite Hnew. }
  set (kept := filter (λ l, survives (deref h' l) = true) elements).
  assert (∀ l, l ∈ elements → is_Some (Element.id (deref h' l)) →
            survives (deref h' l) = true) as Hsurv.
  { intros l Hl Hsome. destruct (Hwritten l Hl Hsome) as [Hk Hcase].
    destruct (blank_fields _ _ (Hkept l)) as (Ha & Ht & _).
    unfold isKept in Hk. rewrite <- Ha, <- Ht in Hk.
    unfold survives, isRemovable.
    destruct (Z.eqb_spec (Element.amount (deref h' l)) 0) as [Hz|Hnz];
      [|done]. cbn in Hk |- *. rewrite Hk.
    destruct Hcase as [Hroot|[Hp|?]]; [|by rewrite Hp|done].
    destruct (Hall l Hl) as (_ & [(_ & [Hne|Hno])|Hpending]).
    - congruence.
    - congruence.
    - unfold hasParent in Hroot. rewrite bool_decide_eq_true_2 in Hroot; done. }
  assert (∀ l, l ∈ kept →
            l ∈ elements
            ∧ ∃ k, Element.id (deref h' l) = Some k
                 ∧ Store.txnElement s' !! k = Some (Element.fields (deref h' l))
                 ∧ Element.transactionId (deref h' l) = Some (Store.txnSeq s))
    as Hsaved.
  { intros l Hl. pose proof Hl as [_ Hl']%list_elem_of_filter.
    split; [done|].
    destruct (saved_element h s this elements h' s' this' l Hel)
      as (k & row & tid & Hk & _ & _ & Htid' & Ht); [| |done| | |].
    - apply store_ok_ids_ok. split_and!; [done..|]. split.
      + intros l1 l2 k H1 _ Hk. destruct (Hall l1 H1) as (Hid & _). congruence.
      + intros l1 k H1 Hk. destruct (Hall l1 H1) as (Hid & _). congruence.
    - intros l1 k H1 Hk. destruct (Hall l1 H1) as (Hid & _). congruence.
    - unfold condenseElements. rewrite Hel'. cbn.
      by rewrite sort_Permutation.
    - destruct (Hall l Hl') as (_ & [[? _]|?]); [by left|by right].
    - exists k. destruct (F1 l k Hl' Hk) as [_ Hrow].
      split_and!; [done..|congruence]. }
  rewrite view_loadElements.
  unfold condenseElements, relatedElements. rewrite Hel', Htid. cbn.
  fold kept.
  rewrite condense_sort.
  2:{ apply Forall_forall. intros l Hl.
      destruct (Hsaved l Hl) as (_ & k & -> & _). by eexists. }
  set (rows := filter _ (map_to_list (Store.txnElement s'))).
  assert (rows ≡ₚ rowOfElement h' <$> kept) as Hperm.
  { apply NoDup_Permutation.
    - apply NoDup_filter, NoDup_map_to_list.
    - apply NoDup_fmap_2_strong; [|by apply NoDup_filter].
      intros l1 l2 H1 H2 [= Hk _].
      destruct (Hsaved l1 H1) as (Hl1 & k1 & Hk1 & _).
      destruct (Hsaved l2 H2) as (Hl2 & k2 & Hk2 & _).
      unfold idOf in Hk. rewrite Hk1, Hk2 in Hk. cbn in Hk. subst k2.
      by apply (Hinj l1 l2 k1).
    - intros [k row]. unfold rows. rewrite list_elem_of_filter, elem_of_map_to_list.
      rewrite list_elem_of_fmap. cbn. split.
      + intros [Ht Hrow].
        destruct (decide (k < Store.txnElementSeq s)) as [Hold|Hnew'].
        * rewrite F3 in Hrow by done. by destruct (Hrefs k row Hrow).
        * destruct (F2 k) as (l & Hl & Hk); [lia|by eexists|].
          exists l. split.
          -- unfold rowOfElement, idOf. rewrite Hk. cbn.
             destruct (F1 l k Hl Hk) as [_ Hrow']. congruence.
          -- apply list_elem_of_filter. split; [|done].
             apply Hsurv; [done|]. by eexists.
      + intros (l & [= -> ->] & Hl).
        destruct (Hsaved l Hl) as (_ & k & Hk & Hrow & Ht).
        unfold idOf. rewrite Hk. done. }
  assert (∀ r, r ∈ rows → Store.txnElement s' !! r.1 = Some r.2
                            ∧ Element.id r.2 = Some r.1) as Hrows.
  { intros r Hr. split.
    - unfold rows in Hr. apply list_elem_of_filter in Hr as [_ Hr].
      destruct r. by apply elem_of_map_to_list.
    - rewrite Hperm in Hr. apply list_elem_of_fmap in Hr as (l & -> & Hl).
      destruct (Hsaved l Hl) as (_ & k & Hk & _).
      unfold rowOfElement, idOf. cbn. by rewrite Hk. }
  transitivity (snd <$> JS.sort (λ a b : Z * Element.IElement, a.1 - b.1) rows).
  { apply Forall_fmap_ext, Forall_forall. intros r Hr.
    rewrite sort_Permutation in Hr. apply with_id_construct.
    by destruct (Hrows r Hr). }
  assert (JS.sort (λ a b : Z * Element.IElement, a.1 - b.1) rows
          = rowOfElement h' <$> JS.sort (λ a b, idOf h' a - idOf h' b) kept)
    as ->.
  { apply (StronglySorted_unique_strong (λ a b : Z * Element.IElement, a.1 ≤ b.1)).
    - intros x1 x2 H1 H2 H12 H21.
      rewrite sort_Permutation in H1.
      rewrite sort_Permutation, <- Hperm in H2.
      destruct (Hrows x1 H1) as [Hx1 _]. destruct (Hrows x2 H2) as [Hx2 _].
      destruct x1 as [k1 r1], x2 as [k2 r2]. cbn in *.
      assert (k1 = k2) as -> by lia. congruence.
    - apply sort_StronglySorted.
      + intros a b. lia.
      + intros a b c. lia.
      + intros a b. lia.
    - eapply StronglySorted_fmap; [|apply sort_idOf_sorted]. done.
    - by rewrite !sort_Permutation. }
  unfold view. by rewrite <- list_fmap_compose.
Qed.

Lemma save_load_round_trip_witness :
  view (loadElements (_save newSaleHeap scenarioD newSale).1.1
          (_save newSaleHeap scenarioD newSale).1.2
          (_save newSaleHeap scenarioD newSale).2).1
    (default [] (Transaction.elements
       (loadElements (_save newSaleHeap scenarioD newSale).1.1
          (_save newSaleHeap scenarioD newSale).1.2
          (_save newSaleHeap scenarioD newSale).2).2))
  = view (_save newSaleHeap scenarioD newSale).1.1
      (default [] (Transaction.elements
         (condenseElements (_save newSaleHeap scenarioD newSale).1.1
            (_save newSaleHeap scenarioD newSale).2))).
Proof.
  apply (save_load_round_trip newSaleHeap scenarioD newSale [0; 1; 2; 3; 4]%nat
           (_save newSaleHeap scenarioD newSale).1.1
           (_save newSaleHeap scenarioD newSale).1.2
           (_save newSaleHeap scenarioD newSale).2).
  - reflexivity.
  - reflexivity.
  - compute_done.
  - repeat (apply Forall_cons; split; [vm_compute; lia|]). apply Forall_nil_2.
  - exact scenarioD_seq_fresh.
  - intros k row Hrow. change (@lookup _ _ (gmap Z Element.IElement) _ k ∅ = Some row) in Hrow.
    by rewrite lookup_empty in Hrow.
  - repeat (apply Forall_cons; split;
              [split; [reflexivity|
                 first [left; split; [reflexivity|first [left; done|right; reflexivity]]
                       |right; by eexists]]|]).
    apply Forall_nil_2.
  - reflexivity.
Defined.
